(** * Cache replacement policies of Icarus (icarus/models/cache.py)

    A shallow embedding of the cache policies [NullCache], [LruCache],
    [LfuCache], [FifoCache], [RandCache] and of the two decorators
    [rand_insert_cache] and [keyval_cache], followed by the properties of
    the specification that are settled against them.

    Conventions of the embedding:
    - a Python value that can be used as a cache key or be returned by
      [put] is a [pyval]; [None] is one of them, as in the source, where
      [put] returns either the evicted key or [None];
    - a method that may raise returns a [result]; a method that mutates
      [self] takes the object and returns the new one;
    - the module level generator of Python's [random] is a piece of global
      state that is threaded through the methods that use it. *)

From Stdlib Require Import ZArith QArith Lia.
From stdpp Require Import gmap strings list.

Local Open Scope Z_scope.

(* stdpp's solvers clear hypotheses that are sometimes gone already. *)
#[local] Set Warnings "-clear-no-such-hyp".

(** ** Python values, truthiness, exceptions *)

Inductive pyval :=
  | PNone
  | PInt (z : Z)
  | PStr (s : string).

#[global] Instance pyval_eq_dec : EqDecision pyval.
Proof. solve_decision. Defined.

Definition pyval_enc (v : pyval) : unit + (Z + string) :=
  match v with
  | PNone => inl tt
  | PInt z => inr (inl z)
  | PStr s => inr (inr s)
  end.

Definition pyval_dec (x : unit + (Z + string)) : pyval :=
  match x with
  | inl _ => PNone
  | inr (inl z) => PInt z
  | inr (inr s) => PStr s
  end.

#[global] Instance pyval_countable : Countable pyval.
Proof.
  apply (inj_countable' pyval_enc pyval_dec).
  by intros [].
Defined.

(** The truth value Python gives to an object in [if v:]. *)
Definition truthy (v : pyval) : bool :=
  match v with
  | PNone => false
  | PInt z => negb (z =? 0)
  | PStr s => negb (String.eqb s "")
  end.

Inductive exn :=
  | ValueError
  | TypeError
  | KeyError
  | IndexError
  | AttributeError.

Inductive result (A : Type) :=
  | Ok (a : A)
  | Raise (e : exn).
Arguments Ok {A} a.
Arguments Raise {A} e.

#[global] Instance result_ret : MRet result := λ A a, Ok a.
#[global] Instance result_bind : MBind result := λ A B f m,
  match m with
  | Ok a => f a
  | Raise e => Raise e
  end.

#[global] Instance result_fmap : FMap result := λ A B f m,
  match m with
  | Ok a => Ok (f a)
  | Raise e => Raise e
  end.

(** ** The generator of the [random] module

    Its implementation is not part of the repository: the state space and
    the three entry points used by cache.py are an interface. *)

Class RandomGen := {
  gen_state : Type;
  (** [random.seed(seed)] for a seed other than [None]: the state the
      generator is set to. *)
  random_seed : pyval → gen_state;
  (** [random.random()]: a float and the next state. *)
  random_random : gen_state → Q * gen_state;
  (** [random.randint(a, b)] for [a <= b]. *)
  random_randint : Z → Z → gen_state → Z * gen_state;
}.

(** What the documentation of [random] promises. *)
Class RandomGenLaws (R : RandomGen) : Prop := {
  random_range : ∀ g, (0 <= (random_random g).1 ∧ (random_random g).1 < 1)%Q;
  randint_range : ∀ a b g, a ≤ b → a ≤ (random_randint a b g).1 ≤ b;
}.

(** [random.seed(seed)]: with [None] the state comes from the operating
    system (its clock or its entropy source), [entropy] here. *)
Definition seed_state `{RandomGen} (seed : pyval) (entropy : gen_state) : gen_state :=
  match seed with
  | PNone => entropy
  | _ => random_seed seed
  end.

(** [random.randint(a, b)] raises when the range is empty. *)
Definition randint `{RandomGen} (a b : Z) (g : gen_state) : result (Z * gen_state) :=
  if b <? a then Raise ValueError else Ok (random_randint a b g).

(** A small congruential generator, used to run the model. *)
Module ToyRandom.
Definition step (g : Z) : Z := (g * 1103515245 + 12345) mod 2147483648.
Definition seed (v : pyval) : Z :=
  match v with
  | PNone => 0
  | PInt z => z mod 2147483648
  | PStr s => Z.of_nat (String.length s)
  end.
Definition random (g : Z) : Q * Z := (Qmake (g mod 1000) 1000, step g).
Definition randint (a b : Z) (g : Z) : Z * Z := (a + g mod (b - a + 1), step g).
#[global] Instance gen : RandomGen :=
  {| gen_state := Z; random_seed := seed; random_random := random;
     random_randint := randint |}.
End ToyRandom.

(** ** Node of a linked list *)

Definition ref := nat.

Module Node.
Record inst := mk {
  down : option ref;      (* Pointer to node down the chain *)
  val : pyval;            (* Object stored by this node *)
  up : option ref;        (* Pointer to node up the chain *)
  hits : Z;               (* Number of hits of this object *)
  time : Z;               (* Time this object was created *)
}.

(** [Node(down, val)] *)
Definition init (down : option ref) (val : pyval) : inst :=
  mk down val None 0 0.

Definition set_down (d : option ref) (n : inst) : inst :=
  mk d (val n) (up n) (hits n) (time n).
Definition set_up (u : option ref) (n : inst) : inst :=
  mk (down n) (val n) u (hits n) (time n).
End Node.

(** ** NullCache *)

Module NullCache.
Definition inst := unit.
Definition init (maxlen : Z) : result inst := Ok tt.
Definition len (c : inst) : Z := 0.
Definition maxlen (c : inst) : Z := 0.
Definition dump (c : inst) : list pyval := [].
Definition has (k : pyval) (c : inst) : bool := false.
Definition get (k : pyval) (c : inst) : result (bool * inst) := Ok (false, c).
Definition put (k : pyval) (c : inst) : result (pyval * inst) := Ok (PNone, c).
Definition clear (c : inst) : inst := c.
End NullCache.

(** ** LruCache

    The nodes of the recency list are objects of the Python heap. The
    record carries the part of the heap that holds them ([store]) and the
    next unused address; the fields of the class are [_cache], [bottom],
    [top] and [_maxlen]. A reference that is [None] is [None] here too. *)

Module LruCache.
Record inst := mk {
  _cache : gmap pyval ref;
  bottom : option ref;
  top : option ref;
  _maxlen : Z;
  store : gmap ref Node.inst;
  next_ref : ref;
}.

Definition with_cache (m : gmap pyval ref) (c : inst) : inst :=
  mk m (bottom c) (top c) (_maxlen c) (store c) (next_ref c).
Definition with_bottom (b : option ref) (c : inst) : inst :=
  mk (_cache c) b (top c) (_maxlen c) (store c) (next_ref c).
Definition with_top (tp : option ref) (c : inst) : inst :=
  mk (_cache c) (bottom c) tp (_maxlen c) (store c) (next_ref c).
Definition with_store (s : gmap ref Node.inst) (c : inst) : inst :=
  mk (_cache c) (bottom c) (top c) (_maxlen c) s (next_ref c).

(** Attribute access through a reference: [None.attr] raises. A live
    reference always has its object; the second [Raise] is there to keep
    the function total. *)
Definition deref (r : option ref) (c : inst) : result (ref * Node.inst) :=
  match r with
  | None => Raise AttributeError
  | Some a =>
      match store c !! a with
      | Some n => Ok (a, n)
      | None => Raise AttributeError
      end
  end.

(** [r.up = u] and [r.down = d] *)
Definition assign_up (r : option ref) (u : option ref) (c : inst) : result inst :=
  '(a, n) ← deref r c;
  Ok (with_store (<[a := Node.set_up u n]> (store c)) c).
Definition assign_down (r : option ref) (d : option ref) (c : inst) : result inst :=
  '(a, n) ← deref r c;
  Ok (with_store (<[a := Node.set_down d n]> (store c)) c).

(** [obj = Node(down, val)] *)
Definition new_node (down : option ref) (val : pyval) (c : inst) : ref * inst :=
  (next_ref c,
   mk (_cache c) (bottom c) (top c) (_maxlen c)
      (<[next_ref c := Node.init down val]> (store c)) (S (next_ref c))).

Definition init (maxlen : Z) : result inst :=
  let c := mk ∅ None None maxlen ∅ 0%nat in
  if _maxlen c <=? 0 then Raise ValueError else Ok c.

Definition len (c : inst) : Z := Z.of_nat (size (_cache c)).
Definition maxlen (c : inst) : Z := _maxlen c.

(** The loop of [dump]; it has no bound in the source, and runs here for
    at most [fuel] nodes: [None] stands for a traversal that has not
    ended by then. *)
Fixpoint dump_loop (fuel : nat) (s : gmap ref Node.inst) (cur : option ref)
    (d : list pyval) : option (list pyval) :=
  match cur with
  | None => Some d
  | Some a =>
      match fuel with
      | O => None
      | S fuel' =>
          match s !! a with
          | Some n => dump_loop fuel' s (Node.down n) (d ++ [Node.val n])
          | None => None
          end
      end
  end.

(** A chain without a cycle visits each node of the store at most once. *)
Definition dump (c : inst) : option (list pyval) :=
  dump_loop (S (size (store c))) (store c) (top c) [].

Definition has (k : pyval) (c : inst) : bool := bool_decide (is_Some (_cache c !! k)).

(** The loop of [position], with the fuel of [dump_loop]. It returns the
    index of the first node that holds [k]; when the chain ends before
    such a node, the method falls off its end and returns [None]. *)
Fixpoint position_loop (fuel : nat) (s : gmap ref Node.inst) (cur : option ref)
    (k : pyval) (index : Z) : option pyval :=
  match cur with
  | None => Some PNone
  | Some a =>
      match fuel with
      | O => None
      | S fuel' =>
          match s !! a with
          | Some n =>
              if bool_decide (Node.val n = k) then Some (PInt index)
              else position_loop fuel' s (Node.down n) k (index + 1)
          | None => None
          end
      end
  end.

Definition position (k : pyval) (c : inst) : option (result pyval) :=
  if negb (has k c) then Some (Raise ValueError) else
  Ok <$> position_loop (S (size (store c))) (store c) (top c) k 0.

(** The five lines shared by [get] and [put] that push a new node for
    [k] on top of the list. *)
Definition push_top (k : pyval) (c : inst) : result inst :=
  let '(obj, c) := new_node (top c) k c in
  let c := if bottom c is None then with_bottom (Some obj) c else c in
  c ← (if top c is Some _ then assign_up (top c) (Some obj) c else Ok c);
  let c := with_top (Some obj) c in
  Ok (with_cache (<[k := obj]> (_cache c)) c).

Definition get (k : pyval) (c : inst) : result (bool * inst) :=
  if negb (has k c) then Ok (false, c) else
  '(node, n) ← deref (_cache c !! k) c;
  if Node.up n is None then Ok (true, c) else
  c ← (if Node.down n is Some _
       then assign_up (Node.down n) (Node.up n) c
       else Ok (with_bottom (Node.up n) c));
  '(_, n) ← deref (Some node) c;
  c ← assign_down (Node.up n) (Node.down n) c;
  let c := with_cache (delete k (_cache c)) c in
  c ← push_top k c;
  Ok (true, c).

(** [put] starts with [self.get(k)]: the attribute is looked up on the
    instance, so [put] calls whatever [get] the instance has at that time
    ([keyval_cache] replaces it) and tests the truth value of what it
    returns. [self_get] is that attribute, with that truth value. *)
Definition put_with (self_get : pyval → inst → result (bool * inst))
    (k : pyval) (c : inst) : result (pyval * inst) :=
  '(hit, c) ← self_get k c;
  if hit : bool then Ok (PNone, c) else
  c ← push_top k c;
  if len c <=? maxlen c then Ok (PNone, c) else
  if bool_decide (bottom c = top c)
  then Ok (PNone, with_top None (with_bottom None c)) else
  '(a, na) ← deref (bottom c) c;
  let evicted := Node.val na in
  c ← assign_down (Node.up na) None c;
  '(_, na) ← deref (Some a) c;
  let c := with_bottom (Node.up na) c in
  c ← assign_up (Some a) None c;
  if negb (has evicted c) then Raise KeyError else
  let c := with_cache (delete evicted (_cache c)) c in
  Ok (evicted, c).

(** On an instance of the class itself, [self.get] is [LruCache.get]. *)
Definition put (k : pyval) (c : inst) : result (pyval * inst) :=
  put_with get k c.

Definition clear (c : inst) : inst :=
  with_top None (with_bottom None (with_cache ∅ c)).
End LruCache.

(** ** Dictionaries whose iteration order matters

    [min] and [sorted] iterate over the dictionary of [LfuCache]; the
    association list keeps the entries in iteration order (the order of
    insertion), each key once. *)

Section dict.
Context {V : Type}.

(** [k in d] and [d[k]] *)
Fixpoint dict_lookup (k : pyval) (d : list (pyval * V)) : option V :=
  match d with
  | [] => None
  | (k', v) :: d' => if decide (k = k') then Some v else dict_lookup k d'
  end.

(** [d[k] = v]: an existing key keeps its place, a new one goes last. *)
Fixpoint dict_set (k : pyval) (v : V) (d : list (pyval * V)) : list (pyval * V) :=
  match d with
  | [] => [(k, v)]
  | (k', v') :: d' =>
      if decide (k = k') then (k', v) :: d' else (k', v') :: dict_set k v d'
  end.

(** [del d[k]], for a key that is there. *)
Definition dict_del (k : pyval) (d : list (pyval * V)) : list (pyval * V) :=
  filter (λ kv, kv.1 ≠ k) d.
End dict.

(** Comparison of the tuples [(freq, t)]. *)
Definition pair_lt (x y : Z * Z) : bool :=
  (x.1 <? y.1) || ((x.1 =? y.1) && (x.2 <? y.2)).
Definition pair_le (x y : Z * Z) : bool := negb (pair_lt y x).

(** [min(d, key=lambda x: d[x])]: the first key, in iteration order, whose
    entry is smallest. The entry of a key met by the iteration is the one
    stored with it. *)
Fixpoint min_loop (best : pyval * (Z * Z)) (d : list (pyval * (Z * Z))) : pyval :=
  match d with
  | [] => best.1
  | x :: d' => min_loop (if pair_lt x.2 best.2 then x else best) d'
  end.

Definition py_min (d : list (pyval * (Z * Z))) : result pyval :=
  match d with
  | [] => Raise ValueError
  | x :: d' => Ok (min_loop x d')
  end.

(** [sorted(d, key=lambda x: d[x], reverse=True)]: a stable sort, largest
    entry first; equal entries keep the order of the iteration. *)
Fixpoint insert_desc (x : pyval * (Z * Z)) (l : list (pyval * (Z * Z)))
    : list (pyval * (Z * Z)) :=
  match l with
  | [] => [x]
  | y :: l' => if pair_le y.2 x.2 then x :: y :: l' else y :: insert_desc x l'
  end.

Definition py_sorted_rev (d : list (pyval * (Z * Z))) : list pyval :=
  (foldr insert_desc [] d).*1.

(** ** LfuCache *)

Module LfuCache.
Record inst := mk {
  _cache : list (pyval * (Z * Z));
  t : Z;
  _maxlen : Z;
}.

Definition init (maxlen : Z) : result inst :=
  let c := mk [] 0 maxlen in
  if _maxlen c <=? 0 then Raise ValueError else Ok c.

Definition len (c : inst) : Z := Z.of_nat (length (_cache c)).
Definition maxlen (c : inst) : Z := _maxlen c.
Definition dump (c : inst) : list pyval := py_sorted_rev (_cache c).
Definition has (k : pyval) (c : inst) : bool :=
  bool_decide (is_Some (dict_lookup k (_cache c))).

Definition get (k : pyval) (c : inst) : result (bool * inst) :=
  if has k c then
    match dict_lookup k (_cache c) with
    | Some (freq, t0) =>
        Ok (true, mk (dict_set k (freq + 1, t0) (_cache c)) (t c) (_maxlen c))
    | None => Raise KeyError
    end
  else Ok (false, c).

Definition put (k : pyval) (c : inst) : result (pyval * inst) :=
  if negb (has k c) then
    let c := mk (_cache c) (t c + 1) (_maxlen c) in
    let c := mk (dict_set k (1, t c) (_cache c)) (t c) (_maxlen c) in
    if _maxlen c <? len c then
      evicted ← py_min (_cache c);
      Ok (evicted, mk (dict_del evicted (_cache c)) (t c) (_maxlen c))
    else Ok (PNone, c)
  else Ok (PNone, c).

Definition clear (c : inst) : inst := mk [] (t c) (_maxlen c).
End LfuCache.

(** [d.pop()] on a deque: the right end, and the rest. *)
Definition deque_pop (l : list pyval) : result (pyval * list pyval) :=
  match last l with
  | Some x => Ok (x, removelast l)
  | None => Raise IndexError
  end.

(** [s.remove(x)] on a set. *)
Definition set_remove (x : pyval) (s : gset pyval) : result (gset pyval) :=
  if bool_decide (x ∈ s) then Ok (s ∖ {[x]}) else Raise KeyError.

(** ** FifoCache

    The deque [d] is a list whose head is its left end. *)

Module FifoCache.
Record inst := mk {
  _cache : gset pyval;
  _maxlen : Z;
  d : list pyval;
}.

Definition init (maxlen : Z) : result inst :=
  let c := mk ∅ maxlen [] in
  if _maxlen c <=? 0 then Raise ValueError else Ok c.

Definition len (c : inst) : Z := Z.of_nat (size (_cache c)).
Definition maxlen (c : inst) : Z := _maxlen c.
Definition dump (c : inst) : list pyval := d c.
Definition has (k : pyval) (c : inst) : bool := bool_decide (k ∈ _cache c).

(** The loop of [position] over the deque, from its left end. *)
Fixpoint position_loop (d : list pyval) (k : pyval) (i : Z) : result Z :=
  match d with
  | [] => Raise ValueError
  | c :: d' => if bool_decide (c = k) then Ok i else position_loop d' k (i + 1)
  end.

Definition position (k : pyval) (c : inst) : result Z := position_loop (d c) k 0.

Definition get (k : pyval) (c : inst) : result (bool * inst) := Ok (has k c, c).

Definition put (k : pyval) (c : inst) : result (pyval * inst) :=
  let evicted := PNone in
  let c := if negb (has k c)
           then mk ({[k]} ∪ _cache c) (_maxlen c) (k :: d c)
           else c in
  if maxlen c <? len c then
    '(evicted, d') ← deque_pop (d c);
    s ← set_remove evicted (_cache c);
    Ok (evicted, mk s (_maxlen c) d')
  else Ok (evicted, c).

Definition clear (c : inst) : inst := mk ∅ (_maxlen c) [].
End FifoCache.

(** ** RandCache

    [a] is the numpy array of objects; [np.empty(n, dtype=object)] is an
    array of [n] times [None], and it raises ValueError for a negative
    [n]. The allocation is taken to succeed for every other [n]: numpy
    raises ValueError or MemoryError for a size beyond what the platform
    can address or hold, which is not modelled. An index may be negative
    and then counts from the end. *)

Definition np_empty (n : Z) : result (list pyval) :=
  if n <? 0 then Raise ValueError else Ok (replicate (Z.to_nat n) PNone).

Definition np_index (a : list pyval) (i : Z) : result nat :=
  let n := Z.of_nat (length a) in
  if (0 <=? i) && (i <? n) then Ok (Z.to_nat i)
  else if (- n <=? i) && (i <? 0) then Ok (Z.to_nat (i + n))
  else Raise IndexError.

Definition np_getitem (a : list pyval) (i : Z) : result pyval :=
  j ← np_index a i;
  match a !! j with
  | Some x => Ok x
  | None => Raise IndexError
  end.

Definition np_setitem (a : list pyval) (i : Z) (x : pyval) : result (list pyval) :=
  j ← np_index a i;
  Ok (<[j := x]> a).

Module RandCache.
Record inst := mk {
  _cache : gset pyval;
  a : list pyval;
  _maxlen : Z;
}.

Definition init (maxlen : Z) : result inst :=
  arr ← np_empty maxlen;
  let c := mk ∅ arr maxlen in
  if _maxlen c <=? 0 then Raise ValueError else Ok c.

Definition len (c : inst) : Z := Z.of_nat (size (_cache c)).
Definition maxlen (c : inst) : Z := _maxlen c.
Definition dump (c : inst) : list pyval := elements (_cache c).
Definition has (k : pyval) (c : inst) : bool := bool_decide (k ∈ _cache c).
Definition get (k : pyval) (c : inst) : result (bool * inst) := Ok (has k c, c).

Definition put `{RandomGen} (k : pyval) (c : inst) (g : gen_state)
    : result (pyval * inst * gen_state) :=
  let evicted := PNone in
  if negb (has k c) then
    '(evicted, c, g) ←
      (if len c =? _maxlen c then
         '(evicted_index, g) ← randint 0 (maxlen c - 1) g;
         evicted ← np_getitem (a c) evicted_index;
         arr ← np_setitem (a c) evicted_index k;
         s ← set_remove evicted (_cache c);
         Ok (evicted, mk s arr (_maxlen c), g)
       else
         arr ← np_setitem (a c) (len c) k;
         Ok (evicted, mk (_cache c) arr (_maxlen c), g));
    Ok (evicted, mk ({[k]} ∪ _cache c) (a c) (_maxlen c), g)
  else Ok (evicted, c, g).

Definition clear (c : inst) : inst := mk ∅ (a c) (_maxlen c).
End RandCache.

(** ** Cache objects

    An instance of one of the five registered classes. The methods of the
    abstract class [Cache] dispatch on the class of the instance; [put]
    threads the generator because [RandCache.put] draws from it. *)

Inductive policy := NULL | LRU | LFU | FIFO | RAND.

Inductive cache :=
  | Null (c : NullCache.inst)
  | Lru (c : LruCache.inst)
  | Lfu (c : LfuCache.inst)
  | Fifo (c : FifoCache.inst)
  | Rand (c : RandCache.inst).

(** The constructor registered under a policy name. *)
Definition new_cache (pol : policy) (maxlen : Z) : result cache :=
  match pol with
  | NULL => c ← NullCache.init maxlen; Ok (Null c)
  | LRU => c ← LruCache.init maxlen; Ok (Lru c)
  | LFU => c ← LfuCache.init maxlen; Ok (Lfu c)
  | FIFO => c ← FifoCache.init maxlen; Ok (Fifo c)
  | RAND => c ← RandCache.init maxlen; Ok (Rand c)
  end.

Definition len (c : cache) : Z :=
  match c with
  | Null c => NullCache.len c
  | Lru c => LruCache.len c
  | Lfu c => LfuCache.len c
  | Fifo c => FifoCache.len c
  | Rand c => RandCache.len c
  end.

Definition maxlen (c : cache) : Z :=
  match c with
  | Null c => NullCache.maxlen c
  | Lru c => LruCache.maxlen c
  | Lfu c => LfuCache.maxlen c
  | Fifo c => FifoCache.maxlen c
  | Rand c => RandCache.maxlen c
  end.

(** [None] only for an [LruCache] whose traversal does not end. *)
Definition dump (c : cache) : option (list pyval) :=
  match c with
  | Null c => Some (NullCache.dump c)
  | Lru c => LruCache.dump c
  | Lfu c => Some (LfuCache.dump c)
  | Fifo c => Some (FifoCache.dump c)
  | Rand c => Some (RandCache.dump c)
  end.

Definition has (k : pyval) (c : cache) : bool :=
  match c with
  | Null c => NullCache.has k c
  | Lru c => LruCache.has k c
  | Lfu c => LfuCache.has k c
  | Fifo c => FifoCache.has k c
  | Rand c => RandCache.has k c
  end.

Definition get (k : pyval) (c : cache) : result (bool * cache) :=
  match c with
  | Null c => '(b, c) ← NullCache.get k c; Ok (b, Null c)
  | Lru c => '(b, c) ← LruCache.get k c; Ok (b, Lru c)
  | Lfu c => '(b, c) ← LfuCache.get k c; Ok (b, Lfu c)
  | Fifo c => '(b, c) ← FifoCache.get k c; Ok (b, Fifo c)
  | Rand c => '(b, c) ← RandCache.get k c; Ok (b, Rand c)
  end.

Definition put `{RandomGen} (k : pyval) (c : cache) (g : gen_state)
    : result (pyval * cache * gen_state) :=
  match c with
  | Null c => '(e, c) ← NullCache.put k c; Ok (e, Null c, g)
  | Lru c => '(e, c) ← LruCache.put k c; Ok (e, Lru c, g)
  | Lfu c => '(e, c) ← LfuCache.put k c; Ok (e, Lfu c, g)
  | Fifo c => '(e, c) ← FifoCache.put k c; Ok (e, Fifo c, g)
  | Rand c => '(e, c, g) ← RandCache.put k c g; Ok (e, Rand c, g)
  end.

Definition clear (c : cache) : cache :=
  match c with
  | Null c => Null (NullCache.clear c)
  | Lru c => Lru (LruCache.clear c)
  | Lfu c => Lfu (LfuCache.clear c)
  | Fifo c => Fifo (FifoCache.clear c)
  | Rand c => Rand (RandCache.clear c)
  end.

(** A sequence of [put] calls, one key after the other, with the values
    they return. *)
Fixpoint put_all `{RandomGen} (ks : list pyval) (c : cache) (g : gen_state)
    : result (list pyval * cache * gen_state) :=
  match ks with
  | [] => Ok ([], c, g)
  | k :: ks' =>
      '(e, c, g) ← put k c g;
      '(es, c, g) ← put_all ks' c g;
      Ok (e :: es, c, g)
  end.

(** The class of an instance, by the name it is registered under. *)
Definition policy_of (c : cache) : policy :=
  match c with
  | Null _ => NULL
  | Lru _ => LRU
  | Lfu _ => LFU
  | Fifo _ => FIFO
  | Rand _ => RAND
  end.

(** What a caller can see of a cache: the methods of the abstract class,
    and what they return. *)
Inductive call :=
  | CallLen
  | CallMaxlen
  | CallHas (k : pyval)
  | CallGet (k : pyval)
  | CallPut (k : pyval)
  | CallDump
  | CallClear.

Inductive answer :=
  | AInt (z : Z)
  | ABool (b : bool)
  | AVal (v : pyval)
  | AList (l : option (list pyval)).

Definition call_method `{RandomGen} (m : call) (c : cache) (g : gen_state)
    : result (answer * cache * gen_state) :=
  match m with
  | CallLen => Ok (AInt (len c), c, g)
  | CallMaxlen => Ok (AInt (maxlen c), c, g)
  | CallHas k => Ok (ABool (has k c), c, g)
  | CallGet k => '(b, c) ← get k c; Ok (ABool b, c, g)
  | CallPut k => '(e, c, g) ← put k c g; Ok (AVal e, c, g)
  | CallDump => Ok (AList (dump c), c, g)
  | CallClear => Ok (AVal PNone, clear c, g)
  end.

(** The answers to a sequence of calls; an exception ends it. *)
Fixpoint trace `{RandomGen} (ms : list call) (c : cache) (g : gen_state)
    : list (result answer) :=
  match ms with
  | [] => []
  | m :: ms' =>
      match call_method m c g with
      | Ok (a, c, g) => Ok a :: trace ms' c g
      | Raise e => [Raise e]
      end
  end.

(** What a caller may pass where a [Cache] is expected: the [isinstance]
    test of the two decorators tells the two apart. *)
Inductive pyobj :=
  | ObjCache (c : cache)
  | ObjOther (v : pyval).

(** Comparison of floats, on the rationals they denote. *)
Definition Qltb (x y : Q) : bool := negb (Qle_bool y x).

(** ** rand_insert_cache

    The decorator returns a deep copy of the cache whose [put] attribute
    is the closure [rand_put]; the closure holds the bound method [put] of
    the copy and the probability [p]. The other methods are those of the
    copy. Seeding and drawing go to the generator of the module [random],
    which is the one [RandCache.put] uses. [copy.deepcopy] is taken to
    return its copy: it recurses along the chain of nodes of an
    [LruCache] and can exceed the recursion limit of the interpreter on a
    long chain, which is not modelled. *)

Module RandInsert.
Record inst := mk {
  cache_ : cache;
  p : Q;
}.
End RandInsert.

Definition rand_insert_cache `{RandomGen} (c : pyobj) (p : Q) (seed : pyval)
    (entropy : gen_state) (g : gen_state) : result (RandInsert.inst * gen_state) :=
  match c with
  | ObjOther _ => Raise TypeError
  | ObjCache c =>
      if Qltb p 0 || Qltb 1 p then Raise ValueError else
      let g := seed_state seed entropy in
      Ok (RandInsert.mk c p, g)
  end.

Definition rand_put `{RandomGen} (k : pyval) (w : RandInsert.inst) (g : gen_state)
    : result (pyval * RandInsert.inst * gen_state) :=
  let '(x, g) := random_random g in
  if Qltb x (RandInsert.p w) then
    '(e, c, g) ← put k (RandInsert.cache_ w) g;
    Ok (e, RandInsert.mk c (RandInsert.p w), g)
  else Ok (PNone, w, g).

Fixpoint rand_put_all `{RandomGen} (ks : list pyval) (w : RandInsert.inst)
    (g : gen_state) : result (list pyval * RandInsert.inst * gen_state) :=
  match ks with
  | [] => Ok ([], w, g)
  | k :: ks' =>
      '(e, w, g) ← rand_put k w g;
      '(es, w, g) ← rand_put_all ks' w g;
      Ok (e :: es, w, g)
  end.

(** The unwrapped cache under the draws a wrapper leaves to it: one draw
    of [random.random] is consumed before each [put]. *)
Fixpoint put_all_after_draw `{RandomGen} (ks : list pyval) (c : cache)
    (g : gen_state) : result (list pyval * cache * gen_state) :=
  match ks with
  | [] => Ok ([], c, g)
  | k :: ks' =>
      '(e, c, g) ← put k c (random_random g).2;
      '(es, c, g) ← put_all_after_draw ks' c g;
      Ok (e :: es, c, g)
  end.

(** ** keyval_cache

    The decorator returns a deep copy of the cache with a new attribute
    [_vals] and with [put], [get], [dump] and [clear] replaced by closures
    over the bound methods of the copy. [copy.deepcopy] is taken to return
    its copy, as for [rand_insert_cache]. *)

Module KeyVal.
Record inst := mk {
  cache_ : cache;
  _vals : gmap pyval pyval;
}.
End KeyVal.

Definition keyval_cache (c : pyobj) : result KeyVal.inst :=
  match c with
  | ObjOther _ => Raise TypeError
  | ObjCache c => Ok (KeyVal.mk c ∅)
  end.

(** [d[k]] on a dictionary. *)
Definition vals_getitem (k : pyval) (m : gmap pyval pyval) : result pyval :=
  match m !! k with
  | Some v => Ok v
  | None => Raise KeyError
  end.

(** [k_get] and [k_put] are the bound methods [cache.get] and [cache.put]
    of the copy, taken before the attributes are replaced. Of all the
    methods of the five classes only [LruCache.put] calls a method that
    the decorator replaces: its [self.get(k)] is [kv_get] from then on,
    which returns the value stored for the key, or [None]. *)
Definition k_get (k : pyval) (c : cache) : result (bool * cache) := get k c.

Definition kv_self_get (vals : gmap pyval pyval) (k : pyval) (c : LruCache.inst)
    : result (bool * LruCache.inst) :=
  '(hit, c) ← LruCache.get k c;
  if hit : bool then
    v ← vals_getitem k vals;
    Ok (truthy v, c)
  else Ok (false, c).

Definition k_put `{RandomGen} (vals : gmap pyval pyval) (k : pyval) (c : cache)
    (g : gen_state) : result (pyval * cache * gen_state) :=
  match c with
  | Lru c => '(e, c) ← LruCache.put_with (kv_self_get vals) k c; Ok (e, Lru c, g)
  | _ => put k c g
  end.

(** The result is the tuple [(evicted, val)], or [None]. *)
Definition kv_put `{RandomGen} (k v : pyval) (w : KeyVal.inst) (g : gen_state)
    : result (option (pyval * pyval) * KeyVal.inst * gen_state) :=
  let vals := <[k := v]> (KeyVal._vals w) in
  '(evicted, c, g) ← k_put vals k (KeyVal.cache_ w) g;
  if truthy evicted then
    val ← vals_getitem evicted vals;
    let vals := delete evicted vals in
    Ok (Some (evicted, val), KeyVal.mk c vals, g)
  else Ok (None, KeyVal.mk c vals, g).

Definition kv_get (k : pyval) (w : KeyVal.inst) : result (pyval * KeyVal.inst) :=
  '(hit, c) ← k_get k (KeyVal.cache_ w);
  let w := KeyVal.mk c (KeyVal._vals w) in
  if hit : bool then
    v ← vals_getitem k (KeyVal._vals w);
    Ok (v, w)
  else Ok (PNone, w).

Definition kv_dump (w : KeyVal.inst) : option (result (list (pyval * pyval))) :=
  match dump (KeyVal.cache_ w) with
  | None => None
  | Some ks =>
      Some (foldr (λ k acc, v ← vals_getitem k (KeyVal._vals w);
                            l ← acc; Ok ((k, v) :: l))
                  (Ok []) ks)
  end.

Definition kv_clear (w : KeyVal.inst) : KeyVal.inst :=
  KeyVal.mk (clear (KeyVal.cache_ w)) ∅.

(** ** Runs and representation invariants *)

(** The states a cache object can be in: those a constructor returns and
    those left by a method that returned. *)
Inductive reachable `{RandomGen} : cache → Prop :=
  | reach_new pol n c :
      new_cache pol n = Ok c → reachable c
  | reach_get k c b c' :
      reachable c → get k c = Ok (b, c') → reachable c'
  | reach_put k c g e c' g' :
      reachable c → put k c g = Ok (e, c', g') → reachable c'
  | reach_clear c :
      reachable c → reachable (clear c).

(** [LfuCache]: each key once, frequencies from 1, sequence numbers all
    different and none above the counter. *)
Definition entry_seq (e : pyval * (Z * Z)) : Z := e.2.2.

Definition lfu_inv (c : LfuCache.inst) : Prop :=
  NoDup (LfuCache._cache c).*1 ∧
  NoDup (entry_seq <$> LfuCache._cache c) ∧
  (∀ k f s, (k, (f, s)) ∈ LfuCache._cache c → 1 ≤ f ∧ s ≤ LfuCache.t c) ∧
  0 < LfuCache._maxlen c ∧
  LfuCache.len c ≤ LfuCache._maxlen c.

(** [FifoCache]: the deque holds the members of the set, each once. *)
Definition fifo_inv (c : FifoCache.inst) : Prop :=
  NoDup (FifoCache.d c) ∧
  (∀ k, k ∈ FifoCache._cache c ↔ k ∈ FifoCache.d c) ∧
  0 < FifoCache._maxlen c ∧
  FifoCache.len c ≤ FifoCache._maxlen c.

(** [RandCache]: the array has [_maxlen] slots, and the first [len] of
    them hold the members of the set, each once. *)
Definition rand_inv (c : RandCache.inst) : Prop :=
  let n := size (RandCache._cache c) in
  Z.of_nat (length (RandCache.a c)) = RandCache._maxlen c ∧
  0 < RandCache._maxlen c ∧
  (n ≤ length (RandCache.a c))%nat ∧
  NoDup (take n (RandCache.a c)) ∧
  (∀ k, k ∈ RandCache._cache c ↔ k ∈ take n (RandCache.a c)).

(** [LruCache]: the nodes of [l], top first, are linked to one another in
    that order: [seg s prev l next] says that the first node of [l] has
    [prev] above it, each node has the following one below it, and the
    last one has [next] below it. *)
Definition head_ref (l : list (ref * pyval)) (next : option ref) : option ref :=
  match l with
  | [] => next
  | (a, _) :: _ => Some a
  end.

Definition last_ref (l : list (ref * pyval)) (prev : option ref) : option ref :=
  match last l with
  | None => prev
  | Some (a, _) => Some a
  end.

Fixpoint seg (s : gmap ref Node.inst) (prev : option ref)
    (l : list (ref * pyval)) (next : option ref) : Prop :=
  match l with
  | [] => True
  | (a, k) :: l' =>
      (∃ n, s !! a = Some n ∧ Node.val n = k ∧ Node.up n = prev ∧
            Node.down n = head_ref l' next) ∧
      seg s (Some a) l' next
  end.

Definition lru_rep (c : LruCache.inst) (l : list (ref * pyval)) : Prop :=
  seg (LruCache.store c) None l None ∧
  LruCache.top c = head_ref l None ∧
  LruCache.bottom c = last_ref l None ∧
  NoDup l.*1 ∧
  NoDup l.*2 ∧
  (∀ k a, LruCache._cache c !! k = Some a ↔ (a, k) ∈ l) ∧
  (∀ a, is_Some (LruCache.store c !! a) → (a < LruCache.next_ref c)%nat).

Definition lru_inv (c : LruCache.inst) : Prop :=
  ∃ l, lru_rep c l ∧
       0 < LruCache._maxlen c ∧
       LruCache.len c ≤ LruCache._maxlen c.

(** Two caches that no sequence of calls tells apart are related as
    follows: two [LruCache] hold the same keys in the same order; two
    [LfuCache] hold the same entries, up to a shift of the sequence
    numbers; two [RandCache] hold the same keys in the same slots; and the
    capacities are the same. *)
Definition shift_seq (d : Z) (e : pyval * (Z * Z)) : pyval * (Z * Z) :=
  (e.1, (e.2.1, e.2.2 + d)).

(** What [LruCache.get] and [LruCache.put] do to the keys of the list,
    top first, and what [put] returns. *)
Definition lru_keys_get (k : pyval) (ks : list pyval) : list pyval :=
  if bool_decide (k ∈ ks) then k :: filter (λ x, x ≠ k) ks else ks.

Definition lru_keys_put (maxlen : Z) (k : pyval) (ks : list pyval)
    : pyval * list pyval :=
  if bool_decide (k ∈ ks) then (PNone, lru_keys_get k ks)
  else if Z.of_nat (length ks) + 1 <=? maxlen then (PNone, k :: ks)
  else (default PNone (last ks), k :: removelast ks).

Definition lru_sim (c1 c2 : LruCache.inst) : Prop :=
  ∃ l1 l2, lru_rep c1 l1 ∧ lru_rep c2 l2 ∧ l1.*2 = l2.*2 ∧
           LruCache._maxlen c1 = LruCache._maxlen c2 ∧
           0 < LruCache._maxlen c1 ∧ LruCache.len c1 ≤ LruCache._maxlen c1.

Definition lfu_sim (c1 c2 : LfuCache.inst) : Prop :=
  ∃ d, LfuCache._cache c2 = shift_seq d <$> LfuCache._cache c1 ∧
       LfuCache.t c2 = LfuCache.t c1 + d ∧
       LfuCache._maxlen c1 = LfuCache._maxlen c2.

Definition rand_sim (c1 c2 : RandCache.inst) : Prop :=
  rand_inv c1 ∧
  RandCache._cache c1 = RandCache._cache c2 ∧
  RandCache._maxlen c1 = RandCache._maxlen c2 ∧
  length (RandCache.a c1) = length (RandCache.a c2) ∧
  take (size (RandCache._cache c1)) (RandCache.a c1) =
  take (size (RandCache._cache c1)) (RandCache.a c2).

Definition cache_sim (c1 c2 : cache) : Prop :=
  match c1, c2 with
  | Null _, Null _ => True
  | Lru c1, Lru c2 => lru_sim c1 c2
  | Lfu c1, Lfu c2 => lfu_sim c1 c2
  | Fifo c1, Fifo c2 => c1 = c2
  | Rand c1, Rand c2 => rand_sim c1 c2
  | _, _ => False
  end.

Definition cache_inv (c : cache) : Prop :=
  match c with
  | Null _ => True
  | Lru c => lru_inv c
  | Lfu c => lfu_inv c
  | Fifo c => fifo_inv c
  | Rand c => rand_inv c
  end.

(** A list of entries in which no entry is below a later one. *)
Fixpoint desc_sorted (l : list (pyval * (Z * Z))) : Prop :=
  match l with
  | [] => True
  | x :: l' => Forall (λ y, pair_lt x.2 y.2 = false) l' ∧ desc_sorted l'
  end.

(** [keyval_cache]: the value map and the cache are in step when the keys
    of the map are the resident keys. *)
Definition kv_sync (w : KeyVal.inst) : Prop :=
  ∀ k, is_Some (KeyVal._vals w !! k) ↔ has k (KeyVal.cache_ w) = true.

(** No resident key is falsy. *)
Definition keys_truthy (c : cache) : Prop :=
  ∀ k, has k c = true → truthy k = true.

(** What a [NullCache] answers to a call. *)
Definition null_answer (m : call) : answer :=
  match m with
  | CallLen => AInt 0
  | CallMaxlen => AInt 0
  | CallHas _ => ABool false
  | CallGet _ => ABool false
  | CallPut _ => AVal PNone
  | CallDump => AList (Some [])
  | CallClear => AVal PNone
  end.

(** ** Properties *)

#[local] Ltac bool_lia :=
  repeat match goal with
         | H : _ = true |- _ => revert H
         | H : _ = false |- _ => revert H
         end;
  unfold pair_le, pair_lt; simpl;
  rewrite ?negb_true_iff, ?negb_false_iff, ?orb_true_iff, ?orb_false_iff,
    ?andb_true_iff, ?andb_false_iff, ?Z.ltb_lt, ?Z.ltb_ge, ?Z.leb_le,
    ?Z.leb_gt, ?Z.eqb_eq, ?Z.eqb_neq;
  intros; lia.

(** *** Dictionaries in iteration order *)

Section dict_lemmas.
Context {V : Type}.
Implicit Types (d : list (pyval * V)) (k : pyval) (v : V).

Lemma dict_lookup_None k d : dict_lookup k d = None ↔ k ∉ d.*1.
Proof.
  induction d as [|[k' v'] d IH]; simpl.
  - split; [intros _; apply not_elem_of_nil | done].
  - rewrite not_elem_of_cons, <-IH. case_decide; [|tauto].
    split; [done|tauto].
Qed.

Lemma dict_lookup_Some_elem k v d : dict_lookup k d = Some v → (k, v) ∈ d.
Proof.
  induction d as [|[k' v'] d IH]; simpl; [done|].
  case_decide; [intros [= ->]; subst; left | right; auto].
Qed.

Lemma dict_lookup_elem k v d : NoDup d.*1 → (k, v) ∈ d → dict_lookup k d = Some v.
Proof.
  induction d as [|[k' v'] d IH]; simpl; [intros _ ?%elem_of_nil; done|].
  intros [Hk Hd]%NoDup_cons [[= -> ->]|Hin]%elem_of_cons.
  - by rewrite decide_True.
  - rewrite decide_False; [auto|].
    intros ->. apply Hk. by apply (list_elem_of_fmap_2 fst _ (k', v)).
Qed.

Lemma dict_set_absent k v d : dict_lookup k d = None → dict_set k v d = d ++ [(k, v)].
Proof.
  induction d as [|[k' v'] d IH]; simpl; [done|].
  case_decide; [done|]. intros ?. by rewrite IH.
Qed.

Lemma dict_set_keys k v d : is_Some (dict_lookup k d) → (dict_set k v d).*1 = d.*1.
Proof.
  induction d as [|[k' v'] d IH]; simpl; [by intros [? ?]|].
  case_decide; [done|]. intros ?. cbn. f_equal. by apply IH.
Qed.

Lemma dict_set_length k v d : is_Some (dict_lookup k d) → length (dict_set k v d) = length d.
Proof. intros Hk. by rewrite <-(length_fmap fst), dict_set_keys, length_fmap. Qed.

(** Deleting the key that was just appended gives the dictionary back. *)
Lemma dict_del_absent k d : k ∉ d.*1 → dict_del k d = d.
Proof.
  unfold dict_del. induction d as [|[k' v'] d IH]; simpl; [done|].
  rewrite not_elem_of_cons. intros [Hne Hd].
  rewrite filter_cons_True by (simpl; congruence). by rewrite IH.
Qed.

Lemma dict_del_snoc k v d : k ∉ d.*1 → dict_del k (d ++ [(k, v)]) = d.
Proof.
  intros Hk. unfold dict_del. rewrite filter_app.
  fold (dict_del k d). rewrite dict_del_absent by done.
  rewrite filter_cons_False by (simpl; tauto).
  by rewrite filter_nil, app_nil_r.
Qed.

Lemma dict_del_lookup k d : dict_lookup k (dict_del k d) = None.
Proof.
  apply dict_lookup_None. intros (kv & -> & Hin)%list_elem_of_fmap.
  apply list_elem_of_filter in Hin as [Hne _]. done.
Qed.

Lemma dict_del_keys k d : (dict_del k d).*1 = filter (λ k', k' ≠ k) d.*1.
Proof.
  unfold dict_del. induction d as [|[k' v'] d IH]; csimpl; [done|].
  destruct (decide (k' = k)) as [->|Hne].
  - rewrite !filter_cons_False by (simpl; tauto). done.
  - rewrite !filter_cons_True by done. csimpl. by rewrite IH.
Qed.

(** One entry less, when the key is there once. *)
Lemma dict_del_length k d :
  NoDup d.*1 → k ∈ d.*1 → S (length (dict_del k d)) = length d.
Proof.
  unfold dict_del. induction d as [|[k' v'] d IH]; simpl.
  - intros _ ?%elem_of_nil. done.
  - intros [Hk Hd]%NoDup_cons Hin.
    destruct (decide (k' = k)) as [->|Hne].
    + rewrite filter_cons_False by (simpl; tauto).
      fold (dict_del k d). by rewrite dict_del_absent.
    + rewrite filter_cons_True by done. simpl. f_equal. apply IH; [done|].
      apply elem_of_cons in Hin as [?|?]; [congruence|done].
Qed.
End dict_lemmas.

(** *** The order on the tuples [(freq, t)] and [min] *)

Lemma pair_lt_irrefl x : pair_lt x x = false.
Proof. destruct (pair_lt x x) eqn:E; [bool_lia|done]. Qed.

Lemma pair_lt_trans x y z : pair_lt x y = true → pair_lt y z = true → pair_lt x z = true.
Proof. intros. destruct (pair_lt x z) eqn:E; [done|bool_lia]. Qed.

Lemma pair_le_lt_trans x y z : pair_lt y x = false → pair_lt y z = true → pair_lt x z = true.
Proof. intros. destruct (pair_lt x z) eqn:E; [done|bool_lia]. Qed.

Lemma pair_lt_total x y : pair_lt x y = false → pair_lt y x = false → x = y.
Proof.
  destruct x as [x1 x2], y as [y1 y2]. intros.
  assert (x1 = y1 ∧ x2 = y2) as [-> ->] by bool_lia. done.
Qed.

(** [min] returns a key of the dictionary whose entry is below or equal to
    every entry. *)
Lemma min_loop_spec best d :
  ∃ p, (min_loop best d, p) ∈ best :: d ∧
       ∀ x, x ∈ best :: d → pair_lt x.2 p = false.
Proof.
  revert best. induction d as [|y d IH]; intros best; simpl.
  - exists best.2. split; [destruct best; left|].
    intros x ->%list_elem_of_singleton. apply pair_lt_irrefl.
  - destruct (IH (if pair_lt y.2 best.2 then y else best)) as (p & Hin & Hmin).
    exists p. split.
    + apply elem_of_cons in Hin as [Heq|Hin]; [|by do 2 right].
      rewrite Heq. destruct (pair_lt y.2 best.2); [right; left|left].
    + intros x Hx.
      assert (pair_lt (if pair_lt y.2 best.2 then y else best).2 p = false) as Hb
        by (apply Hmin; left).
      apply elem_of_cons in Hx as [->|Hx]; [|apply elem_of_cons in Hx as [->|Hx]].
      * destruct (pair_lt y.2 best.2) eqn:E; [|done].
        destruct (pair_lt best.2 p) eqn:E'; [|done]. bool_lia.
      * destruct (pair_lt y.2 best.2) eqn:E; [done|].
        destruct (pair_lt y.2 p) eqn:E'; [|done]. bool_lia.
      * apply Hmin. by right.
Qed.

(** *** LfuCache *)

Section lfu.
Import LfuCache.
Implicit Types (c : LfuCache.inst) (k : pyval).

Lemma lfu_has_true k c : has k c = true ↔ k ∈ (_cache c).*1.
Proof.
  unfold has. rewrite bool_decide_eq_true.
  destruct (dict_lookup k (_cache c)) eqn:E.
  - split; [intros _|by eauto].
    apply dict_lookup_Some_elem in E. exact (list_elem_of_fmap_2 fst _ _ E).
  - apply dict_lookup_None in E. split; [by intros [? ?]|done].
Qed.

Lemma lfu_has_false k c : has k c = false ↔ k ∉ (_cache c).*1.
Proof. rewrite <-lfu_has_true. by destruct (has k c). Qed.

(** What [put] does with a key that is absent, spelled out. *)
Lemma lfu_put_absent k c :
  has k c = false →
  put k c =
    let entries := _cache c ++ [(k, (1, t c + 1))] in
    if _maxlen c <? Z.of_nat (length entries) then
      evicted ← py_min entries;
      Ok (evicted, mk (dict_del evicted entries) (t c + 1) (_maxlen c))
    else Ok (PNone, mk entries (t c + 1) (_maxlen c)).
Proof.
  intros Hk. unfold put. rewrite Hk. cbn [negb _cache t _maxlen].
  apply lfu_has_false, dict_lookup_None in Hk.
  by rewrite dict_set_absent.
Qed.

Lemma lfu_put_present k c : has k c = true → put k c = Ok (PNone, c).
Proof. intros Hk. unfold put. by rewrite Hk. Qed.

Lemma lfu_init_inv n c : init n = Ok c → lfu_inv c.
Proof.
  unfold init. cbn. destruct (n <=? 0) eqn:E; [done|]. intros [= <-].
  unfold lfu_inv, len; cbn.
  split_and!; try apply NoDup_nil_2; try bool_lia.
  by intros ??? ?%elem_of_nil.
Qed.

Lemma lfu_clear_inv c : lfu_inv c → lfu_inv (clear c).
Proof.
  intros (_ & _ & _ & Hpos & _).
  unfold lfu_inv, len; cbn.
  split_and!; try apply NoDup_nil_2; try lia.
  by intros ??? ?%elem_of_nil.
Qed.

Lemma dict_set_seq k f s (d : list (pyval * (Z * Z))) :
  dict_lookup k d = Some (f, s) →
  entry_seq <$> dict_set k (f + 1, s) d = entry_seq <$> d.
Proof.
  induction d as [|[k' [f' s']] d IH]; csimpl; [done|].
  case_decide; csimpl; [by intros [= -> ->]|].
  intros ?. f_equal. auto.
Qed.

Lemma dict_set_elem k f s (d : list (pyval * (Z * Z))) k' f' s' :
  dict_lookup k d = Some (f, s) →
  (k', (f', s')) ∈ dict_set k (f + 1, s) d →
  ∃ f0, (k', (f0, s')) ∈ d ∧ f0 ≤ f'.
Proof.
  induction d as [|[k0 [f0 s0]] d IH]; csimpl; [done|].
  case_decide; subst.
  - intros [= -> ->] [Heq|Hin]%elem_of_cons.
    + simplify_eq. eexists. split; [left|lia].
    + eexists. split; [by right|lia].
  - intros Hl [Heq|Hin]%elem_of_cons.
    + simplify_eq. eexists. split; [left|lia].
    + destruct (IH Hl Hin) as (f1 & ? & ?). exists f1. split; [by right|done].
Qed.

Lemma lfu_get_inv k c b c' : lfu_inv c → get k c = Ok (b, c') → lfu_inv c'.
Proof.
  intros (Hk & Hs & Hb & Hpos & Hlen). unfold get.
  destruct (has k c) eqn:Hhas; [|by intros [= <- <-]].
  destruct (dict_lookup k (_cache c)) as [[f s]|] eqn:E; [|done].
  intros [= <- <-]. unfold lfu_inv, len in *. cbn.
  rewrite dict_set_keys, dict_set_seq, dict_set_length by eauto.
  split_and!; try done.
  intros k' f' s' Hin'.
  destruct (dict_set_elem _ _ _ _ _ _ _ E Hin') as (f1 & Hin & ?).
  destruct (Hb _ _ _ Hin); lia.
Qed.

Lemma lfu_put_inv k c e c' : lfu_inv c → put k c = Ok (e, c') → lfu_inv c'.
Proof.
  intros (Hk & Hs & Hb & Hpos & Hlen).
  destruct (has k c) eqn:Hhas.
  { rewrite lfu_put_present by done. by intros [= <- <-]. }
  rewrite lfu_put_absent by done. cbn zeta.
  apply lfu_has_false in Hhas.
  set (entries := _cache c ++ [(k, (1, t c + 1))]).
  assert (NoDup entries.*1) as Hk'.
  { unfold entries. rewrite fmap_app. apply NoDup_app. repeat split; try done.
    - intros x Hx ->%list_elem_of_singleton. done.
    - apply NoDup_singleton. }
  assert (NoDup (entry_seq <$> entries)) as Hs'.
  { unfold entries. rewrite fmap_app. apply NoDup_app. repeat split; try done.
    - intros x ([k0 [f0 s0]] & -> & Hin)%list_elem_of_fmap Heq%list_elem_of_singleton.
      cbn in Heq. apply Hb in Hin. lia.
    - apply NoDup_singleton. }
  assert (∀ k0 f s, (k0, (f, s)) ∈ entries → 1 ≤ f ∧ s ≤ t c + 1) as Hb'.
  { intros k0 f s [Hin|[= -> -> ->]%list_elem_of_singleton]%elem_of_app; [|lia].
    apply Hb in Hin. lia. }
  assert (length entries = S (length (_cache c))) as Hlen'.
  { unfold entries. rewrite length_app. cbn. lia. }
  destruct (_maxlen c <? Z.of_nat (length entries)) eqn:Hfull.
  - destruct (py_min entries) as [ev|] eqn:Hmin; [|done].
    cbn. intros [= <- <-]. unfold lfu_inv, len in *. cbn.
    assert (ev ∈ entries.*1) as Hev.
    { unfold py_min in Hmin. destruct entries as [|x d] eqn:Hent; [done|].
      injection Hmin as <-.
      destruct (min_loop_spec x d) as (p & Hin & _).
      by apply (list_elem_of_fmap_2 fst _ (_, p)). }
    pose proof (dict_del_length ev entries Hk' Hev).
    split_and!.
    + rewrite dict_del_keys. by apply NoDup_filter.
    + eapply sublist_NoDup; [exact Hs'|]. apply fmap_sublist, sublist_filter.
    + intros k0 f s [_ Hin]%list_elem_of_filter. by apply Hb' in Hin.
    + done.
    + bool_lia.
  - intros [= <- <-]. unfold lfu_inv, len in *. cbn. fold entries.
    split_and!; try done; bool_lia.
Qed.

(** [put] returns. *)
Lemma lfu_put_ok k c : ∃ e c', put k c = Ok (e, c').
Proof.
  destruct (has k c) eqn:Hhas.
  { rewrite lfu_put_present by done. eauto. }
  rewrite lfu_put_absent by done. cbn zeta.
  destruct (_ <? _); [|eauto].
  destruct (_cache c); cbn; eauto.
Qed.
End lfu.

(** *** FifoCache *)

Section fifo.
Import FifoCache.
Implicit Types (c : FifoCache.inst) (k : pyval).

Lemma fifo_init_inv n c : init n = Ok c → fifo_inv c.
Proof.
  unfold init. cbn. destruct (n <=? 0) eqn:E; [done|]. intros [= <-].
  unfold fifo_inv, len. cbn. split_and!; [apply NoDup_nil_2| |bool_lia|].
  - intros k. by rewrite elem_of_empty, elem_of_nil.
  - rewrite size_empty. bool_lia.
Qed.

Lemma fifo_clear_inv c : fifo_inv c → fifo_inv (clear c).
Proof.
  intros (_ & _ & Hpos & _). unfold fifo_inv, len. cbn.
  split_and!; [apply NoDup_nil_2| |done|].
  - intros k. by rewrite elem_of_empty, elem_of_nil.
  - rewrite size_empty. lia.
Qed.

(** [put] on a state that satisfies the invariant, spelled out: a new
    key goes to the left end, and when the cache was full the right end
    leaves. *)
Lemma fifo_put_spec k c :
  fifo_inv c →
  put k c =
    if has k c then Ok (PNone, c)
    else if len c <? maxlen c
    then Ok (PNone, mk ({[k]} ∪ _cache c) (_maxlen c) (k :: d c))
    else match last (d c) with
         | Some x => Ok (x, mk (({[k]} ∪ _cache c) ∖ {[x]}) (_maxlen c)
                               (k :: removelast (d c)))
         | None => Raise IndexError
         end.
Proof.
  intros (Hnd & Hmem & Hpos & Hlen). unfold put, len, maxlen in *.
  destruct (has k c) eqn:Hhas; cbn [negb].
  { destruct (_ <? _) eqn:E; [bool_lia|done]. }
  unfold has in Hhas. apply bool_decide_eq_false in Hhas. cbn.
  rewrite size_union, size_singleton by set_solver.
  destruct (_maxlen c <? Z.of_nat (1 + size (_cache c))) eqn:E1;
    destruct (Z.of_nat (size (_cache c)) <? _maxlen c) eqn:E2;
    try bool_lia; [|done].
  destruct (size_pos_elem_of (_cache c)) as [y Hy]; [bool_lia|].
  apply Hmem in Hy.
  destruct (d c) as [|z l] eqn:Hd; [by apply elem_of_nil in Hy|].
  unfold deque_pop. rewrite last_cons.
  destruct (last (z :: l)) as [x|] eqn:Hl; [|by apply last_None in Hl].
  cbn [mbind result_bind]. unfold set_remove.
  rewrite bool_decide_eq_true_2; [done|].
  apply last_Some_elem_of in Hl. apply Hmem in Hl. set_solver.
Qed.

Lemma fifo_put_ok k c : fifo_inv c → ∃ e c', put k c = Ok (e, c') ∧ fifo_inv c'.
Proof.
  intros Hinv. rewrite fifo_put_spec by done.
  destruct Hinv as (Hnd & Hmem & Hpos & Hlen). unfold len, maxlen in *.
  destruct (has k c) eqn:Hhas; [by eexists _, _|].
  unfold has in Hhas. apply bool_decide_eq_false in Hhas.
  assert (size ({[k]} ∪ _cache c) = S (size (_cache c))) as Hsz.
  { rewrite size_union, size_singleton by set_solver. done. }
  destruct (_ <? _) eqn:E.
  { eexists _, _. split; [done|]. unfold fifo_inv, len. cbn.
    split_and!; [|set_solver|done|rewrite Hsz; bool_lia].
    apply NoDup_cons. split; [by rewrite <-Hmem|done]. }
  destruct (size_pos_elem_of (_cache c)) as [y Hy]; [bool_lia|].
  apply Hmem in Hy.
  destruct (last (d c)) as [x|] eqn:Hl.
  2:{ apply last_None in Hl. rewrite Hl in Hy. by apply elem_of_nil in Hy. }
  eexists _, _. split; [done|]. unfold fifo_inv, len. cbn.
  apply last_Some in Hl as [l' Hl]. rewrite Hl in *.
  rewrite removelast_last.
  apply NoDup_app in Hnd as (Hnd' & Hx & _).
  assert ((k ∉ l') ∧ (k ≠ x)) as [Hkl Hkx].
  { rewrite Hmem, elem_of_app, list_elem_of_singleton in Hhas. tauto. }
  assert (x ∉ l') as Hxl.
  { intros Hin. apply (Hx _ Hin). by apply list_elem_of_singleton. }
  split_and!; [|..|done|].
  - apply NoDup_cons. done.
  - intros k0. specialize (Hmem k0).
    rewrite elem_of_app, list_elem_of_singleton in Hmem.
    rewrite elem_of_cons, elem_of_difference, elem_of_union, !elem_of_singleton.
    destruct (decide (k0 = x)) as [->|]; naive_solver.
  - rewrite size_difference, size_singleton, Hsz.
    + lia.
    + apply singleton_subseteq_l. apply elem_of_union. right.
      apply Hmem, elem_of_app. right. by apply list_elem_of_singleton.
Qed.

Lemma fifo_put_inv k c e c' : fifo_inv c → put k c = Ok (e, c') → fifo_inv c'.
Proof.
  intros Hinv Hput. destruct (fifo_put_ok k c Hinv) as (e0 & c0 & Heq & ?).
  congruence.
Qed.
End fifo.

(** *** RandCache *)

Lemma np_index_lt a i j : np_index a i = Ok j → (j < length a)%nat.
Proof.
  unfold np_index.
  destruct ((0 <=? i) && (i <? Z.of_nat (length a))) eqn:E1.
  { intros [= <-]. bool_lia. }
  destruct ((- Z.of_nat (length a) <=? i) && (i <? 0)) eqn:E2; [|done].
  intros [= <-]. bool_lia.
Qed.

Lemma np_index_in_range a i :
  0 ≤ i < Z.of_nat (length a) → np_index a i = Ok (Z.to_nat i).
Proof.
  intros Hi. unfold np_index.
  destruct ((0 <=? i) && (i <? Z.of_nat (length a))) eqn:E1; [done|bool_lia].
Qed.

(** Overwriting one slot of an array without repetitions. *)
Lemma insert_NoDup_mem (l : list pyval) j x k :
  l !! j = Some x → NoDup l → k ∉ l →
  NoDup (<[j := k]> l) ∧ ∀ y, y ∈ <[j := k]> l ↔ y = k ∨ (y ∈ l ∧ y ≠ x).
Proof.
  intros Hj Hnd Hk.
  assert (j < length l)%nat as Hlt by (by eapply lookup_lt_Some).
  pose proof (take_drop_middle l j x Hj) as Hl.
  rewrite insert_take_drop by done. clear Hj Hlt.
  revert Hl. generalize (take j l) (drop (S j) l). intros l1 l2 <-.
  apply NoDup_app in Hnd as (H1 & H12 & [Hx H2]%NoDup_cons).
  rewrite elem_of_app, elem_of_cons in Hk.
  split.
  - apply NoDup_app. split_and!; [done| |apply NoDup_cons; split; [tauto|done]].
    intros y Hy [->|Hy2]%elem_of_cons; [tauto|].
    apply (H12 _ Hy). by right.
  - intros y. rewrite !elem_of_app, !elem_of_cons.
    assert (y ∈ l1 → y ≠ x) by (intros Hy ->; apply (H12 _ Hy); left).
    assert (y ∈ l2 → y ≠ x) by (intros Hy ->; done).
    destruct (decide (y = x)) as [->|]; naive_solver.
Qed.

Section rand.
Import RandCache.
Context `{RandomGen}.
Implicit Types (c : RandCache.inst) (k : pyval) (g : gen_state).

Lemma rand_init_inv n c : init n = Ok c → rand_inv c.
Proof.
  unfold init, np_empty. destruct (n <? 0) eqn:E0; [done|]. cbn.
  destruct (n <=? 0) eqn:E; [done|]. intros [= <-].
  unfold rand_inv. cbn. rewrite size_empty, length_replicate. cbn.
  split_and!; [bool_lia|bool_lia|lia|apply NoDup_nil_2|].
  intros k. by rewrite elem_of_empty, elem_of_nil.
Qed.

Lemma rand_clear_inv c : rand_inv c → rand_inv (clear c).
Proof.
  intros (Hlen & Hpos & _). unfold rand_inv. cbn. rewrite size_empty. cbn.
  split_and!; [done|done|lia|apply NoDup_nil_2|].
  intros k. by rewrite elem_of_empty, elem_of_nil.
Qed.

(** A full cache: the key in the drawn slot leaves. *)
Lemma rand_evict_inv c k j x :
  rand_inv c → k ∉ _cache c → len c = _maxlen c → a c !! j = Some x →
  x ∈ _cache c ∧
  rand_inv (mk ({[k]} ∪ _cache c ∖ {[x]}) (<[j := k]> (a c)) (_maxlen c)).
Proof.
  intros (Hlen & Hpos & Hn & Hnd & Hmem) Hk Hfull Hj. unfold len in *.
  rewrite take_ge in Hnd by lia.
  assert (∀ y, y ∈ _cache c ↔ y ∈ a c) as Hmem'.
  { intros y. rewrite Hmem, take_ge by lia. done. }
  assert (x ∈ _cache c) as Hx by (apply Hmem'; by eapply list_elem_of_lookup_2).
  split; [done|].
  assert (k ∉ a c) as Hka by (by rewrite <-Hmem').
  destruct (insert_NoDup_mem _ _ _ _ Hj Hnd Hka) as [Hnd' Hmem''].
  assert (size ({[k]} ∪ _cache c ∖ {[x]}) = size (_cache c)) as Hsz.
  { rewrite size_union, size_singleton, size_difference, size_singleton
      by set_solver.
    assert (0 < size (_cache c))%nat; [|lia].
    destruct (size (_cache c)) eqn:E; [|lia].
    apply size_empty_inv in E. set_solver. }
  unfold rand_inv. cbn. rewrite Hsz, length_insert.
  rewrite take_ge by (rewrite length_insert; lia).
  split_and!; try done.
  intros y. rewrite Hmem''. rewrite <-Hmem'. set_solver.
Qed.

(** A cache that is not full: the key goes to the first free slot. *)
Lemma rand_fill_inv c k :
  rand_inv c → k ∉ _cache c → len c ≠ _maxlen c →
  (size (_cache c) < length (a c))%nat ∧
  rand_inv (mk ({[k]} ∪ _cache c) (<[size (_cache c) := k]> (a c)) (_maxlen c)).
Proof.
  intros (Hlen & Hpos & Hn & Hnd & Hmem) Hk Hfull. unfold len in *.
  assert (size (_cache c) < length (a c))%nat as Hlt by lia.
  split; [done|].
  unfold rand_inv. cbn.
  rewrite size_union, size_singleton, length_insert by set_solver.
  change (1 + size (_cache c))%nat with (S (size (_cache c))).
  rewrite (take_S_r _ _ k) by (by apply list_lookup_insert_eq).
  rewrite take_insert_ge by lia.
  split_and!; try done; try lia.
  - apply NoDup_app. split_and!; [done| |apply NoDup_singleton].
    intros y Hy ->%list_elem_of_singleton. by apply Hk, Hmem.
  - intros y. rewrite elem_of_app, list_elem_of_singleton, <-Hmem. set_solver.
Qed.

Lemma rand_put_inv k c g e c' g' :
  rand_inv c → put k c g = Ok (e, c', g') → rand_inv c'.
Proof.
  intros Hinv. unfold put.
  destruct (has k c) eqn:Hhas; cbn [negb]; [by intros [= <- <- <-]|].
  unfold has in Hhas. apply bool_decide_eq_false in Hhas.
  destruct (len c =? _maxlen c) eqn:Hfull.
  - apply Z.eqb_eq in Hfull.
    destruct (randint 0 (maxlen c - 1) g) as [[i g1]|]; [|done]. cbn.
    unfold np_getitem, np_setitem.
    destruct (np_index (a c) i) as [j|] eqn:Hj; [|done]. cbn.
    destruct (a c !! j) as [x|] eqn:Hx; [|done]. cbn.
    destruct (rand_evict_inv c k j x Hinv Hhas Hfull Hx) as [Hxin Hinv'].
    unfold set_remove. rewrite bool_decide_eq_true_2 by done. cbn.
    by intros [= <- <- <-].
  - apply Z.eqb_neq in Hfull.
    destruct (rand_fill_inv c k Hinv Hhas Hfull) as [Hlt Hinv'].
    unfold np_setitem. rewrite np_index_in_range by (unfold len; lia). cbn.
    unfold len. rewrite Nat2Z.id. by intros [= <- <- <-].
Qed.

(** With a generator that keeps its promises, [put] returns. *)
Lemma rand_put_ok `{!RandomGenLaws H} k c g :
  rand_inv c → ∃ e c' g', put k c g = Ok (e, c', g').
Proof.
  intros Hinv. unfold put.
  destruct (has k c) eqn:Hhas; cbn [negb]; [by eexists _, _, _|].
  unfold has in Hhas. apply bool_decide_eq_false in Hhas.
  destruct (len c =? _maxlen c) eqn:Hfull.
  - apply Z.eqb_eq in Hfull.
    pose proof Hinv as (Hlen & Hpos & _).
    unfold randint, maxlen.
    destruct (_maxlen c - 1 <? 0) eqn:E; [bool_lia|].
    pose proof (randint_range 0 (_maxlen c - 1) g ltac:(lia)) as Hr.
    destruct (random_randint 0 (_maxlen c - 1) g) as [i g1]. cbn in Hr |- *.
    unfold np_getitem, np_setitem.
    rewrite np_index_in_range by lia. cbn.
    destruct (lookup_lt_is_Some_2 (a c) (Z.to_nat i)) as [x Hx]; [lia|].
    rewrite Hx. cbn.
    destruct (rand_evict_inv c k _ x Hinv Hhas Hfull Hx) as [Hxin Hinv'].
    unfold set_remove. rewrite bool_decide_eq_true_2 by done. cbn.
    by eexists _, _, _.
  - apply Z.eqb_neq in Hfull.
    destruct (rand_fill_inv c k Hinv Hhas Hfull) as [Hlt Hinv'].
    unfold np_setitem. rewrite np_index_in_range by (unfold len; lia). cbn.
    by eexists _, _, _.
Qed.
End rand.

(** *** LruCache: the linked list *)

Section seg_lemmas.
Implicit Types (s : gmap ref Node.inst) (l : list (ref * pyval))
  (p n : option ref) (a : ref) (k : pyval).

Lemma head_ref_app l1 l2 n : head_ref (l1 ++ l2) n = head_ref l1 (head_ref l2 n).
Proof. by destruct l1 as [|[??]?]. Qed.

Lemma last_ref_cons a k l p : last_ref ((a, k) :: l) p = last_ref l (Some a).
Proof.
  unfold last_ref. rewrite last_cons. by destruct (last l) as [[??]|].
Qed.

Lemma last_ref_snoc l a k p : last_ref (l ++ [(a, k)]) p = Some a.
Proof. unfold last_ref. by rewrite last_snoc. Qed.

Lemma last_ref_app l1 l2 p : last_ref (l1 ++ l2) p = last_ref l2 (last_ref l1 p).
Proof.
  unfold last_ref. rewrite last_app.
  destruct (last l2) as [[??]|]; [done|]. by destruct (last l1) as [[??]|].
Qed.

Lemma seg_app s p l1 l2 n :
  seg s p (l1 ++ l2) n ↔
  seg s p l1 (head_ref l2 n) ∧ seg s (last_ref l1 p) l2 n.
Proof.
  revert p. induction l1 as [|[a k] l1 IH]; intros p; cbn [seg app].
  - unfold last_ref. cbn. tauto.
  - rewrite IH, head_ref_app, last_ref_cons. tauto.
Qed.

(** A write outside the segment does not touch it. *)
Lemma seg_frame s p l n a x :
  a ∉ l.*1 → seg s p l n → seg (<[a := x]> s) p l n.
Proof.
  revert p. induction l as [|[b k] l IH]; intros p; cbn [seg]; [done|].
  csimpl. rewrite not_elem_of_cons. intros [Hne Hnot] [(nb & Hb & ?) Hseg].
  split; [|by apply IH].
  exists nb. by rewrite lookup_insert_ne.
Qed.

(** [a.up = u] on the first node of a segment. *)
Lemma seg_set_up_head s p a k l n u na :
  a ∉ l.*1 → s !! a = Some na → seg s p ((a, k) :: l) n →
  seg (<[a := Node.set_up u na]> s) u ((a, k) :: l) n.
Proof.
  intros Hnot Ha [(na' & Ha' & Hv & Hu & Hd) Hseg]. simplify_eq.
  split; [|by apply seg_frame].
  exists (Node.set_up u na). by rewrite lookup_insert_eq.
Qed.

(** [a.down = d] on the last node of a segment. *)
Lemma seg_set_down_last s p l a k n d na :
  a ∉ l.*1 → s !! a = Some na → seg s p (l ++ [(a, k)]) n →
  seg (<[a := Node.set_down d na]> s) p (l ++ [(a, k)]) d.
Proof.
  intros Hnot Ha. rewrite !seg_app. cbn [seg head_ref].
  intros (Hl & (na' & Ha' & Hv & Hu & Hd) & _). simplify_eq.
  split_and!; [by apply seg_frame| |done].
  exists (Node.set_down d na). by rewrite lookup_insert_eq.
Qed.

(** The nodes of a segment are in the store. *)
Lemma seg_lookup s p l n a k :
  seg s p l n → (a, k) ∈ l → ∃ na, s !! a = Some na ∧ Node.val na = k.
Proof.
  revert p. induction l as [|[b kb] l IH]; intros p; cbn [seg].
  - by intros _ ?%elem_of_nil.
  - intros [(nb & Hb & Hv & _) Hseg] [[= -> ->]|Hin]%elem_of_cons; eauto.
Qed.

Lemma seg_length s p l n : NoDup l.*1 → seg s p l n → (length l ≤ size s)%nat.
Proof.
  intros Hnd Hseg.
  rewrite <-(length_fmap fst l), <-length_map_to_list.
  rewrite <-(length_fmap fst (map_to_list s)).
  apply submseteq_length, NoDup_submseteq; [done|].
  intros a ([a' k] & -> & Hin)%list_elem_of_fmap.
  destruct (seg_lookup _ _ _ _ _ _ Hseg Hin) as (na & Ha & _).
  apply list_elem_of_fmap. exists (a', na). split; [done|].
  by apply elem_of_map_to_list.
Qed.

(** The loop of [dump] walks down a segment that ends in [None]. *)
Lemma dump_loop_seg s p l fuel d :
  seg s p l None → (length l ≤ fuel)%nat →
  LruCache.dump_loop fuel s (head_ref l None) d = Some (d ++ l.*2).
Proof.
  revert p fuel d. induction l as [|[a k] l IH]; intros p fuel d; cbn [seg].
  - intros _ _. destruct fuel; cbn; by rewrite app_nil_r.
  - intros [(na & Ha & Hv & Hu & Hd) Hseg] Hlen.
    destruct fuel as [|fuel]; [cbn in Hlen; lia|].
    cbn. rewrite Ha, Hd, Hv.
    rewrite (IH (Some a)) by (cbn in Hlen; done || lia).
    by rewrite <-app_assoc.
Qed.
End seg_lemmas.

(** *** LruCache: the methods *)

Section lru.
Import LruCache.
Implicit Types (c : LruCache.inst) (k : pyval) (l : list (ref * pyval)).

Lemma lru_rep_cache c l :
  lru_rep c l → _cache c = list_to_map ((λ x, (x.2, x.1)) <$> l).
Proof.
  intros (_ & _ & _ & _ & Hk & Hmap & _).
  apply map_eq. intros k. apply option_eq. intros a.
  rewrite Hmap, <-elem_of_list_to_map.
  - rewrite list_elem_of_fmap. split.
    + intros Hin. by exists (a, k).
    + by intros ([a' k'] & [= -> ->] & Hin).
  - by rewrite <-list_fmap_compose.
Qed.

Lemma lru_rep_size c l : lru_rep c l → size (_cache c) = length l.
Proof.
  intros Hrep. rewrite (lru_rep_cache c l Hrep).
  destruct Hrep as (_ & _ & _ & _ & Hk & _).
  rewrite map_size_list_to_map, length_fmap; [done|].
  by rewrite <-list_fmap_compose.
Qed.

Lemma lru_has_true c l k : lru_rep c l → has k c = true ↔ k ∈ l.*2.
Proof.
  intros (_ & _ & _ & _ & _ & Hmap & _). unfold has.
  rewrite bool_decide_eq_true, list_elem_of_fmap. split.
  - intros [a Ha]. apply Hmap in Ha. by exists (a, k).
  - intros ([a k'] & -> & Hin). exists a. by apply Hmap.
Qed.

Lemma lru_has_false c l k : lru_rep c l → has k c = false ↔ k ∉ l.*2.
Proof. intros Hrep. rewrite <-(lru_has_true c l k Hrep). by destruct (has k c). Qed.

Lemma lru_rep_fresh c l a k : lru_rep c l → (a, k) ∈ l → (a < next_ref c)%nat.
Proof.
  intros (Hseg & _ & _ & _ & _ & _ & Hfresh) Hin. apply Hfresh.
  destruct (seg_lookup _ _ _ _ _ _ Hseg Hin) as (na & Ha & _). eauto.
Qed.

Lemma lru_rep_fresh_notin c l : lru_rep c l → next_ref c ∉ l.*1.
Proof.
  intros Hrep ([a k] & Heq & Hin)%list_elem_of_fmap. cbn in Heq.
  pose proof (lru_rep_fresh c l a k Hrep Hin). lia.
Qed.

(** Pushing a node for an absent key on top of the list. *)
Lemma lru_push_top c l k :
  lru_rep c l → k ∉ l.*2 →
  ∃ c', push_top k c = Ok c' ∧ lru_rep c' ((next_ref c, k) :: l) ∧
        _maxlen c' = _maxlen c.
Proof.
  intros Hrep Hk. pose proof (lru_rep_fresh_notin c l Hrep) as Hnr.
  destruct Hrep as (Hseg & Htop & Hbot & Hnd & Hndk & Hmap & Hfresh).
  unfold push_top, new_node. cbn.
  destruct l as [|[t kt] l].
  - cbn in Htop, Hbot. rewrite Htop, Hbot. cbn.
    eexists. split; [done|]. split; [|done].
    unfold lru_rep. split_and!; cbn; try done.
    + split; [|done]. eexists. rewrite lookup_insert_eq. done.
    + apply NoDup_singleton.
    + apply NoDup_singleton.
    + intros k0 a0. rewrite list_elem_of_singleton.
      destruct (decide (k0 = k)) as [->|Hne].
      * rewrite lookup_insert_eq. naive_solver.
      * rewrite lookup_insert_ne by done. rewrite Hmap, elem_of_nil. naive_solver.
    + intros a0 [x Hx]. destruct (decide (a0 = next_ref c)) as [->|Hne]; [lia|].
      rewrite lookup_insert_ne in Hx by done. assert (a0 < next_ref c)%nat; [|lia].
      apply Hfresh. eauto.
  - cbn in Htop. rewrite last_ref_cons in Hbot. rewrite Htop.
    assert (bottom c = Some (default t (last l.*1))) as Hb.
    { rewrite Hbot. unfold last_ref. rewrite fmap_last.
      by destruct (last l) as [[??]|]. }
    rewrite Hb. cbn.
    pose proof Hseg as [(nt & Ht & Hv & Hu & Hd) Hseg'].
    assert (t ≠ next_ref c) as Htn.
    { intros ->. apply Hnr. left. }
    unfold assign_up, deref. cbn. rewrite lookup_insert_ne, Ht by done. cbn.
    eexists. split; [done|]. split; [|done].
    rewrite fmap_cons, NoDup_cons in Hnd. destruct Hnd as [Htl Hnd].
    cbn [fst] in Htl.
    unfold lru_rep. cbn [_cache bottom top _maxlen store next_ref with_store
      with_top with_cache].
    split_and!.
    + cbn [seg]. split.
      * eexists. rewrite lookup_insert_ne, lookup_insert_eq by done. done.
      * apply seg_set_up_head with (p := None); [exact Htl| |].
        -- by rewrite lookup_insert_ne.
        -- by apply seg_frame.
    + done.
    + by rewrite !last_ref_cons, <-Hbot, Hb.
    + csimpl. apply NoDup_cons. split; [done|]. apply NoDup_cons. done.
    + csimpl. apply NoDup_cons. done.
    + intros k0 a0. rewrite (elem_of_cons _ _ (next_ref c, k)).
      destruct (decide (k0 = k)) as [->|Hne].
      * rewrite lookup_insert_eq. split; [naive_solver|].
        intros [[= -> ]|Hin]; [done|].
        exfalso. apply Hk. by apply (list_elem_of_fmap_2 snd _ (a0, k)).
      * rewrite lookup_insert_ne by done. rewrite Hmap. naive_solver.
    + intros a0 [x Hx]. destruct (decide (a0 = next_ref c)) as [->|Hne]; [lia|].
      assert (a0 < next_ref c)%nat; [|lia]. apply Hfresh.
      destruct (decide (a0 = t)) as [->|Hne']; [eauto|].
      rewrite !lookup_insert_ne in Hx by done. eauto.
Qed.

(** [get] of the key on top changes nothing. *)
Lemma lru_get_top c a k l : lru_rep c ((a, k) :: l) → get k c = Ok (true, c).
Proof.
  intros Hrep. unfold get.
  rewrite (proj2 (lru_has_true c _ k Hrep)) by (csimpl; left). cbn [negb].
  destruct Hrep as (Hseg & Htop & Hbot & Hnd & Hndk & Hmap & Hfresh).
  rewrite (proj2 (Hmap k a)) by left.
  destruct Hseg as [(na & Ha & Hv & Hu & Hd) Hseg].
  unfold deref. rewrite Ha. cbn. by rewrite Hu.
Qed.

(** Removing a key from the index, and its node from the list. *)
Lemma lru_rep_delete_map (m : gmap pyval ref) l1 a k l2 :
  NoDup (l1 ++ (a, k) :: l2).*2 →
  (∀ k0 a0, m !! k0 = Some a0 ↔ (a0, k0) ∈ l1 ++ (a, k) :: l2) →
  ∀ k0 a0, delete k m !! k0 = Some a0 ↔ (a0, k0) ∈ l1 ++ l2.
Proof.
  intros Hnd Hmap k0 a0.
  rewrite fmap_app, fmap_cons in Hnd.
  apply NoDup_app in Hnd as (_ & H12 & [Hk2 _]%NoDup_cons). cbn in H12, Hk2.
  assert ((a0, k) ∉ l1 ++ l2) as Hnot.
  { rewrite elem_of_app. intros [Hin|Hin].
    - apply (H12 k); [apply (list_elem_of_fmap_2 snd _ _ Hin)|left].
    - apply Hk2. apply (list_elem_of_fmap_2 snd _ _ Hin). }
  destruct (decide (k0 = k)) as [->|Hne].
  - rewrite lookup_delete_eq. naive_solver.
  - rewrite lookup_delete_ne, Hmap by done.
    rewrite !elem_of_app, elem_of_cons. naive_solver.
Qed.

Lemma deref_Some c a n : store c !! a = Some n → deref (Some a) c = Ok (a, n).
Proof. intros Ha. unfold deref. by rewrite Ha. Qed.

(** [get] of a key that is not on top: its node is unlinked and a new
    node for it is pushed on top. *)
Lemma lru_get_promote c l1 u ku a k l2 :
  lru_rep c (l1 ++ (u, ku) :: (a, k) :: l2) →
  ∃ c', get k c = Ok (true, c') ∧
        lru_rep c' ((next_ref c, k) :: l1 ++ (u, ku) :: l2) ∧
        _maxlen c' = _maxlen c.
Proof.
  intros Hrep. unfold get.
  rewrite (proj2 (lru_has_true c _ k Hrep))
    by (rewrite fmap_app, !fmap_cons, elem_of_app, !elem_of_cons; cbn; tauto).
  cbn [negb].
  pose proof Hrep as (Hseg & Htop & Hbot & Hnd & Hndk & Hmap & Hfresh).
  rewrite (proj2 (Hmap k a)) by (rewrite elem_of_app, !elem_of_cons; tauto).
  (* the three nodes involved *)
  rewrite (cons_middle (u, ku)), app_assoc in Hseg.
  apply seg_app in Hseg as [Hseg1 Hseg2].
  rewrite last_ref_snoc in Hseg2. cbn [head_ref] in Hseg1.
  pose proof Hseg2 as [(na & Ha & Hva & Hua & Hda) Hseg3].
  pose proof Hseg1 as Hseg1'. apply seg_app in Hseg1' as [_ [(nu & Hu & _) _]].
  (* nothing is shared between the three parts *)
  rewrite fmap_app, !fmap_cons in Hnd. cbn [fst] in Hnd.
  apply NoDup_app in Hnd as (Hnd1 & H12 & [Hu2 [Ha2 Hnd2]%NoDup_cons]%NoDup_cons).
  rewrite !not_elem_of_cons in Hu2. destruct Hu2 as [Hua' Hu2].
  assert (u ∉ l1.*1) as Hu1.
  { intros Hin. apply (H12 _ Hin). left. }
  assert (a ∉ (l1 ++ [(u, ku)]).*1) as Ha1.
  { rewrite fmap_app, elem_of_app. cbn. rewrite list_elem_of_singleton.
    intros [Hin|?]; [|done]. apply (H12 _ Hin). right; left. }
  assert (∀ x, x ∈ l2.*1 → x ∉ (l1 ++ [(u, ku)]).*1) as H21.
  { intros x Hx. rewrite fmap_app, elem_of_app. cbn. rewrite list_elem_of_singleton.
    intros [Hin| ->]; [|done]. apply (H12 _ Hin). by do 2 right. }
  assert (NoDup (l1 ++ (u, ku) :: l2).*2) as Hndk'.
  { rewrite fmap_app, !fmap_cons in Hndk |- *.
    eapply sublist_NoDup; [exact Hndk|].
    apply sublist_app; [done|]. apply sublist_skip, sublist_cons. done. }
  assert (k ∉ (l1 ++ (u, ku) :: l2).*2) as Hk.
  { rewrite (cons_middle (u, ku)), app_assoc in Hndk.
    apply NoDup_fmap_1 in Hndk as Hnd0.
    intros ([a0 k0] & Hk0 & Hin)%list_elem_of_fmap. cbn in Hk0. subst k0.
    rewrite (cons_middle (u, ku)), app_assoc in Hin.
    apply (lru_rep_delete_map (_cache c) _ a k l2 Hndk) in Hin.
    - by rewrite lookup_delete_eq in Hin.
    - intros k0 a1. by rewrite Hmap, <-app_assoc, <-cons_middle. }
  assert (∀ m : gmap pyval ref, (∀ k0 a0, m !! k0 = Some a0 ↔
                  (a0, k0) ∈ l1 ++ (u, ku) :: (a, k) :: l2) →
               ∀ k0 a0, delete k m !! k0 = Some a0 ↔
                  (a0, k0) ∈ l1 ++ (u, ku) :: l2) as Hdel.
  { intros m Hm. rewrite (cons_middle (u, ku)), app_assoc.
    apply lru_rep_delete_map with (a := a).
    - by rewrite <-app_assoc, <-cons_middle.
    - intros k0 a0. by rewrite Hm, <-app_assoc, <-cons_middle. }
  rewrite (deref_Some c a na Ha). cbn [mbind result_bind]. rewrite Hua, Hda.
  destruct l2 as [|[d kd] l2]; cbn [head_ref].
  - (* the node was the bottom one *)
    cbn [mbind result_bind].
    rewrite (deref_Some _ a na) by done. cbn [mbind result_bind].
    rewrite Hua, Hda. unfold assign_down.
    rewrite (deref_Some _ u nu) by done. cbn [mbind result_bind].
    match goal with |- context [push_top k ?c3] => set (c3' := c3) end.
    assert (lru_rep c3' (l1 ++ [(u, ku)])) as Hrep3.
    { unfold lru_rep, c3'.
      cbn [_cache bottom top _maxlen store next_ref with_store
        with_top with_cache with_bottom].
      split_and!.
      + by apply seg_set_down_last with (n := Some a).
      + rewrite Htop. by rewrite !head_ref_app.
      + by rewrite last_ref_snoc.
      + rewrite fmap_app. apply NoDup_app. split_and!; [done| |].
        * intros x Hx ->%list_elem_of_singleton. done.
        * apply NoDup_singleton.
      + done.
      + by apply Hdel.
      + intros a0 [x Hx]. apply Hfresh.
        destruct (decide (a0 = u)) as [->|Hne]; [eauto|].
        rewrite lookup_insert_ne in Hx by done. eauto. }
    destruct (lru_push_top c3' _ k Hrep3 Hk) as (c' & -> & Hrep' & Hm').
    exists c'. done.
  - (* the node was between two others *)
    pose proof Hseg3 as [(nd & Hd & _) _].
    rewrite !fmap_cons, !not_elem_of_cons in Hu2, Ha2. cbn [fst] in Hu2, Ha2.
    rewrite fmap_cons in Hnd2. apply NoDup_cons in Hnd2 as [Hd2 Hnd2].
    cbn [fst] in Hd2.
    unfold assign_up. rewrite (deref_Some _ d nd) by done.
    cbn [mbind result_bind].
    rewrite (deref_Some _ a na)
      by (cbn; rewrite lookup_insert_ne by (intros ->; tauto); done).
    cbn [mbind result_bind]. rewrite Hua, Hda. unfold assign_down.
    rewrite (deref_Some _ u nu)
      by (cbn; rewrite lookup_insert_ne by (intros ->; tauto); done).
    cbn [mbind result_bind].
    match goal with |- context [push_top k ?c3] => set (c3' := c3) end.
    assert (lru_rep c3' (l1 ++ (u, ku) :: (d, kd) :: l2)) as Hrep3.
    { unfold lru_rep, c3'.
      cbn [_cache bottom top _maxlen store next_ref with_store
        with_top with_cache with_bottom].
      split_and!.
      + rewrite cons_middle, app_assoc. apply seg_app. split.
        * cbn [head_ref].
          apply seg_set_down_last with (n := Some a); [done| |].
          -- rewrite lookup_insert_ne by (intros ->; tauto). done.
          -- apply seg_frame; [|done]. apply H21. left.
        * rewrite last_ref_snoc. apply seg_frame.
          { rewrite fmap_cons, not_elem_of_cons. cbn. tauto. }
          by apply seg_set_up_head with (p := Some a).
      + rewrite Htop. by rewrite !head_ref_app.
      + rewrite Hbot. rewrite !last_ref_app. by rewrite !last_ref_cons.
      + rewrite fmap_app, !fmap_cons. apply NoDup_app. split_and!; [done| |].
        * intros x Hx. apply H12 in Hx. csimpl in Hx.
          rewrite !not_elem_of_cons in Hx |- *. cbn [fst].
          destruct Hx as (? & ? & [? ?]%not_elem_of_cons). done.
        * apply NoDup_cons. rewrite not_elem_of_cons. cbn [fst].
          split; [tauto|]. by apply NoDup_cons.
      + done.
      + by apply Hdel.
      + intros a0 [x Hx]. apply Hfresh.
        destruct (decide (a0 = u)) as [->|Hne]; [eauto|].
        rewrite lookup_insert_ne in Hx by done.
        destruct (decide (a0 = d)) as [->|Hne']; [eauto|].
        rewrite lookup_insert_ne in Hx by done. eauto. }
    destruct (lru_push_top c3' _ k Hrep3 Hk) as (c' & -> & Hrep' & Hm').
    exists c'. done.
Qed.

Lemma lru_get_miss c k : has k c = false → get k c = Ok (false, c).
Proof. intros Hk. unfold get. by rewrite Hk. Qed.

(** [get] returns whether the key is there, keeps the representation,
    and leaves a key that is there on top of the list. *)
Lemma lru_get_spec c l k :
  lru_rep c l →
  ∃ c' l', get k c = Ok (has k c, c') ∧ lru_rep c' l' ∧
           _maxlen c' = _maxlen c ∧ length l' = length l ∧
           (has k c = true → head l'.*2 = Some k) ∧
           (has k c = false → c' = c).
Proof.
  intros Hrep. destruct (has k c) eqn:Hhas.
  - apply (lru_has_true c l k Hrep) in Hhas as Hin.
    apply list_elem_of_fmap in Hin as ([a k'] & Heq & Hin). cbn in Heq. subst k'.
    apply list_elem_of_split in Hin as (l1 & l2 & ->).
    destruct l1 as [|x l1 _] using rev_ind.
    + exists c, ((a, k) :: l2). rewrite (lru_get_top c a k l2 Hrep). done.
    + destruct x as [u ku]. rewrite <-app_assoc in Hrep. cbn [app] in Hrep.
      destruct (lru_get_promote c l1 u ku a k l2 Hrep) as (c' & Hget & Hrep' & Hm).
      exists c', ((next_ref c, k) :: l1 ++ (u, ku) :: l2).
      split_and!; try done.
      rewrite <-app_assoc. cbn. rewrite !length_app. cbn. lia.
  - exists c, l. rewrite lru_get_miss by done. done.
Qed.

Lemma cons_snoc {A} (x : A) (xs : list A) : ∃ ys y, x :: xs = ys ++ [y].
Proof.
  destruct xs as [|z xs _] using rev_ind.
  - by exists [], x.
  - by exists (x :: xs), z.
Qed.

Lemma head_ref_snoc l a k n :
  ∃ t, head_ref (l ++ [(a, k)]) n = Some t ∧ t ∈ (l ++ [(a, k)]).*1.
Proof.
  destruct l as [|[t kt] l]; cbn.
  - exists a. split; [done|left].
  - exists t. split; [done|left].
Qed.

(** [put] of an absent key into a cache with room. *)
Lemma lru_put_fit c l k :
  lru_rep c l → has k c = false → len c + 1 ≤ _maxlen c →
  ∃ c', put k c = Ok (PNone, c') ∧ lru_rep c' ((next_ref c, k) :: l) ∧
        _maxlen c' = _maxlen c.
Proof.
  intros Hrep Hhas Hlen. unfold put, put_with. rewrite lru_get_miss by done.
  cbn [mbind result_bind].
  apply (lru_has_false c l k Hrep) in Hhas as Hk.
  destruct (lru_push_top c l k Hrep Hk) as (c1 & -> & Hrep1 & Hm1).
  cbn [mbind result_bind].
  pose proof (lru_rep_size _ _ Hrep) as Hsz.
  pose proof (lru_rep_size _ _ Hrep1) as Hsz1.
  unfold len, maxlen in *. rewrite Hsz1, Hm1. cbn [length].
  destruct (Z.of_nat (S (length l)) <=? _maxlen c) eqn:E; [|bool_lia].
  by exists c1.
Qed.

(** [put] of an absent key into a full cache: the bottom node leaves. *)
Lemma lru_put_evict c l0 b kb k :
  lru_rep c (l0 ++ [(b, kb)]) → has k c = false → _maxlen c < len c + 1 →
  ∃ c', put k c = Ok (kb, c') ∧ lru_rep c' ((next_ref c, k) :: l0) ∧
        _maxlen c' = _maxlen c.
Proof.
  intros Hrep Hhas Hlen. unfold put, put_with. rewrite lru_get_miss by done.
  cbn [mbind result_bind].
  apply (lru_has_false c _ k Hrep) in Hhas as Hk.
  destruct (lru_push_top c _ k Hrep Hk) as (c1 & -> & Hrep1 & Hm1).
  cbn [mbind result_bind].
  pose proof (lru_rep_size _ _ Hrep) as Hsz.
  pose proof (lru_rep_size _ _ Hrep1) as Hsz1.
  unfold len, maxlen in *. rewrite Hsz1, Hm1. cbn [length].
  destruct (Z.of_nat (S (length (l0 ++ [(b, kb)]))) <=? _maxlen c) eqn:E;
    [bool_lia|]. clear E Hsz Hsz1 Hlen Hrep Hk Hhas.
  generalize dependent (next_ref c). intros nr Hrep1.
  destruct (cons_snoc (nr, k) l0) as (l' & [u ku] & Hl').
  rewrite app_comm_cons, Hl' in Hrep1. revert Hl'.
  generalize ((nr, k) :: l0). intros L ->.
  pose proof Hrep1 as (Hseg & Htop & Hbot & Hnd & Hndk & Hmap & Hfresh).
  rewrite last_ref_snoc in Hbot.
  apply seg_app in Hseg as [Hseg1 [(nb & Hb & Hvb & Hub & Hdb) _]].
  rewrite last_ref_snoc in Hub. cbn [head_ref] in Hseg1.
  pose proof Hseg1 as Hseg1'. apply seg_app in Hseg1' as [_ [(nu & Hu & _) _]].
  rewrite fmap_app in Hnd. apply NoDup_app in Hnd as (Hnd1 & H1b & _).
  assert (b ∉ (l' ++ [(u, ku)]).*1) as Hbn.
  { intros Hin. apply (H1b _ Hin). left. }
  assert (u ≠ b) as Hub'.
  { intros ->. apply Hbn. rewrite fmap_app, elem_of_app. right. left. }
  assert (u ∉ l'.*1) as Hul.
  { rewrite fmap_app in Hnd1. apply NoDup_app in Hnd1 as (_ & H1u & _).
    intros Hin. apply (H1u _ Hin). left. }
  destruct (head_ref_snoc l' u ku (Some b)) as (t & Ht & Htin).
  rewrite head_ref_app in Htop. cbn [head_ref] in Htop.
  rewrite Htop, Ht, Hbot.
  rewrite bool_decide_eq_false_2 by (intros [= ->]; done).
  rewrite (deref_Some c1 b nb Hb). cbn [mbind result_bind].
  rewrite Hub, Hvb. unfold assign_down.
  rewrite (deref_Some c1 u nu Hu). cbn [mbind result_bind].
  rewrite (deref_Some _ b nb)
    by (cbn; rewrite lookup_insert_ne by done; done).
  cbn [mbind result_bind]. rewrite Hub. unfold assign_up.
  rewrite (deref_Some _ b nb)
    by (cbn; rewrite lookup_insert_ne by done; done).
  cbn [mbind result_bind].
  assert (_cache c1 !! kb = Some b) as Hkb.
  { apply Hmap. rewrite elem_of_app. right. left. }
  unfold has at 1.
  cbn [_cache bottom top _maxlen store next_ref with_store
        with_top with_cache with_bottom].
  rewrite bool_decide_eq_true_2 by eauto. cbn [negb].
  eexists. split; [done|]. split; [|done].
  unfold lru_rep.
  cbn [_cache bottom top _maxlen store next_ref with_store
        with_top with_cache with_bottom].
  split_and!.
  - apply seg_frame; [done|].
    by apply seg_set_down_last with (n := Some b).
  - rewrite Htop, Ht.
    destruct (head_ref_snoc l' u ku None) as (t' & Ht' & _).
    rewrite Ht'. revert Ht Ht'. rewrite !head_ref_app. cbn [head_ref].
    destruct l' as [|[??]?]; cbn; congruence.
  - by rewrite last_ref_snoc.
  - done.
  - rewrite fmap_app in Hndk. by apply NoDup_app in Hndk as (? & _ & _).
  - rewrite <-(app_nil_r (l' ++ [(u, ku)])).
    by apply lru_rep_delete_map with (a := b).
  - intros a0 [x Hx]. apply Hfresh.
    destruct (decide (a0 = b)) as [->|Hne]; [eauto|].
    rewrite lookup_insert_ne in Hx by done.
    destruct (decide (a0 = u)) as [->|Hne']; [eauto|].
    rewrite lookup_insert_ne in Hx by done. eauto.
Qed.

Lemma lru_dump_rep c l : lru_rep c l → dump c = Some l.*2.
Proof.
  intros (Hseg & Htop & _ & Hnd & _). unfold dump. rewrite Htop.
  rewrite (dump_loop_seg _ None l) by
    (try done; pose proof (seg_length _ _ _ _ Hnd Hseg); lia).
  done.
Qed.

Lemma lru_init_inv n c : init n = Ok c → lru_inv c.
Proof.
  unfold init. cbn. destruct (n <=? 0) eqn:E; [done|]. intros [= <-].
  exists []. unfold lru_rep, len. cbn.
  split_and!; try done; try apply NoDup_nil_2; try bool_lia.
  - intros k a. rewrite lookup_empty, elem_of_nil. naive_solver.
  - intros a [x Hx]. by rewrite lookup_empty in Hx.
  - rewrite map_size_empty. bool_lia.
Qed.

Lemma lru_clear_inv c : lru_inv c → lru_inv (clear c).
Proof.
  intros (l & Hrep & Hpos & Hlen).
  destruct Hrep as (_ & _ & _ & _ & _ & _ & Hfresh).
  exists []. unfold lru_rep, len, clear. cbn.
  split_and!; try done; try apply NoDup_nil_2; try lia.
  - intros k a. rewrite lookup_empty, elem_of_nil. naive_solver.
  - rewrite map_size_empty. lia.
Qed.

Lemma lru_get_inv k c b c' : lru_inv c → get k c = Ok (b, c') → lru_inv c'.
Proof.
  intros (l & Hrep & Hpos & Hlen) Hget.
  destruct (lru_get_spec c l k Hrep) as (c0 & l' & Hget' & Hrep' & Hm & Hl & _).
  rewrite Hget in Hget'. injection Hget' as -> ->.
  exists l'. split; [done|]. unfold len in *.
  rewrite (lru_rep_size _ _ Hrep'), Hl, <-(lru_rep_size _ _ Hrep), Hm. done.
Qed.

(** [put] returns and keeps the invariant and the capacity. *)
Lemma lru_put_ok k c :
  lru_inv c →
  ∃ e c', put k c = Ok (e, c') ∧ lru_inv c' ∧ _maxlen c' = _maxlen c.
Proof.
  intros (l & Hrep & Hpos & Hlen).
  destruct (has k c) eqn:Hhas.
  - destruct (lru_get_spec c l k Hrep) as (c0 & l' & Hget & Hrep' & Hm & Hl & _).
    unfold put, put_with. rewrite Hget, Hhas. cbn.
    exists PNone, c0. split_and!; [done| |done].
    exists l'. split; [done|]. unfold len in *.
    rewrite (lru_rep_size _ _ Hrep'), Hl, <-(lru_rep_size _ _ Hrep), Hm. done.
  - destruct (decide (len c + 1 ≤ _maxlen c)) as [Hfit|Hfull].
    + destruct (lru_put_fit c l k Hrep Hhas Hfit) as (c' & Hput & Hrep' & Hm).
      exists PNone, c'. split_and!; [done| |done].
      exists ((next_ref c, k) :: l).
      split; [done|]. unfold len in *.
      rewrite (lru_rep_size _ _ Hrep'), Hm. rewrite (lru_rep_size _ _ Hrep) in Hfit.
      cbn [length]. lia.
    + pose proof (lru_rep_size _ _ Hrep) as Hsz. unfold len in *.
      destruct l as [|[b kb] l0 _] using rev_ind; [cbn in Hsz; lia|].
      destruct (lru_put_evict c l0 b kb k Hrep Hhas) as (c' & Hput & Hrep' & Hm);
        [unfold len; lia|].
      exists kb, c'. split_and!; [done| |done].
      exists ((next_ref c, k) :: l0).
      split; [done|]. unfold len.
      rewrite (lru_rep_size _ _ Hrep'), Hm.
      rewrite Hsz, length_app in Hlen. cbn [length] in *. lia.
Qed.

Lemma lru_put_inv k c e c' : lru_inv c → put k c = Ok (e, c') → lru_inv c'.
Proof.
  intros Hinv Hput. destruct (lru_put_ok k c Hinv) as (e0 & c0 & Heq & ? & _).
  congruence.
Qed.
End lru.

(** *** Every policy: the invariant holds in every reachable state *)

Lemma new_cache_inv pol n c : new_cache pol n = Ok c → cache_inv c.
Proof.
  destruct pol; cbn.
  - by intros [= <-].
  - destruct (LruCache.init n) eqn:E; [|done]. intros [= <-]. by eapply lru_init_inv.
  - destruct (LfuCache.init n) eqn:E; [|done]. intros [= <-]. by eapply lfu_init_inv.
  - destruct (FifoCache.init n) eqn:E; [|done]. intros [= <-]. by eapply fifo_init_inv.
  - destruct (RandCache.init n) eqn:E; [|done]. intros [= <-]. by eapply rand_init_inv.
Qed.

Lemma get_inv k c b c' : cache_inv c → get k c = Ok (b, c') → cache_inv c'.
Proof.
  destruct c as [c|c|c|c|c]; cbn.
  - by intros _ [= <- <-].
  - intros Hinv. destruct (LruCache.get k c) as [[b0 c0]|] eqn:E; [|done].
    intros [= <- <-]. by eapply lru_get_inv.
  - intros Hinv. destruct (LfuCache.get k c) as [[b0 c0]|] eqn:E; [|done].
    intros [= <- <-]. by eapply lfu_get_inv.
  - by intros Hinv [= <- <-].
  - by intros Hinv [= <- <-].
Qed.

Lemma clear_inv c : cache_inv c → cache_inv (clear c).
Proof.
  destruct c as [c|c|c|c|c]; cbn; [done|..].
  - apply lru_clear_inv.
  - apply lfu_clear_inv.
  - apply fifo_clear_inv.
  - apply rand_clear_inv.
Qed.

Section generic.
Context `{RandomGen}.

Lemma put_inv k c g e c' g' :
  cache_inv c → put k c g = Ok (e, c', g') → cache_inv c'.
Proof.
  destruct c as [c|c|c|c|c]; cbn.
  - by intros _ [= <- <- <-].
  - intros Hinv. destruct (LruCache.put k c) as [[e0 c0]|] eqn:E; [|done].
    intros [= <- <- <-]. by eapply lru_put_inv.
  - intros Hinv. destruct (LfuCache.put k c) as [[e0 c0]|] eqn:E; [|done].
    intros [= <- <- <-]. by eapply lfu_put_inv.
  - intros Hinv. destruct (FifoCache.put k c) as [[e0 c0]|] eqn:E; [|done].
    intros [= <- <- <-]. by eapply fifo_put_inv.
  - intros Hinv. destruct (RandCache.put k c g) as [[[e0 c0] g0]|] eqn:E; [|done].
    intros [= <- <- <-]. by eapply rand_put_inv.
Qed.

Lemma reachable_inv c : reachable c → cache_inv c.
Proof.
  induction 1; eauto using new_cache_inv, get_inv, put_inv, clear_inv.
Qed.

(** The invariant bounds the size. *)
Lemma cache_inv_len c : cache_inv c → len c ≤ maxlen c.
Proof.
  destruct c as [c|c|c|c|c]; cbn.
  - done.
  - by intros (l & _ & _ & ?).
  - by intros (_ & _ & _ & _ & ?).
  - by intros (_ & _ & _ & ?).
  - intros (Hlen & _ & Hn & _). unfold RandCache.len, RandCache.maxlen. lia.
Qed.

(** [put] keeps the capacity. *)
Lemma put_maxlen k c g e c' g' :
  cache_inv c → put k c g = Ok (e, c', g') → maxlen c' = maxlen c.
Proof.
  destruct c as [c|c|c|c|c]; cbn.
  - by intros _ [= <- <- <-].
  - intros Hinv. destruct (lru_put_ok k c Hinv) as (e0 & c0 & -> & _ & Hm).
    by intros [= <- <- <-].
  - intros _. destruct (LfuCache.has k c) eqn:Hhas.
    + rewrite lfu_put_present by done. by intros [= <- <- <-].
    + rewrite lfu_put_absent by done. cbn zeta.
      destruct (_ <? _).
      * destruct (py_min _); [|done]. by intros [= <- <- <-].
      * by intros [= <- <- <-].
  - intros Hinv. rewrite fifo_put_spec by done.
    destruct (FifoCache.has k c); [by intros [= <- <- <-]|].
    destruct (_ <? _); [by intros [= <- <- <-]|].
    destruct (last _); [|done]. by intros [= <- <- <-].
  - intros _. unfold RandCache.put.
    destruct (RandCache.has k c); [by intros [= <- <- <-]|]. cbn [negb].
    destruct (_ =? _).
    + destruct (randint _ _ _) as [[i g1]|]; [|done]. cbn.
      destruct (np_getitem _ _); [|done]. cbn.
      destruct (np_setitem _ _ _); [|done]. cbn.
      destruct (set_remove _ _); [|done]. cbn.
      by intros [= <- <- <-].
    + destruct (np_setitem _ _ _); [|done]. cbn. by intros [= <- <- <-].
Qed.

(** With a generator that keeps its promises, [put] returns. *)
Lemma put_ok `{!RandomGenLaws H} k c g :
  cache_inv c → ∃ e c' g', put k c g = Ok (e, c', g') ∧ cache_inv c'.
Proof.
  intros Hinv.
  assert (∃ e c' g', put k c g = Ok (e, c', g')) as (e & c' & g' & Hput).
  { destruct c as [c|c|c|c|c]; cbn in Hinv |- *.
    - by eexists _, _, _.
    - destruct (lru_put_ok k c Hinv) as (e & c' & -> & _). by eexists _, _, _.
    - destruct (lfu_put_ok k c) as (e & c' & ->). by eexists _, _, _.
    - destruct (fifo_put_ok k c Hinv) as (e & c' & -> & _). by eexists _, _, _.
    - destruct (rand_put_ok k c g Hinv) as (e & c' & g' & ->). by eexists _, _, _. }
  exists e, c', g'. split; [done|]. by eapply put_inv.
Qed.

(** A sequence of [put] calls returns, keeps the invariant and the
    capacity. *)
Lemma put_all_ok `{!RandomGenLaws H} ks c g :
  cache_inv c →
  ∃ es c' g', put_all ks c g = Ok (es, c', g') ∧
              cache_inv c' ∧ maxlen c' = maxlen c.
Proof.
  revert c g. induction ks as [|k ks IH]; intros c g Hinv; cbn.
  - by eexists _, _, _.
  - destruct (put_ok k c g Hinv) as (e & c1 & g1 & Hput & Hinv1).
    rewrite Hput. cbn.
    destruct (IH c1 g1 Hinv1) as (es & c2 & g2 & -> & Hinv2 & Hm). cbn.
    eexists _, _, _. split_and!; [done|done|].
    rewrite Hm. by eapply put_maxlen.
Qed.
End generic.

(** ** The claims *)

(** *** Capacity *)

(** C1. For each of the policies, constructed with a capacity [C > 0]:
    after every call of a sequence of [put] calls, on any keys, the call
    has returned and the size of the cache is at most [C]. The state after
    the first [n] calls is the one reached by the first [n] keys. *)
Theorem size_at_most_capacity `{RandomGen} `{!RandomGenLaws H}
    (pol : policy) (C : Z) (ks : list pyval) (g : gen_state) (n : nat) :
  0 < C →
  ∃ c0, new_cache pol C = Ok c0 ∧
        ∃ es c g', put_all (take n ks) c0 g = Ok (es, c, g') ∧ len c ≤ C.
Proof.
  intros HC.
  assert (∃ c0, new_cache pol C = Ok c0 ∧ maxlen c0 ≤ C) as (c0 & Hnew & Hm0).
  { assert ((C <=? 0) = false) as E by bool_lia.
    destruct pol; cbn.
    - eexists. split; [done|]. cbn. unfold NullCache.maxlen. lia.
    - unfold LruCache.init. cbn. rewrite E. eexists. split; [done|]. cbn.
      unfold LruCache.maxlen. cbn. lia.
    - unfold LfuCache.init. cbn. rewrite E. eexists. split; [done|]. cbn.
      unfold LfuCache.maxlen. cbn. lia.
    - unfold FifoCache.init. cbn. rewrite E. eexists. split; [done|]. cbn.
      unfold FifoCache.maxlen. cbn. lia.
    - unfold RandCache.init, np_empty.
      assert ((C <? 0) = false) as -> by bool_lia. cbn. rewrite E.
      eexists. split; [done|]. cbn. unfold RandCache.maxlen. cbn. lia. }
  exists c0. split; [done|].
  pose proof (new_cache_inv _ _ _ Hnew) as Hinv.
  destruct (put_all_ok (take n ks) c0 g Hinv) as (es & c & g' & Hrun & Hinv' & Hm).
  exists es, c, g'. split; [done|].
  pose proof (cache_inv_len c Hinv'). lia.
Qed.

Section toy_random_laws.
Import ToyRandom.

#[global] Instance toy_random_laws : RandomGenLaws ToyRandom.gen.
Proof.
  split.
  - intros g. cbn. unfold random, Qle, Qlt. cbn.
    pose proof (Z.mod_pos_bound g 1000 ltac:(lia)). lia.
  - intros a b g Hab. cbn.
    pose proof (Z.mod_pos_bound g (b - a + 1) ltac:(lia)). lia.
Qed.
End toy_random_laws.

Lemma size_at_most_capacity_witness :
  ∃ c0, new_cache RAND 2 = Ok c0 ∧
        ∃ es c g', put_all (H := ToyRandom.gen)
                     (take 3 [PInt 1; PInt 2; PInt 3]) c0 7 = Ok (es, c, g') ∧
                   len c ≤ 2.
Proof.
  apply (size_at_most_capacity (H := ToyRandom.gen) RAND 2
           [PInt 1; PInt 2; PInt 3] 7 3).
  lia.
Defined.

(** *** LfuCache: what is evicted *)

(** C2. [LfuCache.put] of an absent key that brings the size above the
    capacity returns and removes the key whose pair [(frequency,
    sequence)] is the smallest, in lexicographic order, of all the
    resident keys, the new one included: the pair of every other resident
    key is strictly larger. *)
Theorem lfu_put_evicts_smallest_pair `{RandomGen} (c : LfuCache.inst) (k : pyval) :
  reachable (Lfu c) →
  LfuCache.has k c = false →
  LfuCache._maxlen c < LfuCache.len c + 1 →
  let entries := LfuCache._cache c ++ [(k, (1, LfuCache.t c + 1))] in
  ∃ e pe,
    LfuCache.put k c =
      Ok (e, LfuCache.mk (dict_del e entries) (LfuCache.t c + 1) (LfuCache._maxlen c)) ∧
    (e, pe) ∈ entries ∧
    (∀ k' p', (k', p') ∈ entries → k' ≠ e → pair_lt pe p' = true) ∧
    dict_lookup e (dict_del e entries) = None.
Proof.
  intros Hreach Hhas Hfull entries.
  apply reachable_inv in Hreach. cbn in Hreach.
  destruct Hreach as (Hk & Hs & Hb & Hpos & Hlen).
  rewrite lfu_put_absent by done. cbn zeta. fold entries.
  assert (length entries = S (length (LfuCache._cache c))) as Hlen'.
  { unfold entries. rewrite length_app. cbn. lia. }
  unfold LfuCache.len in *.
  assert ((LfuCache._maxlen c <? Z.of_nat (length entries)) = true) as ->
    by bool_lia.
  assert (NoDup (entry_seq <$> entries)) as Hs'.
  { unfold entries. rewrite fmap_app. apply NoDup_app. split_and!; [done| |apply NoDup_singleton].
    intros x ([k0 [f0 s0]] & -> & Hin)%list_elem_of_fmap Heq%list_elem_of_singleton.
    cbn in Heq. apply Hb in Hin. lia. }
  destruct entries as [|x d] eqn:Hent; [done|].
  unfold py_min. cbn [mbind result_bind].
  destruct (min_loop_spec x d) as (pe & Hin & Hmin).
  exists (min_loop x d), pe. split_and!; [done|done| |apply dict_del_lookup].
  intros k' p' Hin' Hne.
  destruct (pair_lt pe p') eqn:E; [done|].
  pose proof (Hmin _ Hin') as Hle. cbn in Hle.
  pose proof (pair_lt_total _ _ E Hle) as ->.
  (* two entries with the same pair have the same sequence number *)
  apply list_elem_of_lookup in Hin as [i Hi], Hin' as [j Hj].
  assert (i = j) as ->.
  { eapply NoDup_lookup; [exact Hs'| |].
    - rewrite list_lookup_fmap, Hi. done.
    - rewrite list_lookup_fmap, Hj. done. }
  congruence.
Qed.

Lemma lfu_put_evicts_smallest_pair_witness :
  ∃ c, LfuCache.init 1 = Ok c ∧
  ∃ c1, LfuCache.put (PInt 5) c = Ok (PNone, c1) ∧
  ∃ e pe,
    LfuCache.put (PInt 6) c1 =
      Ok (e, LfuCache.mk (dict_del e (LfuCache._cache c1 ++ [(PInt 6, (1, 2))])) 2 1) ∧
    (e, pe) ∈ LfuCache._cache c1 ++ [(PInt 6, (1, 2))] ∧
    (∀ k' p', (k', p') ∈ LfuCache._cache c1 ++ [(PInt 6, (1, 2))] → k' ≠ e →
              pair_lt pe p' = true) ∧
    dict_lookup e (dict_del e (LfuCache._cache c1 ++ [(PInt 6, (1, 2))])) = None.
Proof.
  eexists. split; [reflexivity|]. eexists. split; [reflexivity|].
  apply (lfu_put_evicts_smallest_pair (H := ToyRandom.gen)
           (LfuCache.mk [(PInt 5, (1, 1))] 1 1) (PInt 6)).
  - eapply (reach_put (H := ToyRandom.gen) (PInt 5) (Lfu (LfuCache.mk [] 0 1)) 0).
    + by apply (reach_new LFU 1).
    + reflexivity.
  - reflexivity.
  - unfold LfuCache.len. cbn. lia.
Defined.

(** C10. [LfuCache.put] of an absent key into a full cache whose resident
    keys all have a frequency of 2 or more returns that very key: the
    entries of the cache are what they were, and only the counter has
    moved. *)
Theorem lfu_put_evicts_itself (c : LfuCache.inst) (k : pyval) :
  LfuCache.len c = LfuCache._maxlen c →
  (∀ k' f s, (k', (f, s)) ∈ LfuCache._cache c → 2 ≤ f) →
  LfuCache.has k c = false →
  LfuCache.put k c =
    Ok (k, LfuCache.mk (LfuCache._cache c) (LfuCache.t c + 1) (LfuCache._maxlen c)).
Proof.
  intros Hfull Hfreq Hhas.
  rewrite lfu_put_absent by done. cbn zeta.
  rewrite length_app. cbn [length]. unfold LfuCache.len in Hfull.
  destruct (_ <? _) eqn:E; [|bool_lia]. clear E.
  apply lfu_has_false in Hhas.
  assert (py_min (LfuCache._cache c ++ [(k, (1, LfuCache.t c + 1))]) = Ok k) as ->.
  { unfold py_min.
    destruct (LfuCache._cache c ++ [(k, (1, LfuCache.t c + 1))]) as [|x d] eqn:Hent.
    { by destruct (LfuCache._cache c). }
    f_equal.
    destruct (min_loop_spec x d) as (p & Hin & Hmin).
    rewrite <-Hent in Hin, Hmin.
    apply elem_of_app in Hin as [Hin|Hin].
    - (* an old entry cannot be the smallest *)
      destruct p as [f s]. apply Hfreq in Hin as Hf.
      specialize (Hmin (k, (1, LfuCache.t c + 1))). cbn in Hmin.
      rewrite elem_of_app, list_elem_of_singleton in Hmin.
      specialize (Hmin (or_intror eq_refl)). bool_lia.
    - apply list_elem_of_singleton in Hin. congruence. }
  cbn. by rewrite dict_del_snoc.
Qed.

Lemma lfu_put_evicts_itself_witness :
  LfuCache.put (PInt 9) (LfuCache.mk [(PInt 1, (2, 1)); (PInt 2, (3, 2))] 2 2) =
    Ok (PInt 9, LfuCache.mk [(PInt 1, (2, 1)); (PInt 2, (3, 2))] 3 2).
Proof.
  apply (lfu_put_evicts_itself
           (LfuCache.mk [(PInt 1, (2, 1)); (PInt 2, (3, 2))] 2 2) (PInt 9)).
  - reflexivity.
  - intros k' f s Hin. cbn in Hin.
    repeat (apply elem_of_cons in Hin as [Heq|Hin]; [simplify_eq; lia|]).
    by apply elem_of_nil in Hin.
  - reflexivity.
Defined.

(** *** keyval_cache *)

(** C6, at the input where it fails. A key-value cache over
    [LruCache(1)] holds the key [0] with the value ["a"]; [kv_put(1, "b")]
    makes the inner [put] report the evicted key [0], and the wrapper
    returns [None] where the pair [(0, "a")] is due: [if evicted:] takes
    the key [0] for "nothing evicted". *)
Theorem kv_put_loses_falsy_evicted_key `{RandomGen} (g : gen_state) :
  (c ← new_cache LRU 1;
   w ← keyval_cache (ObjCache c);
   '(_, w1, g) ← kv_put (PInt 0) (PStr "a") w g;
   let vals := <[PInt 1 := PStr "b"]> (KeyVal._vals w1) in
   Ok (KeyVal._vals w1 !! PInt 0,
       (λ x, x.1.1) <$> k_put vals (PInt 1) (KeyVal.cache_ w1) g,
       (λ x, x.1.1) <$> kv_put (PInt 1) (PStr "b") w1 g)) =
  Ok (Some (PStr "a"), Ok (PInt 0), Ok None).
Proof. vm_compute. reflexivity. Qed.

(** C3, at the input where it fails: after the two calls above the value
    map still has the key [0], which the cache no longer holds. *)
Theorem kv_vals_keep_falsy_evicted_key `{RandomGen} (g : gen_state) :
  (c ← new_cache LRU 1;
   w ← keyval_cache (ObjCache c);
   '(_, w, g) ← kv_put (PInt 0) (PStr "a") w g;
   '(_, w2, _) ← kv_put (PInt 1) (PStr "b") w g;
   Ok (dump (KeyVal.cache_ w2),
       has (PInt 0) (KeyVal.cache_ w2), has (PInt 1) (KeyVal.cache_ w2),
       map_to_list (KeyVal._vals w2))) =
  Ok (Some [PInt 1], false, true, [(PInt 1, PStr "b"); (PInt 0, PStr "a")]).
Proof. vm_compute. reflexivity. Qed.

(** With a key that is not falsy the same two calls return the evicted
    pair and leave the value map with the resident key only. *)
Example kv_put_truthy_evicted_key `{RandomGen} (g : gen_state) :
  (c ← new_cache LRU 1;
   w ← keyval_cache (ObjCache c);
   '(_, w, g) ← kv_put (PInt 7) (PStr "a") w g;
   '(r, w, _) ← kv_put (PInt 1) (PStr "b") w g;
   Ok (r, dump (KeyVal.cache_ w), map_to_list (KeyVal._vals w))) =
  Ok (Some (PInt 7, PStr "a"), Some [PInt 1], [(PInt 1, PStr "b")]).
Proof. vm_compute. reflexivity. Qed.

(** A second defect shows with a falsy value. Inside a key-value cache
    the [self.get(k)] of [LruCache.put] is [kv_get], which returns the
    value: a resident key whose new value is falsy is taken for absent and
    gets a second node. The list then holds the key twice, and the
    eviction of the stale node removes the key from the index; here the
    fifth call ends in KeyError. *)
Example kv_put_falsy_value_lru `{RandomGen} (g : gen_state) :
  (c ← new_cache LRU 2;
   w ← keyval_cache (ObjCache c);
   '(_, w, g) ← kv_put (PInt 1) (PInt 0) w g;
   '(_, w2, g) ← kv_put (PInt 1) (PInt 0) w g;
   '(_, w, g) ← kv_put (PInt 2) (PStr "x") w2 g;
   '(_, w4, g) ← kv_put (PInt 3) (PStr "y") w g;
   Ok (dump (KeyVal.cache_ w2),
       dump (KeyVal.cache_ w4), has (PInt 1) (KeyVal.cache_ w4),
       (λ x, x.1.1) <$> kv_put (PInt 4) (PStr "z") w4 g)) =
  Ok (Some [PInt 1; PInt 1],
      Some [PInt 3; PInt 2; PInt 1], false,
      Raise KeyError).
Proof. vm_compute. reflexivity. Qed.

(** *** clear *)

(** C4 as stated fails: [LfuCache.clear] leaves the counter [t] where it
    is, so the cleared cache is not the freshly constructed one. *)
Lemma lfu_clear_keeps_counter :
  ¬ (∀ n c0 k e c1,
       LfuCache.init n = Ok c0 → LfuCache.put k c0 = Ok (e, c1) →
       LfuCache.clear c1 = c0).
Proof.
  intros Hall.
  specialize (Hall 1 (LfuCache.mk [] 0 1) (PInt 1) PNone
                (LfuCache.mk [(PInt 1, (1, 1))] 1 1) eq_refl eq_refl).
  discriminate Hall.
Qed.

(** [RandCache.clear] leaves the contents of the array where they are. *)
Lemma rand_clear_keeps_array :
  ∃ c0 c1 g,
    RandCache.init 1 = Ok c0 ∧
    RandCache.put (H := ToyRandom.gen) (PInt 1) c0 0 = Ok (PNone, c1, g) ∧
    RandCache.a c0 = [PNone] ∧
    RandCache.a (RandCache.clear c1) = [PInt 1].
Proof. eexists _, _, _. split_and!; reflexivity. Qed.

(** The state [clear] leaves. The cache is empty: its size is 0, its
    [dump] is empty, [has] is false for every key, and the capacity is
    what it was. [LruCache.clear] and [FifoCache.clear] give the
    attributes the values the constructor gives them for that capacity;
    [LfuCache.clear] keeps the counter [t] and [RandCache.clear] keeps the
    array [a]. *)
Lemma clear_state (c : cache) :
  len (clear c) = 0 ∧
  dump (clear c) = Some [] ∧
  (∀ k, has k (clear c) = false) ∧
  maxlen (clear c) = maxlen c ∧
  match c with
  | Null c => NullCache.init 0 = Ok (NullCache.clear c)
  | Lru c =>
      match LruCache.init (LruCache._maxlen c) with
      | Ok c0 =>
          LruCache._cache (LruCache.clear c) = LruCache._cache c0 ∧
          LruCache.bottom (LruCache.clear c) = LruCache.bottom c0 ∧
          LruCache.top (LruCache.clear c) = LruCache.top c0 ∧
          LruCache._maxlen (LruCache.clear c) = LruCache._maxlen c0
      | Raise _ => LruCache._maxlen c ≤ 0
      end
  | Lfu c =>
      LfuCache._cache (LfuCache.clear c) = [] ∧
      LfuCache.t (LfuCache.clear c) = LfuCache.t c
  | Fifo c =>
      match FifoCache.init (FifoCache._maxlen c) with
      | Ok c0 => FifoCache.clear c = c0
      | Raise _ => FifoCache._maxlen c ≤ 0
      end
  | Rand c =>
      RandCache._cache (RandCache.clear c) = ∅ ∧
      RandCache.a (RandCache.clear c) = RandCache.a c
  end.
Proof.
  destruct c as [c|c|c|c|c]; cbn.
  - by destruct c.
  - unfold LruCache.len, LruCache.maxlen, LruCache.dump, LruCache.has,
      LruCache.init. cbn. rewrite map_size_empty.
    split_and!; try done.
    destruct (LruCache._maxlen c <=? 0) eqn:E; [bool_lia|done].
  - unfold LfuCache.len, LfuCache.maxlen. cbn. done.
  - unfold FifoCache.len, FifoCache.maxlen, FifoCache.has, FifoCache.init. cbn.
    rewrite size_empty. split_and!; try done.
    destruct (FifoCache._maxlen c <=? 0) eqn:E; [bool_lia|done].
  - unfold RandCache.len, RandCache.maxlen, RandCache.dump, RandCache.has. cbn.
    rewrite size_empty, elements_empty. split_and!; try done.
Qed.

(** *** The generator *)

(** C7 as stated fails: on a full [RandCache] holding the keys 1 and 2,
    [put(3)] evicts one key when it runs from a given state of the
    generator, and the other key when a wrapper has been constructed in
    between. *)
Lemma wrapper_construction_changes_rand_eviction :
  ¬ (∀ (c : cache) (p : Q) (seed : pyval) (ent g : Z) w g'
       (r : RandCache.inst) (k : pyval),
       rand_insert_cache (H := ToyRandom.gen) (ObjCache c) p seed ent g = Ok (w, g') →
       (λ x, x.1) <$> RandCache.put (H := ToyRandom.gen) k r g' =
       (λ x, x.1) <$> RandCache.put (H := ToyRandom.gen) k r g).
Proof.
  intros Hall.
  specialize (Hall (Null tt) 1%Q (PInt 0) 0 1 _ _
                (RandCache.mk {[PInt 1; PInt 2]} [PInt 1; PInt 2] 2) (PInt 3)
                eq_refl).
  vm_compute in Hall. discriminate Hall.
Qed.

(** C7, amended. There is one generator, the one of the module [random]:
    constructing a wrapper sets it to the state the seed gives (with the
    seed [None], a state taken from the system's entropy), whatever its
    state was; a call of the wrapper's [put] that does not reach a
    [RandCache] advances it by one draw of [random.random]; and
    [RandCache.put] advances it by one draw of [random.randint] when the
    key is absent and the cache full, and leaves it alone otherwise. *)
Theorem random_generator_is_shared `{RandomGen} :
  (∀ c p seed ent g w g',
     rand_insert_cache (ObjCache c) p seed ent g = Ok (w, g') →
     w = RandInsert.mk c p ∧ g' = seed_state seed ent) ∧
  (∀ k w g e w' g',
     rand_put k w g = Ok (e, w', g') →
     (∀ r, RandInsert.cache_ w ≠ Rand r) →
     g' = (random_random g).2) ∧
  (∀ k r g e r' g',
     RandCache.put k r g = Ok (e, r', g') →
     g' = if negb (RandCache.has k r) && (RandCache.len r =? RandCache._maxlen r)
          then (random_randint 0 (RandCache.maxlen r - 1) g).2
          else g).
Proof.
  split_and!.
  - intros c p seed ent g w g'. cbn.
    destruct (Qltb p 0 || Qltb 1 p); [done|]. by intros [= <- <-].
  - intros k w g e w' g'. unfold rand_put.
    destruct (random_random g) as [x g1]. cbn [snd].
    destruct (Qltb x (RandInsert.p w)); [|by intros [= <- <- <-]].
    destruct (RandInsert.cache_ w) as [c|c|c|c|c]; cbn.
    + by intros [= <- <- <-].
    + destruct (LruCache.put k c) as [[??]|]; [|done]. by intros [= <- <- <-].
    + destruct (LfuCache.put k c) as [[??]|]; [|done]. by intros [= <- <- <-].
    + destruct (FifoCache.put k c) as [[??]|]; [|done]. by intros [= <- <- <-].
    + intros _ Hr. by destruct (Hr c).
  - intros k r g e r' g'. unfold RandCache.put.
    destruct (RandCache.has k r); cbn [negb andb]; [by intros [= <- <- <-]|].
    destruct (_ =? _).
    + unfold randint. destruct (_ <? _); [done|].
      destruct (random_randint _ _ _) as [i g1]. cbn.
      destruct (np_getitem _ _); [|done]. cbn.
      destruct (np_setitem _ _ _); [|done]. cbn.
      destruct (set_remove _ _); [|done]. cbn.
      by intros [= <- <- <-].
    + destruct (np_setitem _ _ _); [|done]. cbn. by intros [= <- <- <-].
Qed.

Lemma random_generator_is_shared_witness :
  let full := RandCache.mk {[PInt 1; PInt 2]} [PInt 1; PInt 2] 2 in
  (∃ w g', rand_insert_cache (H := ToyRandom.gen) (ObjCache (Null tt)) 1 (PInt 5) 9 0
             = Ok (w, g') ∧
           w = RandInsert.mk (Null tt) 1 ∧ g' = 5) ∧
  (∃ e w' g', rand_put (H := ToyRandom.gen) (PInt 3) (RandInsert.mk (Null tt) 1) 1
                = Ok (e, w', g') ∧
              g' = ToyRandom.step 1) ∧
  (∃ e r' g', RandCache.put (H := ToyRandom.gen) (PInt 3) full 1 = Ok (e, r', g') ∧
              g' = ToyRandom.step 1).
Proof.
  intros full.
  destruct (random_generator_is_shared (H := ToyRandom.gen)) as (Hs & Hw & Hr).
  split_and!.
  - eexists _, _. split; [reflexivity|].
    apply (Hs (Null tt) 1%Q (PInt 5) 9 0). reflexivity.
  - eexists _, _, _. split; [reflexivity|].
    apply (Hw (PInt 3) (RandInsert.mk (Null tt) 1) 1 PNone (RandInsert.mk (Null tt) 1));
      [reflexivity|done].
  - eexists _, _, _. split; [reflexivity|].
    eapply (Hr (PInt 3) full 1). reflexivity.
Defined.

(** *** rand_insert_cache *)

Lemma Qltb_lt x y : Qltb x y = true ↔ (x < y)%Q.
Proof.
  unfold Qltb. rewrite negb_true_iff, <-not_true_iff_false, Qle_bool_iff.
  split; [apply Qnot_le_lt|apply Qlt_not_le].
Qed.

Section rand_insert.
Context `{RandomGen} `{!RandomGenLaws H}.

Lemma rand_put_p0 k c p g :
  (p == 0)%Q →
  rand_put k (RandInsert.mk c p) g = Ok (PNone, RandInsert.mk c p, (random_random g).2).
Proof.
  intros Hp. unfold rand_put. pose proof (random_range g) as [Hlo _].
  destruct (random_random g) as [x g1]. cbn in Hlo |- *.
  destruct (Qltb x p) eqn:E; [|done].
  apply Qltb_lt in E. rewrite Hp in E. by apply Qlt_not_le in E.
Qed.

Lemma rand_put_p1 k c p g :
  (p == 1)%Q →
  rand_put k (RandInsert.mk c p) g =
    '(e, c', g') ← put k c (random_random g).2; Ok (e, RandInsert.mk c' p, g').
Proof.
  intros Hp. unfold rand_put. pose proof (random_range g) as [_ Hhi].
  destruct (random_random g) as [x g1]. cbn in Hhi |- *.
  destruct (Qltb x p) eqn:E; [done|].
  apply not_true_iff_false in E. destruct E. apply Qltb_lt. by rewrite Hp.
Qed.

(** [put] on a cache that is not a [RandCache] does not look at the
    generator. *)
Lemma put_deterministic k c g1 g2 :
  (∀ r, c ≠ Rand r) →
  (λ x, (x.1.1, x.1.2)) <$> put k c g1 = (λ x, (x.1.1, x.1.2)) <$> put k c g2.
Proof.
  intros Hr. destruct c as [c|c|c|c|c]; cbn.
  - done.
  - by destruct (LruCache.put k c) as [[??]|].
  - by destruct (LfuCache.put k c) as [[??]|].
  - by destruct (FifoCache.put k c) as [[??]|].
  - by destruct (Hr c).
Qed.

Lemma put_not_rand k c g e c' g' :
  (∀ r, c ≠ Rand r) → put k c g = Ok (e, c', g') → ∀ r, c' ≠ Rand r.
Proof.
  intros Hr. destruct c as [c|c|c|c|c]; cbn.
  - by intros [= <- <- <-].
  - destruct (LruCache.put k c) as [[??]|]; [|done]. by intros [= <- <- <-].
  - destruct (LfuCache.put k c) as [[??]|]; [|done]. by intros [= <- <- <-].
  - destruct (FifoCache.put k c) as [[??]|]; [|done]. by intros [= <- <- <-].
  - by destruct (Hr c).
Qed.

Lemma rand_put_all_p0 ks c p g :
  (p == 0)%Q →
  ∃ g', rand_put_all ks (RandInsert.mk c p) g =
          Ok (replicate (length ks) PNone, RandInsert.mk c p, g').
Proof.
  intros Hp. revert g. induction ks as [|k ks IH]; intros g; cbn.
  - by eexists.
  - rewrite rand_put_p0 by done. cbn.
    destruct (IH (random_random g).2) as [g' ->]. cbn. by eexists.
Qed.

Lemma rand_put_all_p1 ks c p g :
  (p == 1)%Q →
  rand_put_all ks (RandInsert.mk c p) g =
    (λ x, (x.1.1, RandInsert.mk x.1.2 p, x.2)) <$> put_all_after_draw ks c g.
Proof.
  intros Hp. revert c g. induction ks as [|k ks IH]; intros c g; cbn; [done|].
  rewrite rand_put_p1 by done.
  destruct (put k c (random_random g).2) as [[[e c1] g1]|]; [|done]. cbn.
  rewrite IH.
  by destruct (put_all_after_draw ks c1 g1) as [[[es c2] g2]|].
Qed.

Lemma put_all_after_draw_deterministic ks c g g0 :
  (∀ r, c ≠ Rand r) →
  (λ x, (x.1.1, x.1.2)) <$> put_all_after_draw ks c g =
  (λ x, (x.1.1, x.1.2)) <$> put_all ks c g0.
Proof.
  revert c g g0. induction ks as [|k ks IH]; intros c g g0 Hr; cbn; [done|].
  pose proof (put_deterministic k c (random_random g).2 g0 Hr) as Hput.
  destruct (put k c (random_random g).2) as [[[e c1] g1]|] eqn:E1;
    destruct (put k c g0) as [[[e' c1'] g1']|] eqn:E2;
    cbn in Hput |- *; try congruence.
  injection Hput as -> ->.
  pose proof (put_not_rand _ _ _ _ _ _ Hr E2) as Hr'.
  specialize (IH c1' g1 g1' Hr').
  destruct (put_all_after_draw ks c1' g1) as [[[es c2] g2]|];
    destruct (put_all ks c1' g1') as [[[es' c2'] g2']|];
    cbn in IH |- *; congruence.
Qed.
End rand_insert.

(** C8. With [p = 0] every [put] of the wrapper returns [None] and leaves
    the cache as it is, whatever the keys. With [p = 1] every [put] of the
    wrapper is the [put] of the inner cache, run after the one draw the
    wrapper has made, and returns what it returns: a sequence of calls
    gives the return values and the cache that the unwrapped cache gives
    under the same draws, and, when the inner cache is not a [RandCache],
    that the unwrapped cache gives outright. The other methods of the
    wrapper are those of the cache it holds. *)
Theorem rand_insert_p0_p1 `{RandomGen} `{!RandomGenLaws H}
    (c : cache) (p : Q) (ks : list pyval) (g : gen_state) :
  ((p == 0)%Q →
   ∃ g', rand_put_all ks (RandInsert.mk c p) g =
           Ok (replicate (length ks) PNone, RandInsert.mk c p, g')) ∧
  ((p == 1)%Q →
   (∀ k, rand_put k (RandInsert.mk c p) g =
           '(e, c', g') ← put k c (random_random g).2;
           Ok (e, RandInsert.mk c' p, g')) ∧
   rand_put_all ks (RandInsert.mk c p) g =
     (λ x, (x.1.1, RandInsert.mk x.1.2 p, x.2)) <$> put_all_after_draw ks c g ∧
   ((∀ r, c ≠ Rand r) →
    ∀ g0, (λ x, (x.1.1, RandInsert.cache_ x.1.2)) <$>
            rand_put_all ks (RandInsert.mk c p) g =
          (λ x, (x.1.1, x.1.2)) <$> put_all ks c g0)).
Proof.
  split; [apply rand_put_all_p0|].
  intros Hp. split_and!.
  - intros k. by apply rand_put_p1.
  - by apply rand_put_all_p1.
  - intros Hr g0. rewrite rand_put_all_p1 by done.
    rewrite <-(put_all_after_draw_deterministic ks c g g0 Hr).
    by destruct (put_all_after_draw ks c g) as [[[es c2] g2]|].
Qed.

Lemma rand_insert_p0_p1_witness :
  let c := Fifo (FifoCache.mk {[PInt 1]} 1 [PInt 1]) in
  (∃ g', rand_put_all (H := ToyRandom.gen) [PInt 2; PInt 3] (RandInsert.mk c 0) 7 =
           Ok ([PNone; PNone], RandInsert.mk c 0, g')) ∧
  (λ x, (x.1.1, RandInsert.cache_ x.1.2)) <$>
    rand_put_all (H := ToyRandom.gen) [PInt 2; PInt 3] (RandInsert.mk c 1) 7 =
  (λ x, (x.1.1, x.1.2)) <$> put_all (H := ToyRandom.gen) [PInt 2; PInt 3] c 0.
Proof.
  intros c. split.
  - apply (rand_insert_p0_p1 (H := ToyRandom.gen) c 0 [PInt 2; PInt 3] 7).
    reflexivity.
  - apply (rand_insert_p0_p1 (H := ToyRandom.gen) c 1 [PInt 2; PInt 3] 7).
    + reflexivity.
    + by intros r.
Defined.


(** *** Caches that no sequence of calls tells apart *)

Section lfu_sim_lemmas.
Implicit Types (d : Z) (k : pyval) (l : list (pyval * (Z * Z))).

Lemma dict_lookup_shift d k l :
  dict_lookup k (shift_seq d <$> l) = (λ p, (p.1, p.2 + d)) <$> dict_lookup k l.
Proof.
  induction l as [|[k' [f s]] l IH]; csimpl; [done|].
  by case_decide.
Qed.

Lemma dict_set_shift d k f s l :
  dict_set k (f, s + d) (shift_seq d <$> l) = shift_seq d <$> dict_set k (f, s) l.
Proof.
  induction l as [|[k' [f' s']] l IH]; csimpl; [done|].
  case_decide; csimpl; [done|]. by rewrite IH.
Qed.

Lemma dict_del_shift d k l :
  dict_del k (shift_seq d <$> l) = shift_seq d <$> dict_del k l.
Proof.
  unfold dict_del. induction l as [|[k' [f' s']] l IH]; csimpl; [done|].
  destruct (decide (k' = k)) as [->|Hne].
  - rewrite !filter_cons_False by (cbn; tauto). done.
  - rewrite !filter_cons_True by done. csimpl. by rewrite IH.
Qed.

Lemma pair_lt_shift d (x y : pyval * (Z * Z)) :
  pair_lt (shift_seq d x).2 (shift_seq d y).2 = pair_lt x.2 y.2.
Proof.
  destruct x as [? [x1 x2]], y as [? [y1 y2]]. cbn.
  destruct (pair_lt (x1, x2 + d) (y1, y2 + d)) eqn:E1;
    destruct (pair_lt (x1, x2) (y1, y2)) eqn:E2; try done; bool_lia.
Qed.

Lemma min_loop_shift d best l :
  min_loop (shift_seq d best) (shift_seq d <$> l) = min_loop best l.
Proof.
  revert best. induction l as [|x l IH]; intros best; [done|].
  rewrite fmap_cons. cbn [min_loop].
  rewrite pair_lt_shift. destruct (pair_lt x.2 best.2); apply IH.
Qed.

Lemma py_min_shift d l : py_min (shift_seq d <$> l) = py_min l.
Proof.
  destruct l as [|x l]; [done|]. rewrite fmap_cons. cbn [py_min].
  by rewrite min_loop_shift.
Qed.

Lemma insert_desc_shift d x l :
  insert_desc (shift_seq d x) (shift_seq d <$> l) = shift_seq d <$> insert_desc x l.
Proof.
  induction l as [|y l IH]; [done|].
  rewrite fmap_cons. cbn [insert_desc].
  unfold pair_le. rewrite pair_lt_shift.
  destruct (pair_lt x.2 y.2); cbn [negb]; [|done].
  by rewrite fmap_cons, IH.
Qed.

Lemma py_sorted_rev_shift d l : py_sorted_rev (shift_seq d <$> l) = py_sorted_rev l.
Proof.
  unfold py_sorted_rev.
  assert (foldr insert_desc [] (shift_seq d <$> l) =
          shift_seq d <$> foldr insert_desc [] l) as ->.
  { induction l as [|x l IH]; [done|].
    rewrite fmap_cons. cbn [foldr]. by rewrite IH, insert_desc_shift. }
  rewrite <-list_fmap_compose. apply list_fmap_ext. by intros ? [? [??]].
Qed.
End lfu_sim_lemmas.

Section lfu_sim.
Import LfuCache.
Implicit Types (c : LfuCache.inst) (k : pyval).

Lemma lfu_sim_has c1 c2 k : lfu_sim c1 c2 → has k c1 = has k c2.
Proof.
  intros (d & Hc & _). unfold has. rewrite Hc, dict_lookup_shift.
  by destruct (dict_lookup k (_cache c1)).
Qed.

Lemma lfu_sim_len c1 c2 : lfu_sim c1 c2 → len c1 = len c2.
Proof. intros (d & Hc & _). unfold len. by rewrite Hc, length_fmap. Qed.

Lemma lfu_sim_dump c1 c2 : lfu_sim c1 c2 → dump c1 = dump c2.
Proof. intros (d & Hc & _). unfold dump. by rewrite Hc, py_sorted_rev_shift. Qed.

Lemma lfu_sim_get c1 c2 k :
  lfu_sim c1 c2 →
  match get k c1, get k c2 with
  | Ok (b1, c1'), Ok (b2, c2') => b1 = b2 ∧ lfu_sim c1' c2'
  | Raise e1, Raise e2 => e1 = e2
  | _, _ => False
  end.
Proof.
  intros Hsim. pose proof (lfu_sim_has _ _ k Hsim) as Hhas.
  pose proof Hsim as (d & Hc & Ht & Hm).
  unfold get. rewrite <-Hhas. destruct (has k c1); [|done].
  rewrite Hc, dict_lookup_shift.
  destruct (dict_lookup k (_cache c1)) as [[f s]|]; cbn; [|done].
  split; [done|]. exists d. cbn. by rewrite dict_set_shift.
Qed.

Lemma lfu_sim_put c1 c2 k :
  lfu_sim c1 c2 →
  match put k c1, put k c2 with
  | Ok (e1, c1'), Ok (e2, c2') => e1 = e2 ∧ lfu_sim c1' c2'
  | Raise e1, Raise e2 => e1 = e2
  | _, _ => False
  end.
Proof.
  intros Hsim. pose proof (lfu_sim_has _ _ k Hsim) as Hhas.
  pose proof Hsim as (d & Hc & Ht & Hm).
  unfold put. rewrite <-Hhas. destruct (has k c1); cbn [negb]; [done|].
  cbn [_cache t _maxlen]. unfold len. cbn [_cache].
  rewrite Hc, Ht, <-Hm.
  replace (1, t c1 + d + 1) with (1, (t c1 + 1) + d) by (f_equal; lia).
  rewrite dict_set_shift, length_fmap, py_min_shift.
  destruct (_ <? _).
  - destruct (py_min _) as [ev|]; cbn; [|done].
    split; [done|]. exists d. cbn. rewrite dict_del_shift. split_and!; [done|lia|done].
  - split; [done|]. exists d. cbn. split_and!; [done|lia|done].
Qed.

Lemma lfu_sim_clear c1 c2 : lfu_sim c1 c2 → lfu_sim (clear c1) (clear c2).
Proof. intros (d & Hc & Ht & Hm). by exists d. Qed.

(** A cleared cache and a new one. *)
Lemma lfu_sim_clear_new c : lfu_sim (mk [] 0 (_maxlen c)) (clear c).
Proof. exists (t c). cbn. split_and!; [done|lia|done]. Qed.
End lfu_sim.

Section rand_sim.
Import RandCache.
Context `{RandomGen}.
Implicit Types (c : RandCache.inst) (k : pyval) (g : gen_state).

Lemma rand_sim_put c1 c2 k g :
  rand_sim c1 c2 →
  match put k c1 g, put k c2 g with
  | Ok (e1, c1', g1), Ok (e2, c2', g2) => e1 = e2 ∧ g1 = g2 ∧ rand_sim c1' c2'
  | Raise e1, Raise e2 => e1 = e2
  | _, _ => False
  end.
Proof.
  intros (Hinv & Hc & Hm & Hl & Hpre).
  pose proof Hinv as (Hlen & Hpos & Hn & Hnd & Hmem).
  unfold put, has, len, maxlen. rewrite <-Hc, <-Hm.
  destruct (bool_decide (k ∈ _cache c1)) eqn:Hhas; cbn [negb].
  { split_and!; try done. }
  apply bool_decide_eq_false in Hhas.
  destruct (Z.of_nat (size (_cache c1)) =? _maxlen c1) eqn:Hfull.
  - (* full: the two arrays are the same *)
    apply Z.eqb_eq in Hfull.
    rewrite !take_ge in Hpre by lia.
    destruct c2 as [s2 a2 m2]. cbn in Hc, Hm, Hl, Hpre |- *. subst s2 a2 m2.
    destruct (randint 0 (_maxlen c1 - 1) g) as [[i g1]|]; [|done].
    cbn [mbind result_bind].
    unfold np_getitem, np_setitem.
    destruct (np_index (a c1) i) as [j|] eqn:Hj; [|done]. cbn [mbind result_bind].
    destruct (a c1 !! j) as [x|] eqn:Hx; [|done]. cbn [mbind result_bind].
    destruct (rand_evict_inv c1 k j x Hinv Hhas) as [Hxin Hinv']; [done|done|].
    unfold set_remove. rewrite bool_decide_eq_true_2 by done.
    cbn [mbind result_bind _cache a _maxlen].
    split_and!; try done.
  - (* not full: the key goes to the same slot of both *)
    apply Z.eqb_neq in Hfull.
    destruct (rand_fill_inv c1 k Hinv Hhas) as [Hlt Hinv']; [done|].
    unfold np_setitem.
    rewrite !np_index_in_range by lia. cbn [mbind result_bind _cache a _maxlen].
    rewrite Nat2Z.id. split_and!; try done.
    unfold rand_sim. cbn [_cache a _maxlen]. split_and!; try done.
    + by rewrite !length_insert.
    + rewrite size_union, size_singleton by set_solver.
      change (1 + size (_cache c1))%nat with (S (size (_cache c1))).
      rewrite !(take_S_r _ _ k) by (apply list_lookup_insert_eq; lia).
      rewrite !take_insert_ge by lia. by rewrite Hpre.
Qed.

Lemma rand_sim_clear c1 c2 : rand_sim c1 c2 → rand_sim (clear c1) (clear c2).
Proof.
  intros (Hinv & Hc & Hm & Hl & Hpre).
  split_and!; cbn; try done. by apply rand_clear_inv.
Qed.

(** A cleared cache and a new one. *)
Lemma rand_sim_clear_new c c0 :
  rand_inv c → init (_maxlen c) = Ok c0 → rand_sim c0 (clear c).
Proof.
  intros (Hlen & Hpos & _) Hinit.
  pose proof (rand_init_inv _ _ Hinit) as Hinv0.
  unfold init, np_empty in Hinit.
  destruct (_maxlen c <? 0); [done|]. cbn in Hinit.
  destruct (_maxlen c <=? 0); [done|]. injection Hinit as <-.
  split_and!; cbn; try done.
  rewrite length_replicate. lia.
Qed.
End rand_sim.

Lemma filter_ne_absent (k : pyval) (xs : list pyval) :
  k ∉ xs → filter (λ x, x ≠ k) xs = xs.
Proof.
  induction xs as [|x xs IH]; [done|].
  rewrite not_elem_of_cons. intros [Hne Hxs].
  rewrite filter_cons_True by done. by rewrite IH.
Qed.

Lemma filter_ne_middle (k : pyval) (xs ys : list pyval) :
  NoDup (xs ++ k :: ys) → filter (λ x, x ≠ k) (xs ++ k :: ys) = xs ++ ys.
Proof.
  intros (Hxs & Hk & [Hky Hys]%NoDup_cons)%NoDup_app.
  rewrite filter_app, filter_cons_False by tauto.
  rewrite !filter_ne_absent; [done|done|].
  intros Hin. apply (Hk _ Hin). left.
Qed.

Section lru_sim.
Import LruCache.
Implicit Types (c : LruCache.inst) (k : pyval) (l : list (ref * pyval)).

(** [get], on the keys of the list. *)
Lemma lru_get_keys c l k :
  lru_rep c l →
  ∃ c' l', get k c = Ok (has k c, c') ∧ lru_rep c' l' ∧
           _maxlen c' = _maxlen c ∧ l'.*2 = lru_keys_get k l.*2.
Proof.
  intros Hrep. unfold lru_keys_get. destruct (has k c) eqn:Hhas.
  - apply (lru_has_true c l k Hrep) in Hhas as Hin.
    rewrite bool_decide_eq_true_2 by done.
    apply list_elem_of_fmap in Hin as ([a k'] & Heq & Hin). cbn in Heq. subst k'.
    apply list_elem_of_split in Hin as (l1 & l2 & ->).
    pose proof Hrep as (_ & _ & _ & _ & Hndk & _).
    rewrite fmap_app, fmap_cons in Hndk |- *. cbn [snd] in Hndk |- *.
    rewrite filter_ne_middle by done.
    destruct l1 as [|x l1 _] using rev_ind.
    + exists c, ((a, k) :: l2). rewrite (lru_get_top c a k l2 Hrep). done.
    + destruct x as [u ku]. rewrite <-app_assoc in Hrep. cbn [app] in Hrep.
      destruct (lru_get_promote c l1 u ku a k l2 Hrep) as (c' & Hget & Hrep' & Hm).
      exists c', ((next_ref c, k) :: l1 ++ (u, ku) :: l2).
      split_and!; try done.
      rewrite fmap_cons, !fmap_app, fmap_cons. cbn [snd].
      by rewrite <-app_assoc.
  - apply (lru_has_false c l k Hrep) in Hhas as Hin.
    rewrite bool_decide_eq_false_2 by done.
    exists c, l. by rewrite lru_get_miss.
Qed.

(** [put], on the keys of the list. *)
Lemma lru_put_keys c l k :
  lru_rep c l → 0 < _maxlen c → len c ≤ _maxlen c →
  ∃ e c' l', put k c = Ok (e, c') ∧ lru_rep c' l' ∧
             _maxlen c' = _maxlen c ∧ len c' ≤ _maxlen c ∧
             (e, l'.*2) = lru_keys_put (_maxlen c) k l.*2.
Proof.
  intros Hrep Hpos Hlen. unfold lru_keys_put.
  pose proof (lru_rep_size _ _ Hrep) as Hsz. unfold len in *.
  destruct (has k c) eqn:Hhas.
  - apply (lru_has_true c l k Hrep) in Hhas as Hin.
    rewrite bool_decide_eq_true_2 by done.
    destruct (lru_get_keys c l k Hrep) as (c' & l' & Hget & Hrep' & Hm & Hk).
    unfold put, put_with. rewrite Hget, Hhas. cbn.
    exists PNone, c', l'. split_and!; try done; [|by rewrite Hk].
    rewrite (lru_rep_size _ _ Hrep'), <-(length_fmap snd), Hk.
    unfold lru_keys_get. rewrite bool_decide_eq_true_2 by done. cbn [length].
    pose proof (length_filter_lt (λ x, x ≠ k) l.*2 k Hin) as Hf.
    rewrite length_fmap in Hf. specialize (Hf ltac:(tauto)). lia.
  - apply (lru_has_false c l k Hrep) in Hhas as Hin.
    rewrite bool_decide_eq_false_2 by done. rewrite length_fmap.
    destruct (Z.of_nat (length l) + 1 <=? _maxlen c) eqn:Hfit.
    + destruct (lru_put_fit c l k Hrep Hhas) as (c' & Hput & Hrep' & Hm);
        [unfold len; bool_lia|].
      exists PNone, c', ((next_ref c, k) :: l). split_and!; try done.
      rewrite (lru_rep_size _ _ Hrep'). cbn [length]. bool_lia.
    + destruct l as [|[b kb] l0 _] using rev_ind; [cbn in Hfit; bool_lia|].
      destruct (lru_put_evict c l0 b kb k Hrep Hhas) as (c' & Hput & Hrep' & Hm);
        [unfold len; bool_lia|].
      exists kb, c', ((next_ref c, k) :: l0). split_and!; try done.
      * rewrite (lru_rep_size _ _ Hrep'). rewrite length_app in Hsz. cbn in Hsz |- *. lia.
      * rewrite fmap_app.
        change (snd <$> [(b, kb)]) with [kb].
        by rewrite last_snoc, removelast_last.
Qed.

Lemma lru_sim_has c1 c2 k : lru_sim c1 c2 → has k c1 = has k c2.
Proof.
  intros (l1 & l2 & Hr1 & Hr2 & Hk & _).
  destruct (has k c2) eqn:E.
  - apply (lru_has_true _ _ _ Hr1). rewrite Hk. by apply (lru_has_true _ _ _ Hr2).
  - apply (lru_has_false _ _ _ Hr1). rewrite Hk. by apply (lru_has_false _ _ _ Hr2).
Qed.

Lemma lru_sim_len c1 c2 : lru_sim c1 c2 → len c1 = len c2.
Proof.
  intros (l1 & l2 & Hr1 & Hr2 & Hk & _). unfold len.
  rewrite (lru_rep_size _ _ Hr1), (lru_rep_size _ _ Hr2).
  by rewrite <-(length_fmap snd l1), Hk, length_fmap.
Qed.

Lemma lru_sim_dump c1 c2 : lru_sim c1 c2 → dump c1 = dump c2.
Proof.
  intros (l1 & l2 & Hr1 & Hr2 & Hk & _).
  by rewrite (lru_dump_rep _ _ Hr1), (lru_dump_rep _ _ Hr2), Hk.
Qed.

Lemma lru_sim_get c1 c2 k :
  lru_sim c1 c2 →
  match get k c1, get k c2 with
  | Ok (b1, c1'), Ok (b2, c2') => b1 = b2 ∧ lru_sim c1' c2'
  | Raise e1, Raise e2 => e1 = e2
  | _, _ => False
  end.
Proof.
  intros Hsim. pose proof (lru_sim_has _ _ k Hsim) as Hhas.
  pose proof (lru_sim_len _ _ Hsim) as Hlen.
  destruct Hsim as (l1 & l2 & Hr1 & Hr2 & Hk & Hm & Hpos & Hle).
  destruct (lru_get_keys c1 l1 k Hr1) as (c1' & l1' & -> & Hr1' & Hm1 & Hk1).
  destruct (lru_get_keys c2 l2 k Hr2) as (c2' & l2' & -> & Hr2' & Hm2 & Hk2).
  split; [done|]. exists l1', l2'. split_and!; try done.
  - by rewrite Hk1, Hk2, Hk.
  - lia.
  - lia.
  - unfold len in *. rewrite (lru_rep_size _ _ Hr1'), <-(length_fmap snd), Hk1, Hm1.
    rewrite (lru_rep_size _ _ Hr1), <-(length_fmap snd l1) in Hle.
    unfold lru_keys_get. case_bool_decide as Hin; [|done]. cbn [length].
    pose proof (length_filter_lt (λ x, x ≠ k) l1.*2 k Hin) as Hf.
    specialize (Hf ltac:(tauto)). lia.
Qed.

Lemma lru_sim_put c1 c2 k :
  lru_sim c1 c2 →
  match put k c1, put k c2 with
  | Ok (e1, c1'), Ok (e2, c2') => e1 = e2 ∧ lru_sim c1' c2'
  | Raise e1, Raise e2 => e1 = e2
  | _, _ => False
  end.
Proof.
  intros Hsim. pose proof (lru_sim_len _ _ Hsim) as Hlen.
  destruct Hsim as (l1 & l2 & Hr1 & Hr2 & Hk & Hm & Hpos & Hle).
  destruct (lru_put_keys c1 l1 k Hr1 Hpos Hle)
    as (e1 & c1' & l1' & -> & Hr1' & Hm1 & Hle1 & Hk1).
  destruct (lru_put_keys c2 l2 k Hr2)
    as (e2 & c2' & l2' & -> & Hr2' & Hm2 & Hle2 & Hk2); [lia|lia|].
  rewrite <-Hk, <-Hm, <-Hk1 in Hk2. injection Hk2 as -> Hk2.
  split; [done|]. exists l1', l2'. split_and!; try done; lia.
Qed.

Lemma lru_clear_rep c l : lru_rep c l → lru_rep (clear c) [].
Proof.
  intros (_ & _ & _ & _ & _ & _ & Hfresh).
  unfold lru_rep, clear. cbn.
  split_and!; try done; try apply NoDup_nil_2.
  intros k a. rewrite lookup_empty, elem_of_nil. naive_solver.
Qed.

Lemma lru_sim_clear c1 c2 : lru_sim c1 c2 → lru_sim (clear c1) (clear c2).
Proof.
  intros (l1 & l2 & Hr1 & Hr2 & Hk & Hm & Hpos & Hle).
  exists [], []. split_and!; try done; try by eapply lru_clear_rep.
  unfold len, clear. cbn. rewrite map_size_empty. lia.
Qed.

(** A cleared cache and a new one. *)
Lemma lru_sim_clear_new c c0 :
  lru_inv c → init (_maxlen c) = Ok c0 → lru_sim c0 (clear c).
Proof.
  intros (l & Hrep & Hpos & Hle) Hinit.
  destruct (lru_init_inv _ _ Hinit) as (l0 & Hrep0 & Hpos0 & Hle0).
  unfold init in Hinit. cbn in Hinit.
  destruct (_maxlen c <=? 0); [done|]. injection Hinit as <-.
  exists [], []. split_and!; try done; try by eapply lru_clear_rep.
  unfold lru_rep. cbn. split_and!; try done; try apply NoDup_nil_2.
  - intros k a. rewrite lookup_empty, elem_of_nil. naive_solver.
  - intros a [x Hx]. by rewrite lookup_empty in Hx.
Qed.
End lru_sim.

(** Related caches give the same answer to every call, and stay
    related. *)
Section cache_sim.
Context `{RandomGen}.

Lemma cache_sim_call m c1 c2 g :
  cache_sim c1 c2 →
  match call_method m c1 g, call_method m c2 g with
  | Ok (a1, c1', g1), Ok (a2, c2', g2) => a1 = a2 ∧ g1 = g2 ∧ cache_sim c1' c2'
  | Raise e1, Raise e2 => e1 = e2
  | _, _ => False
  end.
Proof.
  intros Hsim.
  destruct c1 as [c1|c1|c1|c1|c1], c2 as [c2|c2|c2|c2|c2]; try done.
  - (* NullCache *)
    destruct m; cbn; done.
  - (* LruCache *)
    cbn in Hsim. destruct m; cbn [call_method len maxlen has get put dump clear].
    + rewrite (lru_sim_len _ _ Hsim). by split_and!.
    + destruct Hsim as (l1 & l2 & Hr1 & Hr2 & Hk & Hm & Hrest).
      unfold LruCache.maxlen. rewrite Hm. split_and!; try done. by exists l1, l2.
    + rewrite (lru_sim_has _ _ k Hsim). by split_and!.
    + pose proof (lru_sim_get _ _ k Hsim) as Hget.
      destruct (LruCache.get k c1) as [[??]|], (LruCache.get k c2) as [[??]|];
        try done. cbn [mbind result_bind]. destruct Hget as [-> ?]. by split_and!.
    + pose proof (lru_sim_put _ _ k Hsim) as Hput.
      destruct (LruCache.put k c1) as [[??]|], (LruCache.put k c2) as [[??]|];
        try done. cbn [mbind result_bind]. destruct Hput as [-> ?]. by split_and!.
    + rewrite (lru_sim_dump _ _ Hsim). by split_and!.
    + split_and!; try done. by apply lru_sim_clear.
  - (* LfuCache *)
    cbn in Hsim. destruct m; cbn [call_method len maxlen has get put dump clear].
    + rewrite (lfu_sim_len _ _ Hsim). by split_and!.
    + destruct Hsim as (d & Hc & Ht & Hm).
      unfold LfuCache.maxlen. rewrite Hm. split_and!; try done. by exists d.
    + rewrite (lfu_sim_has _ _ k Hsim). by split_and!.
    + pose proof (lfu_sim_get _ _ k Hsim) as Hget.
      destruct (LfuCache.get k c1) as [[??]|], (LfuCache.get k c2) as [[??]|];
        try done. cbn [mbind result_bind]. destruct Hget as [-> ?]. by split_and!.
    + pose proof (lfu_sim_put _ _ k Hsim) as Hput.
      destruct (LfuCache.put k c1) as [[??]|], (LfuCache.put k c2) as [[??]|];
        try done. cbn [mbind result_bind]. destruct Hput as [-> ?]. by split_and!.
    + rewrite (lfu_sim_dump _ _ Hsim). by split_and!.
    + split_and!; try done. by apply lfu_sim_clear.
  - (* FifoCache *)
    cbn in Hsim. subst c2. destruct m; cbn; try done.
    destruct (FifoCache.put k c1) as [[??]|]; cbn; done.
  - (* RandCache *)
    cbn in Hsim. pose proof Hsim as (Hinv & Hc & Hm & Hl & Hpre).
    destruct m; cbn [call_method len maxlen has get put dump clear].
    + unfold RandCache.len. rewrite Hc. by split_and!.
    + unfold RandCache.maxlen. rewrite Hm. by split_and!.
    + unfold RandCache.has. rewrite Hc. by split_and!.
    + unfold RandCache.get, RandCache.has. cbn [mbind result_bind].
      rewrite Hc. by split_and!.
    + pose proof (rand_sim_put _ _ k g Hsim) as Hput.
      destruct (RandCache.put k c1 g) as [[[??]?]|],
        (RandCache.put k c2 g) as [[[??]?]|]; try done.
      cbn [mbind result_bind]. destruct Hput as (-> & -> & ?). by split_and!.
    + unfold RandCache.dump. rewrite Hc. by split_and!.
    + split_and!; try done. by apply rand_sim_clear.
Qed.

Lemma cache_sim_trace ms c1 c2 g :
  cache_sim c1 c2 → trace ms c1 g = trace ms c2 g.
Proof.
  revert c1 c2 g. induction ms as [|m ms IH]; intros c1 c2 g Hsim; cbn; [done|].
  pose proof (cache_sim_call m c1 c2 g Hsim) as Hcall.
  destruct (call_method m c1 g) as [[[a1 c1'] g1]|],
    (call_method m c2 g) as [[[a2 c2'] g2]|]; try done.
  - destruct Hcall as (-> & -> & Hsim'). f_equal. by apply IH.
  - by subst.
Qed.

(** A cleared cache is related to the new cache of the same class and
    capacity. *)
Lemma cache_sim_clear_new c c0 :
  cache_inv c → new_cache (policy_of c) (maxlen c) = Ok c0 →
  cache_sim c0 (clear c).
Proof.
  destruct c as [c|c|c|c|c]; cbn.
  - by intros _ [= <-].
  - intros Hinv. destruct (LruCache.init _) as [c1|] eqn:E; [|done].
    intros [= <-]. by apply lru_sim_clear_new.
  - intros Hinv. unfold LfuCache.init, LfuCache.maxlen. cbn.
    destruct (_ <=? _); [done|]. intros [= <-]. apply lfu_sim_clear_new.
  - intros Hinv. unfold FifoCache.init, FifoCache.maxlen. cbn.
    destruct (_ <=? _); [done|]. by intros [= <-].
  - intros Hinv. destruct (RandCache.init _) as [c1|] eqn:E; [|done].
    intros [= <-]. by apply rand_sim_clear_new.
Qed.
End cache_sim.

(** C4, amended. In every reachable state, of every policy, [clear] leaves
    the cache empty (size 0, empty [dump], [has] false for every key) with
    the capacity it had, and no sequence of calls tells it from the cache
    the constructor returns for that capacity: the answers are the same,
    one by one. As to the state, [LruCache.clear] and [FifoCache.clear]
    give the attributes the values the constructor gives them, while
    [LfuCache.clear] keeps the counter [t] and [RandCache.clear] keeps the
    array [a]. *)
Theorem clear_empties `{RandomGen} (c : cache) :
  reachable c →
  len (clear c) = 0 ∧
  dump (clear c) = Some [] ∧
  (∀ k, has k (clear c) = false) ∧
  maxlen (clear c) = maxlen c ∧
  (∃ c0, new_cache (policy_of c) (maxlen c) = Ok c0 ∧
         ∀ ms g, trace ms (clear c) g = trace ms c0 g) ∧
  match c with
  | Null c => NullCache.init 0 = Ok (NullCache.clear c)
  | Lru c =>
      match LruCache.init (LruCache._maxlen c) with
      | Ok c0 =>
          LruCache._cache (LruCache.clear c) = LruCache._cache c0 ∧
          LruCache.bottom (LruCache.clear c) = LruCache.bottom c0 ∧
          LruCache.top (LruCache.clear c) = LruCache.top c0 ∧
          LruCache._maxlen (LruCache.clear c) = LruCache._maxlen c0
      | Raise _ => LruCache._maxlen c ≤ 0
      end
  | Lfu c =>
      LfuCache._cache (LfuCache.clear c) = [] ∧
      LfuCache.t (LfuCache.clear c) = LfuCache.t c
  | Fifo c =>
      match FifoCache.init (FifoCache._maxlen c) with
      | Ok c0 => FifoCache.clear c = c0
      | Raise _ => FifoCache._maxlen c ≤ 0
      end
  | Rand c =>
      RandCache._cache (RandCache.clear c) = ∅ ∧
      RandCache.a (RandCache.clear c) = RandCache.a c
  end.
Proof.
  intros Hreach. apply reachable_inv in Hreach as Hinv.
  destruct (clear_state c) as (Hlen & Hdump & Hhas & Hm & Hst).
  split_and!; try done.
  assert (∃ c0, new_cache (policy_of c) (maxlen c) = Ok c0) as [c0 Hnew].
  { destruct c as [c|c|c|c|c]; cbn in Hinv |- *.
    - by eexists.
    - destruct Hinv as (l & _ & Hpos & _).
      unfold LruCache.init, LruCache.maxlen. cbn.
      destruct (_ <=? _) eqn:E; [bool_lia|by eexists].
    - destruct Hinv as (_ & _ & _ & Hpos & _).
      unfold LfuCache.init, LfuCache.maxlen. cbn.
      destruct (_ <=? _) eqn:E; [bool_lia|by eexists].
    - destruct Hinv as (_ & _ & Hpos & _).
      unfold FifoCache.init, FifoCache.maxlen. cbn.
      destruct (_ <=? _) eqn:E; [bool_lia|by eexists].
    - destruct Hinv as (_ & Hpos & _).
      unfold RandCache.init, RandCache.maxlen, np_empty. cbn.
      destruct (_ <? _) eqn:E0; [bool_lia|]. cbn.
      destruct (_ <=? _) eqn:E; [bool_lia|by eexists]. }
  exists c0. split; [done|]. intros ms g. symmetry.
  apply cache_sim_trace. by apply cache_sim_clear_new.
Qed.

Lemma clear_empties_witness :
  let c := Lfu (LfuCache.mk [(PInt 5, (1, 1))] 1 1) in
  len (clear c) = 0 ∧ dump (clear c) = Some [] ∧
  (∀ k, has k (clear c) = false) ∧ maxlen (clear c) = 1 ∧
  (∃ c0, new_cache LFU 1 = Ok c0 ∧
         ∀ ms g, trace (H := ToyRandom.gen) ms (clear c) g = trace ms c0 g) ∧
  LfuCache._cache (LfuCache.clear (LfuCache.mk [(PInt 5, (1, 1))] 1 1)) = [] ∧
  LfuCache.t (LfuCache.clear (LfuCache.mk [(PInt 5, (1, 1))] 1 1)) = 1.
Proof.
  apply (clear_empties (H := ToyRandom.gen) (Lfu (LfuCache.mk [(PInt 5, (1, 1))] 1 1))).
  eapply (reach_put (H := ToyRandom.gen) (PInt 5) (Lfu (LfuCache.mk [] 0 1)) 0).
  - by apply (reach_new LFU 1).
  - reflexivity.
Defined.
(** ** Further properties of the classes *)

(** *** The resident keys, and what [get] and [put] do to them *)

Lemma bool_eq_iff (b1 b2 : bool) : (b1 = true ↔ b2 = true) → b1 = b2.
Proof. destruct b1, b2; intros [H1 H2]; auto. by symmetry; auto. Qed.

Lemma insert_desc_perm x l : insert_desc x l ≡ₚ x :: l.
Proof.
  induction l as [|y l IH]; cbn; [done|].
  destruct (pair_le _ _); [done|]. rewrite IH. apply Permutation_swap.
Qed.

Lemma sorted_entries_perm d : foldr insert_desc [] d ≡ₚ d.
Proof.
  induction d as [|x d IH]; cbn; [done|]. by rewrite insert_desc_perm, IH.
Qed.

Lemma set_size_list (s : gset pyval) (l : list pyval) :
  NoDup l → (∀ k, k ∈ s ↔ k ∈ l) → size s = length l.
Proof.
  intros Hnd Hl. assert (s = list_to_set l) as -> by set_solver.
  by apply size_list_to_set.
Qed.

Lemma fifo_inv_size c : fifo_inv c → size (FifoCache._cache c) = length (FifoCache.d c).
Proof. intros (Hnd & Hmem & _). by apply set_size_list. Qed.

(** [dump] returns, and lists the resident keys, each once. *)
Lemma dump_spec c :
  cache_inv c →
  ∃ l, dump c = Some l ∧ NoDup l ∧ (∀ k, k ∈ l ↔ has k c = true) ∧
       Z.of_nat (length l) = len c.
Proof.
  destruct c as [c|c|c|c|c]; cbn.
  - intros _. exists []. split_and!; [done|constructor| |done].
    intros k. unfold NullCache.has. split; [by intros ?%elem_of_nil|done].
  - intros (l & Hrep & _). exists l.*2. split_and!.
    + by apply lru_dump_rep.
    + apply Hrep.
    + intros k. symmetry. by apply lru_has_true.
    + unfold LruCache.len. by rewrite (lru_rep_size _ _ Hrep), length_fmap.
  - intros (Hnd & _). exists (LfuCache.dump c).
    unfold LfuCache.dump, py_sorted_rev, LfuCache.len.
    split_and!; [done|by rewrite sorted_entries_perm| |].
    + intros k. rewrite sorted_entries_perm. symmetry. apply lfu_has_true.
    + by rewrite length_fmap, sorted_entries_perm.
  - intros Hinv. pose proof (fifo_inv_size c Hinv) as Hsz.
    destruct Hinv as (Hnd & Hmem & _). exists (FifoCache.d c).
    unfold FifoCache.dump, FifoCache.has, FifoCache.len.
    split_and!; [done|done| |by rewrite Hsz].
    intros k. by rewrite bool_decide_eq_true, Hmem.
  - intros _. exists (elements (RandCache._cache c)).
    unfold RandCache.dump, RandCache.has, RandCache.len.
    split_and!; [done|apply NoDup_elements| |done].
    intros k. by rewrite bool_decide_eq_true, elem_of_elements.
Qed.

(** [get] returns what [has] returns, keeps the resident keys, and leaves
    the object as it is when the key is absent. *)
Lemma get_effect k c :
  cache_inv c →
  ∃ c', get k c = Ok (has k c, c') ∧ cache_inv c' ∧
        (∀ x, has x c' = has x c) ∧ len c' = len c ∧
        maxlen c' = maxlen c ∧ policy_of c' = policy_of c ∧
        (has k c = false → c' = c).
Proof.
  destruct c as [c|c|c|c|c]; cbn.
  - intros _. exists (Null c). by split_and!.
  - intros (l & Hrep & Hpos & Hlen).
    destruct (lru_get_keys c l k Hrep) as (c' & l' & Hget & Hrep' & Hm & Hks).
    destruct (lru_get_spec c l k Hrep) as (c2 & l2 & Hget2 & Hrep2 & _ & Hl2 & _ & Hmiss).
    rewrite Hget in Hget2. injection Hget2 as <-.
    assert (LruCache.len c' = LruCache.len c) as Hlen'.
    { unfold LruCache.len.
      by rewrite (lru_rep_size _ _ Hrep2), (lru_rep_size _ _ Hrep), Hl2. }
    exists (Lru c'). rewrite Hget. cbn. split_and!; try done.
    + exists l'. split_and!; [done|by rewrite Hm|]. rewrite Hlen', Hm. done.
    + intros x. apply bool_eq_iff.
      rewrite (lru_has_true c' l' x Hrep'), (lru_has_true c l x Hrep), Hks.
      unfold lru_keys_get. case_bool_decide as Hk; [|done].
      rewrite elem_of_cons, list_elem_of_filter.
      destruct (decide (x = k)) as [->|]; naive_solver.
    + intros Hh. by rewrite (Hmiss Hh).
  - intros Hinv. unfold LfuCache.get.
    destruct (LfuCache.has k c) eqn:Hh; [|exists (Lfu c); by split_and!].
    pose proof Hh as Hh'. unfold LfuCache.has in Hh'.
    apply bool_decide_eq_true in Hh' as [[f s] Hlk]. rewrite Hlk.
    eexists (Lfu _). cbn. split_and!; try done.
    + apply (lfu_get_inv k c true); [done|].
      unfold LfuCache.get. by rewrite Hh, Hlk.
    + intros x. apply bool_eq_iff. rewrite !lfu_has_true. cbn.
      by rewrite dict_set_keys.
    + unfold LfuCache.len. cbn. by rewrite dict_set_length.
  - intros Hinv. exists (Fifo c). by split_and!.
  - intros Hinv. exists (Rand c). by split_and!.
Qed.

Lemma removelast_snoc {A} (l : list A) (x : A) : removelast (l ++ [x]) = l.
Proof. by rewrite removelast_app, app_nil_r. Qed.

(** What [put] does to the resident keys, for the four replacement
    policies: nothing but a promotion when the key is resident; the key
    is added when there is room; and when the cache is full the key is
    added and one key, which [put] returns, is removed. *)
Lemma put_effect `{RandomGen} k c g e c' g' :
  cache_inv c → policy_of c ≠ NULL → put k c g = Ok (e, c', g') →
  cache_inv c' ∧ maxlen c' = maxlen c ∧ policy_of c' = policy_of c ∧
  ((has k c = true ∧ e = PNone ∧ (∀ x, has x c' = has x c) ∧ len c' = len c) ∨
   (has k c = false ∧ len c < maxlen c ∧ e = PNone ∧
    (∀ x, has x c' = true ↔ x = k ∨ has x c = true) ∧ len c' = len c + 1) ∨
   (has k c = false ∧ len c = maxlen c ∧ (e = k ∨ has e c = true) ∧
    (∀ x, has x c' = true ↔ (x = k ∨ has x c = true) ∧ x ≠ e) ∧
    len c' = len c)).
Proof.
  intros Hinv Hpol Hput.
  pose proof (put_inv _ _ _ _ _ _ Hinv Hput) as Hinv'.
  pose proof (put_maxlen _ _ _ _ _ _ Hinv Hput) as Hm.
  split_and!; [done|done| |].
  { destruct c as [c|c|c|c|c]; cbn in Hput;
      repeat match type of Hput with
             | context [mbind _ ?m] => destruct m as [[[??]?]|] eqn:?; cbn in Hput
             | context [mbind _ ?m] => destruct m as [[??]|] eqn:?; cbn in Hput
             end; by simplify_eq. }
  destruct c as [c|c|c|c|c]; [done|..]; cbn in Hput, Hinv |- *.
  - (* LruCache *)
    destruct Hinv as (l & Hrep & Hpos & Hlen).
    destruct (lru_put_keys c l k Hrep Hpos Hlen)
      as (e0 & c0 & l' & Hput0 & Hrep' & Hm' & Hlen' & Hks).
    rewrite Hput0 in Hput. cbn in Hput. injection Hput as <- <- <-. cbn.
    pose proof (lru_rep_size _ _ Hrep) as Hsz.
    pose proof (lru_rep_size _ _ Hrep') as Hsz'.
    assert (NoDup l.*2) as Hnd by apply Hrep.
    unfold LruCache.len, LruCache.maxlen in *.
    unfold lru_keys_put in Hks. rewrite length_fmap in Hks.
    case_bool_decide as Hk.
    + left. injection Hks as -> Hks.
      assert (LruCache.has k c = true) as Hh by by apply (lru_has_true c l).
      split_and!; [done|done| |].
      * intros x. apply bool_eq_iff.
        rewrite (lru_has_true c0 l' x Hrep'), (lru_has_true c l x Hrep), Hks.
        unfold lru_keys_get. rewrite bool_decide_true by done.
        rewrite elem_of_cons, list_elem_of_filter.
        destruct (decide (x = k)) as [->|]; naive_solver.
      * rewrite Hsz, Hsz'. f_equal.
        rewrite <-(length_fmap snd l'), Hks, <-(length_fmap snd l).
        unfold lru_keys_get. rewrite bool_decide_true by done.
        apply list_elem_of_split in Hk as (l1 & l2 & Hl).
        rewrite Hl in Hnd |- *. rewrite (filter_ne_middle k l1 l2 Hnd).
        cbn. rewrite !length_app. cbn. lia.
    + assert (LruCache.has k c = false) as Hh by by apply (lru_has_false c l).
      right. destruct (_ <=? _) eqn:E.
      * left. injection Hks as -> Hks.
        split_and!; [done|bool_lia|done| |].
        -- intros x.
           rewrite (lru_has_true c0 l' x Hrep'), (lru_has_true c l x Hrep), Hks.
           by rewrite elem_of_cons.
        -- rewrite Hsz'. rewrite <-(length_fmap snd l'), Hks. cbn.
           rewrite length_fmap. lia.
      * right. injection Hks as He Hks.
        assert (l.*2 ≠ []) as Hne.
        { intros Hnil. apply (f_equal length) in Hnil.
          rewrite length_fmap in Hnil. cbn in Hnil. bool_lia. }
        destruct (exists_last Hne) as (ks0 & kl & Hl).
        rewrite Hl, last_snoc in He. cbn in He. subst e0.
        rewrite Hl, removelast_snoc in Hks.
        rewrite Hl in Hnd. apply NoDup_app in Hnd as (Hnd0 & Hdisj & _).
        assert (kl ∉ ks0) as Hkl.
        { intros Hin. apply (Hdisj _ Hin). by apply list_elem_of_singleton. }
        assert (kl ∈ l.*2) as Hin.
        { rewrite Hl. apply elem_of_app. right. by apply list_elem_of_singleton. }
        split_and!; [done|bool_lia| | |].
        -- right. by apply (lru_has_true c l).
        -- intros x.
           rewrite (lru_has_true c0 l' x Hrep'), (lru_has_true c l x Hrep), Hks.
           rewrite elem_of_cons, Hl, elem_of_app, list_elem_of_singleton.
           assert (k ≠ kl) by (intros ->; done).
           destruct (decide (x = kl)) as [->|]; naive_solver.
        -- rewrite Hsz', Hsz. f_equal.
           rewrite <-(length_fmap snd l'), Hks, <-(length_fmap snd l), Hl.
           rewrite length_app. cbn. lia.
  - (* LfuCache *)
    destruct (LfuCache.put k c) as [[e0 c0]|] eqn:Hput0; [|done].
    cbn in Hput. injection Hput as <- <- <-. cbn.
    destruct (LfuCache.has k c) eqn:Hh.
    + left. rewrite (lfu_put_present k c Hh) in Hput0.
      injection Hput0 as <- <-. by split_and!.
    + right. rewrite (lfu_put_absent k c Hh) in Hput0. cbn zeta in Hput0.
      destruct Hinv as (Hnd & _ & _ & Hpos & Hlen).
      unfold LfuCache.len, LfuCache.maxlen in *.
      pose proof Hh as Hk. apply lfu_has_false in Hk.
      rewrite length_app in Hput0. cbn [length] in Hput0.
      destruct (_ <? _) eqn:E.
      * right.
        set (entries := LfuCache._cache c ++ [(k, (1, LfuCache.t c + 1))]) in *.
        assert (NoDup entries.*1) as Hnd'.
        { unfold entries. rewrite fmap_app. apply NoDup_app. split_and!; [done| |].
          - intros x Hx [->|[]%elem_of_nil]%elem_of_cons. done.
          - cbn. apply NoDup_singleton. }
        destruct (py_min entries) as [e1|] eqn:Hmin; [|done].
        cbn [mbind result_bind] in Hput0. injection Hput0 as <- <-.
        assert (e1 ∈ entries.*1) as Hin.
        { unfold py_min in Hmin. destruct entries as [|x0 rest]; [done|].
          injection Hmin as <-.
          destruct (min_loop_spec x0 rest) as (p & Hp & _).
          exact (list_elem_of_fmap_2 fst _ _ Hp). }
        assert (∀ x, x ∈ entries.*1 ↔ x = k ∨ x ∈ (LfuCache._cache c).*1) as Hmem.
        { intros x. unfold entries. rewrite fmap_app, elem_of_app. cbn.
          rewrite list_elem_of_singleton. naive_solver. }
        split_and!; [done|bool_lia| | |].
        -- apply Hmem in Hin as [?|?]; [by left|right]. by apply lfu_has_true.
        -- intros x. rewrite !lfu_has_true. cbn [LfuCache._cache].
           rewrite dict_del_keys, list_elem_of_filter, Hmem. naive_solver.
        -- cbn [LfuCache._cache].
           pose proof (dict_del_length e1 entries Hnd' Hin) as Hl.
           unfold entries in Hl at 2. rewrite length_app in Hl. cbn in Hl. lia.
      * left. injection Hput0 as <- <-.
        split_and!; [done|bool_lia|done| |].
        -- intros x. rewrite !lfu_has_true. cbn.
           rewrite fmap_app, elem_of_app. cbn. rewrite list_elem_of_singleton.
           naive_solver.
        -- cbn. rewrite length_app. cbn. lia.
  - (* FifoCache *)
    destruct (FifoCache.put k c) as [[e0 c0]|] eqn:Hput0; [|done].
    cbn in Hput. injection Hput as <- <- <-. cbn.
    rewrite (fifo_put_spec k c Hinv) in Hput0.
    pose proof (fifo_inv_size c Hinv) as Hsz.
    destruct Hinv as (Hnd & Hmem & Hpos & Hlen).
    unfold FifoCache.len, FifoCache.maxlen, FifoCache.has in *.
    case_bool_decide as Hk.
    + left. injection Hput0 as <- <-. by split_and!.
    + right. destruct (_ <? _) eqn:E.
      * left. injection Hput0 as <- <-. cbn.
        split_and!; [done|bool_lia|done| |].
        -- intros x. rewrite !bool_decide_eq_true. set_solver.
        -- rewrite size_union by set_solver. rewrite size_singleton. lia.
      * right. destruct (last (FifoCache.d c)) as [x|] eqn:Hl.
        2:{ apply last_None in Hl. rewrite Hl in Hsz. cbn in Hsz. bool_lia. }
        injection Hput0 as <- <-. cbn.
        assert (x ∈ FifoCache._cache c) as Hx.
        { apply Hmem. by apply last_Some_elem_of. }
        split_and!; [done|bool_lia| | |].
        -- right. by apply bool_decide_eq_true.
        -- intros y. rewrite !bool_decide_eq_true. set_solver.
        -- rewrite size_difference by set_solver.
           rewrite size_union by set_solver. rewrite !size_singleton. lia.
  - (* RandCache *)
    destruct (RandCache.put k c g) as [[[e0 c0] g0]|] eqn:Hput0; [|done].
    cbn in Hput. injection Hput as <- <- <-. cbn.
    unfold RandCache.put in Hput0.
    unfold RandCache.len, RandCache.maxlen, RandCache.has in *.
    case_bool_decide as Hk; cbn [negb] in Hput0.
    + left. injection Hput0 as <- <- <-. by split_and!.
    + right. destruct (_ =? _) eqn:E.
      * right. unfold randint in Hput0. destruct (_ <? _); [done|].
        destruct (random_randint _ _ _) as [i g1]. cbn in Hput0.
        destruct (np_getitem _ _) as [x|] eqn:Hx; [|done]. cbn in Hput0.
        destruct (np_setitem _ _ _) as [arr|]; [|done]. cbn in Hput0.
        unfold set_remove in Hput0. case_bool_decide as Hxs; [|done].
        cbn in Hput0. injection Hput0 as <- <- <-. cbn.
        split_and!; [done|bool_lia| | |].
        -- right. by apply bool_decide_eq_true.
        -- intros y. rewrite !bool_decide_eq_true. set_solver.
        -- rewrite size_union by set_solver.
           rewrite size_difference by set_solver. rewrite !size_singleton.
           assert (size (RandCache._cache c) ≠ 0%nat).
           { intros Hz. apply size_empty_inv in Hz. set_solver. }
           lia.
      * left. destruct (np_setitem _ _ _) as [arr|]; [|done]. cbn in Hput0.
        injection Hput0 as <- <- <-. cbn.
        destruct Hinv as (Hlen & Hpos & Hn & _).
        split_and!; [done|bool_lia|done| |].
        -- intros y. rewrite !bool_decide_eq_true. set_solver.
        -- rewrite size_union by set_solver. rewrite size_singleton. lia.
Qed.

(** X1. [dump] of every class: in every reachable state the call returns
    (the traversal of the linked list of an [LruCache] ends), and the list
    it returns holds the resident keys, each once; its length is [len]. *)
Theorem dump_lists_resident_keys `{RandomGen} (c : cache) :
  reachable c →
  ∃ l, dump c = Some l ∧ NoDup l ∧ (∀ k, k ∈ l ↔ has k c = true) ∧
       Z.of_nat (length l) = len c.
Proof. intros Hreach. apply dump_spec. by apply reachable_inv. Qed.

Lemma dump_lists_resident_keys_witness :
  ∃ c, (c0 ← new_cache LRU 2;
        '(_, c1, g) ← put (H := ToyRandom.gen) (PInt 1) c0 0;
        '(_, c2, _) ← put (PInt 2) c1 g;
        Ok c2) = Ok c ∧
       ∃ l, dump c = Some l ∧ NoDup l ∧ (∀ k, k ∈ l ↔ has k c = true) ∧
            Z.of_nat (length l) = len c.
Proof.
  eexists. split; [reflexivity|].
  apply (dump_lists_resident_keys (H := ToyRandom.gen)).
  eapply (reach_put (H := ToyRandom.gen) (PInt 2) _ 0);
    [eapply (reach_put (H := ToyRandom.gen) (PInt 1) _ 0);
       [by apply (reach_new LRU 2)|reflexivity]
    |reflexivity].
Defined.

(** X2. [get] of every class, in every reachable state: the call returns
    what [has] returns for the key; no key becomes resident or stops being
    resident, and size and capacity stay; and when the key is absent the
    object is left exactly as it was. *)
Theorem get_returns_has_keeps_keys `{RandomGen} (c : cache) (k : pyval) :
  reachable c →
  ∃ c', get k c = Ok (has k c, c') ∧
        (∀ x, has x c' = has x c) ∧ len c' = len c ∧ maxlen c' = maxlen c ∧
        (has k c = false → c' = c).
Proof.
  intros Hreach. apply reachable_inv in Hreach.
  destruct (get_effect k c Hreach) as (c' & Hget & _ & Hhas & Hlen & Hm & _ & Hmiss).
  by exists c'.
Qed.

Lemma get_returns_has_keeps_keys_witness :
  let c := Lfu (LfuCache.mk [(PInt 5, (1, 1))] 1 1) in
  ∃ c', get (PInt 5) c = Ok (has (PInt 5) c, c') ∧
        (∀ x, has x c' = has x c) ∧ len c' = len c ∧ maxlen c' = maxlen c ∧
        (has (PInt 5) c = false → c' = c).
Proof.
  apply (get_returns_has_keeps_keys (H := ToyRandom.gen)
           (Lfu (LfuCache.mk [(PInt 5, (1, 1))] 1 1)) (PInt 5)).
  eapply (reach_put (H := ToyRandom.gen) (PInt 5) (Lfu (LfuCache.mk [] 0 1)) 0).
  - by apply (reach_new LFU 1).
  - reflexivity.
Defined.

(** X3. [put] of the four replacement policies, in every reachable state:
    the call returns, the capacity stays, and
    - when the key is resident, [None] is returned and the resident keys
      and the size stay;
    - when the key is absent and the cache is not full, [None] is
      returned and the key is the one new resident key;
    - when the key is absent and the cache is full, the key returned is
      the key itself or a key that was resident, it is the one key that
      is not resident afterwards, and the size stays. *)
Theorem put_adds_key_evicts_one `{RandomGen} `{!RandomGenLaws H}
    (c : cache) (k : pyval) (g : gen_state) :
  reachable c → policy_of c ≠ NULL →
  ∃ e c' g',
    put k c g = Ok (e, c', g') ∧ maxlen c' = maxlen c ∧
    ((has k c = true ∧ e = PNone ∧ (∀ x, has x c' = has x c) ∧ len c' = len c) ∨
     (has k c = false ∧ len c < maxlen c ∧ e = PNone ∧
      (∀ x, has x c' = true ↔ x = k ∨ has x c = true) ∧ len c' = len c + 1) ∨
     (has k c = false ∧ len c = maxlen c ∧ (e = k ∨ has e c = true) ∧
      (∀ x, has x c' = true ↔ (x = k ∨ has x c = true) ∧ x ≠ e) ∧
      len c' = len c)).
Proof.
  intros Hreach Hpol. apply reachable_inv in Hreach.
  destruct (put_ok k c g Hreach) as (e & c' & g' & Hput & _).
  destruct (put_effect k c g e c' g' Hreach Hpol Hput) as (_ & Hm & _ & Hcases).
  by exists e, c', g'.
Qed.

Lemma put_adds_key_evicts_one_witness :
  let c := Lfu (LfuCache.mk [(PInt 5, (1, 1))] 1 1) in
  let k := PInt 6 in
  ∃ e c' g',
    put (H := ToyRandom.gen) k c 0 = Ok (e, c', g') ∧ maxlen c' = maxlen c ∧
    ((has k c = true ∧ e = PNone ∧ (∀ x, has x c' = has x c) ∧ len c' = len c) ∨
     (has k c = false ∧ len c < maxlen c ∧ e = PNone ∧
      (∀ x, has x c' = true ↔ x = k ∨ has x c = true) ∧ len c' = len c + 1) ∨
     (has k c = false ∧ len c = maxlen c ∧ (e = k ∨ has e c = true) ∧
      (∀ x, has x c' = true ↔ (x = k ∨ has x c = true) ∧ x ≠ e) ∧
      len c' = len c)).
Proof.
  apply (put_adds_key_evicts_one (H := ToyRandom.gen)
           (Lfu (LfuCache.mk [(PInt 5, (1, 1))] 1 1)) (PInt 6) 0).
  - eapply (reach_put (H := ToyRandom.gen) (PInt 5) (Lfu (LfuCache.mk [] 0 1)) 0).
    + by apply (reach_new LFU 1).
    + reflexivity.
  - discriminate.
Defined.

(** *** LruCache: the order of the keys, and [position] *)

Section lru_order.
Import LruCache.
Implicit Types (c : LruCache.inst) (k : pyval).

(** [put], on the list of the resident keys. *)
Lemma lru_put_order c k :
  lru_inv c →
  ∃ ks e c',
    dump c = Some ks ∧ Z.of_nat (length ks) = len c ∧ NoDup ks ∧
    (∀ x, x ∈ ks ↔ has x c = true) ∧
    put k c = Ok (e, c') ∧ lru_inv c' ∧ _maxlen c' = _maxlen c ∧
    if has k c then e = PNone ∧ dump c' = Some (k :: filter (λ x, x ≠ k) ks)
    else if len c <? maxlen c then e = PNone ∧ dump c' = Some (k :: ks)
    else last ks = Some e ∧ dump c' = Some (k :: removelast ks).
Proof.
  intros (l & Hrep & Hpos & Hlen).
  destruct (lru_put_keys c l k Hrep Hpos Hlen)
    as (e & c' & l' & Hput & Hrep' & Hm & Hlen' & Hks).
  pose proof (lru_rep_size _ _ Hrep) as Hsz.
  exists l.*2, e, c'.
  split_and!; [by apply lru_dump_rep| |apply Hrep| |done| |done|].
  - unfold len. by rewrite Hsz, length_fmap.
  - intros x. symmetry. by apply lru_has_true.
  - exists l'. split_and!; [done|by rewrite Hm|by rewrite Hm].
  - rewrite (lru_dump_rep c' l' Hrep').
    unfold lru_keys_put, lru_keys_get in Hks. rewrite length_fmap in Hks.
    unfold len, maxlen in *. case_bool_decide as Hk.
    + rewrite (proj2 (lru_has_true c l k Hrep) Hk). by injection Hks as -> ->.
    + rewrite (proj2 (lru_has_false c l k Hrep) Hk).
      destruct (_ <=? _) eqn:E.
      * assert ((Z.of_nat (size (_cache c)) <? _maxlen c) = true) as -> by bool_lia.
        by injection Hks as -> ->.
      * assert ((Z.of_nat (size (_cache c)) <? _maxlen c) = false) as -> by bool_lia.
        injection Hks as -> ->. split; [|done].
        destruct (last l.*2) eqn:El; [done|].
        apply last_None in El. apply (f_equal length) in El.
        rewrite length_fmap in El. cbn in El. bool_lia.
Qed.

(** The loop of [position] on a chain of nodes. *)
Lemma position_loop_seg s p l fuel k i l1 l2 :
  seg s p l None → (length l ≤ fuel)%nat → l.*2 = l1 ++ k :: l2 → k ∉ l1 →
  position_loop fuel s (head_ref l None) k i = Some (PInt (i + Z.of_nat (length l1))).
Proof.
  revert p fuel i l1.
  induction l as [|[a k0] l IH]; intros p fuel i l1 Hseg Hfuel Hl Hk.
  { by destruct l1. }
  destruct fuel as [|fuel]; [cbn in Hfuel; lia|].
  destruct Hseg as [(n & Hn & Hval & _ & Hdown) Hseg].
  cbn [head_ref position_loop]. rewrite Hn, Hdown.
  destruct l1 as [|x l1]; cbn in Hl; injection Hl as -> Hl.
  - rewrite bool_decide_true by done. do 2 f_equal. cbn. lia.
  - apply not_elem_of_cons in Hk as [Hkx Hk].
    rewrite bool_decide_false by congruence.
    rewrite (IH (Some a) fuel (i + 1) l1 Hseg ltac:(cbn in Hfuel; lia) Hl Hk).
    do 2 f_equal. cbn [length]. lia.
Qed.

Lemma lru_position_spec c l k :
  lru_rep c l →
  (has k c = false → position k c = Some (Raise ValueError)) ∧
  (∀ l1 l2, l.*2 = l1 ++ k :: l2 →
            position k c = Some (Ok (PInt (Z.of_nat (length l1))))).
Proof.
  intros Hrep. split.
  - intros Hh. unfold position. by rewrite Hh.
  - intros l1 l2 Hl.
    assert (k ∈ l.*2) as Hin.
    { rewrite Hl. apply elem_of_app. right. by left. }
    assert (k ∉ l1) as Hk.
    { destruct Hrep as (_ & _ & _ & _ & Hnd & _). rewrite Hl in Hnd.
      apply NoDup_app in Hnd as (_ & Hdisj & _).
      intros Hk1. apply (Hdisj _ Hk1). by left. }
    unfold position. rewrite (proj2 (lru_has_true c l k Hrep) Hin). cbn [negb].
    destruct Hrep as (Hseg & Htop & _ & Hnd1 & _).
    rewrite Htop.
    rewrite (position_loop_seg _ None l _ k 0 l1 l2 Hseg); [done| |done|done].
    pose proof (seg_length _ _ _ _ Hnd1 Hseg). lia.
Qed.
End lru_order.

(** X4. [LruCache.get], on the order of the keys: a resident key moves to
    the first place of [dump] and the other keys keep their order; for an
    absent key the order stays. *)
Theorem lru_get_moves_key_first `{RandomGen} (c : LruCache.inst) (k : pyval) :
  reachable (Lru c) →
  ∃ ks c',
    LruCache.dump c = Some ks ∧
    LruCache.get k c = Ok (LruCache.has k c, c') ∧
    LruCache.dump c' =
      Some (if LruCache.has k c then k :: filter (λ x, x ≠ k) ks else ks).
Proof.
  intros Hreach. apply reachable_inv in Hreach as (l & Hrep & _).
  destruct (lru_get_keys c l k Hrep) as (c' & l' & Hget & Hrep' & _ & Hks).
  exists l.*2, c'. split_and!; [by apply lru_dump_rep|done|].
  rewrite (lru_dump_rep c' l' Hrep'), Hks. unfold lru_keys_get.
  case_bool_decide as Hk.
  - by rewrite (proj2 (lru_has_true c l k Hrep) Hk).
  - by rewrite (proj2 (lru_has_false c l k Hrep) Hk).
Qed.

Lemma lru_get_moves_key_first_witness :
  ∃ c, (c0 ← LruCache.init 2;
        '(_, c1) ← LruCache.put (PInt 1) c0;
        '(_, c2) ← LruCache.put (PInt 2) c1;
        Ok c2) = Ok c ∧
       ∃ ks c',
         LruCache.dump c = Some ks ∧
         LruCache.get (PInt 1) c = Ok (LruCache.has (PInt 1) c, c') ∧
         LruCache.dump c' =
           Some (if LruCache.has (PInt 1) c
                 then PInt 1 :: filter (λ x, x ≠ PInt 1) ks else ks).
Proof.
  eexists. split; [reflexivity|].
  apply (lru_get_moves_key_first (H := ToyRandom.gen)).
  eapply (reach_put (H := ToyRandom.gen) (PInt 2) _ 0);
    [eapply (reach_put (H := ToyRandom.gen) (PInt 1) _ 0);
       [by apply (reach_new LRU 2)|reflexivity]
    |reflexivity].
Defined.

(** X5. [LruCache.put], on the order of the keys. The key is first in
    [dump] afterwards, whatever the case. A resident key is moved there
    and the others keep their order; an absent key is put before the
    others, and when the cache was full the last key of the earlier [dump]
    is dropped and returned. *)
Theorem lru_put_puts_key_first `{RandomGen} (c : LruCache.inst) (k : pyval) :
  reachable (Lru c) →
  ∃ ks e c',
    LruCache.dump c = Some ks ∧ LruCache.put k c = Ok (e, c') ∧
    if LruCache.has k c
    then e = PNone ∧ LruCache.dump c' = Some (k :: filter (λ x, x ≠ k) ks)
    else if LruCache.len c <? LruCache.maxlen c
    then e = PNone ∧ LruCache.dump c' = Some (k :: ks)
    else last ks = Some e ∧ LruCache.dump c' = Some (k :: removelast ks).
Proof.
  intros Hreach. apply reachable_inv in Hreach.
  destruct (lru_put_order c k Hreach)
    as (ks & e & c' & Hd & _ & _ & _ & Hput & _ & _ & Hcases).
  by exists ks, e, c'.
Qed.

Lemma lru_put_puts_key_first_witness :
  ∃ c, (c0 ← LruCache.init 2;
        '(_, c1) ← LruCache.put (PInt 1) c0;
        '(_, c2) ← LruCache.put (PInt 2) c1;
        Ok c2) = Ok c ∧
       ∃ ks e c',
         LruCache.dump c = Some ks ∧ LruCache.put (PInt 3) c = Ok (e, c') ∧
         if LruCache.has (PInt 3) c
         then e = PNone ∧
              LruCache.dump c' = Some (PInt 3 :: filter (λ x, x ≠ PInt 3) ks)
         else if LruCache.len c <? LruCache.maxlen c
         then e = PNone ∧ LruCache.dump c' = Some (PInt 3 :: ks)
         else last ks = Some e ∧ LruCache.dump c' = Some (PInt 3 :: removelast ks).
Proof.
  eexists. split; [reflexivity|].
  apply (lru_put_puts_key_first (H := ToyRandom.gen)).
  eapply (reach_put (H := ToyRandom.gen) (PInt 2) _ 0);
    [eapply (reach_put (H := ToyRandom.gen) (PInt 1) _ 0);
       [by apply (reach_new LRU 2)|reflexivity]
    |reflexivity].
Defined.

(** X6. [LruCache.position], in every reachable state: the call returns;
    for an absent key it raises ValueError, and for a resident key it
    returns the index of the key in [dump], 0 for the most recently used
    key. It never falls off the end of its loop, which would return
    [None]. *)
Theorem lru_position_is_index_in_dump `{RandomGen} (c : LruCache.inst) (k : pyval) :
  reachable (Lru c) →
  (LruCache.has k c = false → LruCache.position k c = Some (Raise ValueError)) ∧
  (LruCache.has k c = true →
   ∃ ks i, LruCache.dump c = Some ks ∧ ks !! i = Some k ∧
           Z.of_nat i < LruCache.len c ∧
           LruCache.position k c = Some (Ok (PInt (Z.of_nat i)))).
Proof.
  intros Hreach. apply reachable_inv in Hreach as (l & Hrep & _).
  destruct (lru_position_spec c l k Hrep) as [Hmiss Hhit].
  split; [done|]. intros Hh.
  apply (lru_has_true c l k Hrep) in Hh.
  apply list_elem_of_split in Hh as (l1 & l2 & Hl).
  exists l.*2, (length l1). split_and!.
  - by apply lru_dump_rep.
  - rewrite Hl. by apply list_lookup_middle.
  - unfold LruCache.len. rewrite (lru_rep_size _ _ Hrep).
    rewrite <-(length_fmap snd l), Hl, length_app. cbn. lia.
  - by apply (Hhit l1 l2).
Qed.

Lemma lru_position_is_index_in_dump_witness :
  ∃ c, (c0 ← LruCache.init 2;
        '(_, c1) ← LruCache.put (PInt 1) c0;
        '(_, c2) ← LruCache.put (PInt 2) c1;
        Ok c2) = Ok c ∧
  (LruCache.has (PInt 1) c = false →
   LruCache.position (PInt 1) c = Some (Raise ValueError)) ∧
  (LruCache.has (PInt 1) c = true →
   ∃ ks i, LruCache.dump c = Some ks ∧ ks !! i = Some (PInt 1) ∧
           Z.of_nat i < LruCache.len c ∧
           LruCache.position (PInt 1) c = Some (Ok (PInt (Z.of_nat i)))).
Proof.
  eexists. split; [reflexivity|].
  apply (lru_position_is_index_in_dump (H := ToyRandom.gen)).
  eapply (reach_put (H := ToyRandom.gen) (PInt 2) _ 0);
    [eapply (reach_put (H := ToyRandom.gen) (PInt 1) _ 0);
       [by apply (reach_new LRU 2)|reflexivity]
    |reflexivity].
Defined.

(** X7. After [LruCache.put] of a key, and after [LruCache.get] of a
    resident key, the [position] of that key is 0. *)
Theorem lru_position_zero_after_use `{RandomGen} (c : LruCache.inst) (k : pyval) :
  reachable (Lru c) →
  (∃ e c', LruCache.put k c = Ok (e, c') ∧
           LruCache.position k c' = Some (Ok (PInt 0))) ∧
  (LruCache.has k c = true →
   ∃ c', LruCache.get k c = Ok (true, c') ∧
         LruCache.position k c' = Some (Ok (PInt 0))).
Proof.
  intros Hreach. apply reachable_inv in Hreach as Hinv. split.
  - destruct (lru_put_order c k Hinv)
      as (ks & e & c' & _ & _ & _ & _ & Hput & (l' & Hrep' & _) & _ & Hcases).
    exists e, c'. split; [done|].
    assert (∃ rest, LruCache.dump c' = Some (k :: rest)) as [rest Hd].
    { destruct (LruCache.has k c); [|destruct (_ <? _)];
        destruct Hcases as [_ ->]; by eexists. }
    rewrite (lru_dump_rep c' l' Hrep') in Hd. injection Hd as Hd.
    by apply (proj2 (lru_position_spec c' l' k Hrep') [] rest).
  - intros Hh. destruct Hinv as (l & Hrep & _).
    destruct (lru_get_spec c l k Hrep) as (c' & l' & Hget & Hrep' & _ & _ & Hhd & _).
    rewrite Hh in Hget. exists c'. split; [done|].
    specialize (Hhd Hh). destruct (l'.*2) as [|k0 rest] eqn:Hl; [done|].
    injection Hhd as ->.
    by apply (proj2 (lru_position_spec c' l' k Hrep') [] rest).
Qed.

Lemma lru_position_zero_after_use_witness :
  ∃ c, (c0 ← LruCache.init 2;
        '(_, c1) ← LruCache.put (PInt 1) c0;
        '(_, c2) ← LruCache.put (PInt 2) c1;
        Ok c2) = Ok c ∧
  (∃ e c', LruCache.put (PInt 1) c = Ok (e, c') ∧
           LruCache.position (PInt 1) c' = Some (Ok (PInt 0))) ∧
  (LruCache.has (PInt 1) c = true →
   ∃ c', LruCache.get (PInt 1) c = Ok (true, c') ∧
         LruCache.position (PInt 1) c' = Some (Ok (PInt 0))).
Proof.
  eexists. split; [reflexivity|].
  apply (lru_position_zero_after_use (H := ToyRandom.gen)).
  eapply (reach_put (H := ToyRandom.gen) (PInt 2) _ 0);
    [eapply (reach_put (H := ToyRandom.gen) (PInt 1) _ 0);
       [by apply (reach_new LRU 2)|reflexivity]
    |reflexivity].
Defined.

(** *** FifoCache: the order of the keys, and [position] *)

Lemma fifo_position_loop (d : list pyval) (k : pyval) (i : Z) :
  (k ∉ d → FifoCache.position_loop d k i = Raise ValueError) ∧
  (∀ l1 l2, d = l1 ++ k :: l2 → k ∉ l1 →
            FifoCache.position_loop d k i = Ok (i + Z.of_nat (length l1))).
Proof.
  revert i. induction d as [|x d IH]; intros i.
  { split; [done|]. intros l1 l2 Hd. by destruct l1. }
  cbn [FifoCache.position_loop]. split.
  - intros [Hx Hk]%not_elem_of_cons.
    rewrite bool_decide_false by congruence. by apply IH.
  - intros l1 l2 Hd Hk. destruct l1 as [|y l1]; cbn in Hd; injection Hd as -> Hd.
    + rewrite bool_decide_true by done. f_equal. cbn. lia.
    + apply not_elem_of_cons in Hk as [Hky Hk].
      rewrite bool_decide_false by congruence.
      rewrite (proj2 (IH (i + 1)) l1 l2 Hd Hk). f_equal. cbn [length]. lia.
Qed.

(** X8. [FifoCache.position], in every reachable state: for an absent key
    it raises ValueError, and for a resident key it returns the index of
    the key in [dump], 0 for the key inserted last. *)
Theorem fifo_position_is_index_in_dump `{RandomGen} (c : FifoCache.inst) (k : pyval) :
  reachable (Fifo c) →
  (FifoCache.has k c = false → FifoCache.position k c = Raise ValueError) ∧
  (FifoCache.has k c = true →
   ∃ i, FifoCache.dump c !! i = Some k ∧ Z.of_nat i < FifoCache.len c ∧
        FifoCache.position k c = Ok (Z.of_nat i)).
Proof.
  intros Hreach. apply reachable_inv in Hreach as Hinv. cbn in Hinv.
  pose proof (fifo_inv_size c Hinv) as Hsz.
  destruct Hinv as (Hnd & Hmem & _).
  unfold FifoCache.has, FifoCache.position, FifoCache.dump, FifoCache.len.
  split.
  - intros Hh%bool_decide_eq_false. apply fifo_position_loop. by rewrite <-Hmem.
  - intros Hh%bool_decide_eq_true. apply Hmem in Hh.
    apply list_elem_of_split in Hh as (l1 & l2 & Hd).
    assert (k ∉ l1) as Hk.
    { rewrite Hd in Hnd. apply NoDup_app in Hnd as (_ & Hdisj & _).
      intros Hk1. apply (Hdisj _ Hk1). by left. }
    exists (length l1). split_and!.
    + rewrite Hd. by apply list_lookup_middle.
    + rewrite Hsz, Hd, length_app. cbn. lia.
    + by rewrite (proj2 (fifo_position_loop _ k 0) l1 l2 Hd Hk).
Qed.

Lemma fifo_position_is_index_in_dump_witness :
  let c := FifoCache.mk {[PInt 1; PInt 2]} 2 [PInt 2; PInt 1] in
  (FifoCache.has (PInt 1) c = false → FifoCache.position (PInt 1) c = Raise ValueError) ∧
  (FifoCache.has (PInt 1) c = true →
   ∃ i, FifoCache.dump c !! i = Some (PInt 1) ∧ Z.of_nat i < FifoCache.len c ∧
        FifoCache.position (PInt 1) c = Ok (Z.of_nat i)).
Proof.
  apply (fifo_position_is_index_in_dump (H := ToyRandom.gen)
           (FifoCache.mk {[PInt 1; PInt 2]} 2 [PInt 2; PInt 1]) (PInt 1)).
  eapply (reach_put (H := ToyRandom.gen) (PInt 2)
            (Fifo (FifoCache.mk {[PInt 1]} 2 [PInt 1])) 0);
    [eapply (reach_put (H := ToyRandom.gen) (PInt 1) (Fifo (FifoCache.mk ∅ 2 [])) 0);
       [by apply (reach_new FIFO 2)|vm_compute; reflexivity]
    |vm_compute; reflexivity].
Defined.

(** [put], on the list of the resident keys. *)
Lemma fifo_put_order (c : FifoCache.inst) (k : pyval) :
  fifo_inv c →
  ∃ e c',
    Z.of_nat (length (FifoCache.d c)) = FifoCache.len c ∧
    FifoCache.put k c = Ok (e, c') ∧ fifo_inv c' ∧
    FifoCache._maxlen c' = FifoCache._maxlen c ∧
    if FifoCache.has k c then e = PNone ∧ c' = c
    else if FifoCache.len c <? FifoCache.maxlen c
    then e = PNone ∧ FifoCache.dump c' = k :: FifoCache.dump c
    else last (FifoCache.dump c) = Some e ∧
         FifoCache.dump c' = k :: removelast (FifoCache.dump c).
Proof.
  intros Hinv. pose proof (fifo_inv_size c Hinv) as Hsz.
  destruct (fifo_put_ok k c Hinv) as (e & c' & Hput & Hinv').
  exists e, c'. split_and!; [by unfold FifoCache.len; rewrite Hsz|done|done|..];
    rewrite (fifo_put_spec k c Hinv) in Hput;
    destruct (FifoCache.has k c); [by injection Hput as <- <-| |by injection Hput as <- <-|].
  - destruct (_ <? _); [by injection Hput as <- <-|].
    destruct (last _); [by injection Hput as <- <-|done].
  - unfold FifoCache.dump. destruct (_ <? _); [by injection Hput as <- <-|].
    destruct (last _); [by injection Hput as <- <-|done].
Qed.

(** X9. [FifoCache.put], on the order of the keys. For a resident key
    nothing changes; an absent key is put before the others in [dump], and
    when the cache was full the last key of the earlier [dump], the one
    that was inserted first, is dropped and returned. [FifoCache.get]
    leaves the object as it is. *)
Theorem fifo_put_queues_key `{RandomGen} (c : FifoCache.inst) (k : pyval) :
  reachable (Fifo c) →
  FifoCache.get k c = Ok (FifoCache.has k c, c) ∧
  ∃ e c',
    FifoCache.put k c = Ok (e, c') ∧
    if FifoCache.has k c then e = PNone ∧ c' = c
    else if FifoCache.len c <? FifoCache.maxlen c
    then e = PNone ∧ FifoCache.dump c' = k :: FifoCache.dump c
    else last (FifoCache.dump c) = Some e ∧
         FifoCache.dump c' = k :: removelast (FifoCache.dump c).
Proof.
  intros Hreach. apply reachable_inv in Hreach. split; [done|].
  destruct (fifo_put_order c k Hreach) as (e & c' & _ & Hput & _ & _ & Hcases).
  by exists e, c'.
Qed.

Lemma fifo_put_queues_key_witness :
  let c := FifoCache.mk {[PInt 1; PInt 2]} 2 [PInt 2; PInt 1] in
  let k := PInt 3 in
  FifoCache.get k c = Ok (FifoCache.has k c, c) ∧
  ∃ e c',
    FifoCache.put k c = Ok (e, c') ∧
    if FifoCache.has k c then e = PNone ∧ c' = c
    else if FifoCache.len c <? FifoCache.maxlen c
    then e = PNone ∧ FifoCache.dump c' = k :: FifoCache.dump c
    else last (FifoCache.dump c) = Some e ∧
         FifoCache.dump c' = k :: removelast (FifoCache.dump c).
Proof.
  apply (fifo_put_queues_key (H := ToyRandom.gen)
           (FifoCache.mk {[PInt 1; PInt 2]} 2 [PInt 2; PInt 1]) (PInt 3)).
  eapply (reach_put (H := ToyRandom.gen) (PInt 2)
            (Fifo (FifoCache.mk {[PInt 1]} 2 [PInt 1])) 0);
    [eapply (reach_put (H := ToyRandom.gen) (PInt 1) (Fifo (FifoCache.mk ∅ 2 [])) 0);
       [by apply (reach_new FIFO 2)|vm_compute; reflexivity]
    |vm_compute; reflexivity].
Defined.

(** *** A sequence of keys that are all different *)

(** One [put] of an absent key, for [FifoCache] and [LruCache] alike. *)
Lemma queue_put `{RandomGen} (c : cache) (k : pyval) (g : gen_state) (d : list pyval) :
  cache_inv c → policy_of c = FIFO ∨ policy_of c = LRU →
  dump c = Some d → k ∉ d →
  Z.of_nat (length d) = len c ∧
  ∃ e c',
    put k c g = Ok (e, c', g) ∧ cache_inv c' ∧ policy_of c' = policy_of c ∧
    maxlen c' = maxlen c ∧
    if len c <? maxlen c then e = PNone ∧ dump c' = Some (k :: d)
    else last d = Some e ∧ dump c' = Some (k :: removelast d).
Proof.
  intros Hinv Hpol Hd Hk.
  destruct c as [c|c|c|c|c]; try (by destruct Hpol);
    cbn [dump cache_inv policy_of len maxlen put] in Hinv, Hd |- *.
  - destruct (lru_put_order c k Hinv)
      as (ks & e & c' & Hd' & Hlen & _ & Hmem & Hput & Hinv' & Hm & Hcases).
    rewrite Hd in Hd'. injection Hd' as <-.
    assert (LruCache.has k c = false) as Hh.
    { destruct (LruCache.has k c) eqn:E; [|done]. by apply Hmem in E. }
    rewrite Hh in Hcases. split; [done|].
    exists e, (Lru c'). rewrite Hput. by split_and!.
  - injection Hd as <-.
    destruct (fifo_put_order c k Hinv) as (e & c' & Hlen & Hput & Hinv' & Hm & Hcases).
    assert (FifoCache.has k c = false) as Hh.
    { apply bool_decide_eq_false. intros Hin. by apply Hinv in Hin. }
    rewrite Hh in Hcases. split; [done|].
    exists e, (Fifo c'). rewrite Hput. cbn. split_and!; [done|done|done|done|].
    destruct (_ <? _); destruct Hcases as [? ->]; by split.
Qed.

Lemma take_app_removelast {A} (n : nat) (l1 l2 : list A) :
  l1 ≠ [] → length l2 = n →
  take n (l1 ++ removelast l2) = take n (l1 ++ l2).
Proof.
  intros Hl1 Hn. destruct l2 as [|x l2 _] using rev_ind.
  { done. }
  rewrite removelast_snoc, app_assoc. rewrite length_app in Hn. cbn in Hn.
  rewrite (take_app_le (l1 ++ l2)); [done|].
  rewrite length_app. destruct l1; [done|]. cbn. lia.
Qed.

Lemma elem_of_removelast {A} (x : A) (l : list A) : x ∈ removelast l → x ∈ l.
Proof.
  destruct l as [|y l _] using rev_ind; [done|].
  rewrite removelast_snoc, elem_of_app. by left.
Qed.

Lemma queue_put_all `{RandomGen} (ks : list pyval) (c : cache) (g : gen_state)
    (d : list pyval) :
  cache_inv c → policy_of c = FIFO ∨ policy_of c = LRU →
  dump c = Some d → NoDup ks → (∀ k, k ∈ ks → k ∉ d) →
  let n := Z.to_nat (maxlen c) in
  let r := (length ks `min` (n - length d))%nat in
  ∃ c',
    put_all ks c g =
      Ok (replicate r PNone ++ take (length ks - r) (reverse d ++ ks), c', g) ∧
    dump c' = Some (take n (reverse ks ++ d)).
Proof.
  revert c d. induction ks as [|k ks IH]; intros c d Hinv Hpol Hd Hnd Hdisj n r.
  { exists c. cbn. split; [done|]. rewrite Hd. f_equal. symmetry.
    apply take_ge. destruct (dump_spec c Hinv) as (l & Hl & _ & _ & Hlen).
    rewrite Hd in Hl. injection Hl as <-.
    pose proof (cache_inv_len c Hinv). lia. }
  apply NoDup_cons in Hnd as [Hk Hnd].
  destruct (queue_put c k g d Hinv Hpol Hd)
    as (Hlen & e & c1 & Hput & Hinv1 & Hpol1 & Hm1 & Hcases).
  { apply Hdisj. by left. }
  pose proof (cache_inv_len c Hinv) as Hle.
  cbn [put_all]. rewrite Hput. cbn [mbind result_bind].
  destruct (len c <? maxlen c) eqn:E; destruct Hcases as [He Hd1].
  - (* there is room *)
    destruct (IH c1 (k :: d) Hinv1 ltac:(by rewrite Hpol1) Hd1 Hnd) as (c' & Hrun & Hd').
    { intros x Hx [->|Hxd]%elem_of_cons; [done|].
      by apply (Hdisj x); [right|]. }
    exists c'. rewrite Hrun. cbn [mbind result_bind]. rewrite Hm1 in Hd'.
    split.
    + subst e. do 2 f_equal. cbn [length].
      assert ((S (length ks) `min` (n - length d)) =
              S (length ks `min` (Z.to_nat (maxlen c1) - S (length d))))%nat as Hr.
      { unfold n. rewrite Hm1. apply Z.ltb_lt in E. lia. }
      unfold r. cbn [length]. rewrite Hr. cbn [replicate].
      rewrite reverse_cons, <-app_assoc. cbn [app]. f_equal.
    + rewrite Hd'. unfold n. by rewrite reverse_cons, <-app_assoc.
  - (* the cache is full *)
    apply Z.ltb_ge in E.
    assert (length d = n) as Hdn by (unfold n; lia).
    assert (d ≠ []) as Hne.
    { intros ->. by cbn in He. }
    destruct (exists_last Hne) as (d0 & x & ->).
    rewrite last_snoc in He. injection He as <-.
    rewrite removelast_snoc in Hd1.
    rewrite length_app in Hdn. cbn in Hdn.
    destruct (IH c1 (k :: d0) Hinv1 ltac:(by rewrite Hpol1) Hd1 Hnd) as (c' & Hrun & Hd').
    { intros y Hy [->|Hyd]%elem_of_cons; [done|].
      apply (Hdisj y); [by right|]. apply elem_of_app. by left. }
    exists c'. rewrite Hrun. cbn [mbind result_bind]. rewrite Hm1 in Hd'.
    split.
    + do 2 f_equal. unfold r. rewrite length_app. cbn [length].
      replace (S (length ks) `min` (n - (length d0 + 1)))%nat with 0%nat by lia.
      replace (length ks `min` (Z.to_nat (maxlen c1) - S (length d0)))%nat
        with 0%nat by (rewrite Hm1; fold n; lia).
      cbn [replicate app]. rewrite !Nat.sub_0_r.
      rewrite reverse_app, reverse_singleton. cbn [app take]. f_equal.
      by rewrite reverse_cons, <-app_assoc.
    + rewrite Hd'. fold n. f_equal.
      rewrite reverse_cons, <-app_assoc. cbn [app].
      trans (take n ((reverse ks ++ [k]) ++ removelast (d0 ++ [x]))).
      { by rewrite removelast_snoc, <-app_assoc. }
      rewrite take_app_removelast; [by rewrite <-app_assoc| |].
      * by destruct (reverse ks).
      * rewrite length_app. cbn. lia.
Qed.

(** X10. [FifoCache] and [LruCache], on a sequence of [put] calls whose
    keys are all different, from the state the constructor returns: the
    first [C] calls return [None] and each later call returns the key put
    [C] calls before it; afterwards [dump] holds the last [C] keys, the
    last one first. Both policies evict in the order of insertion as long
    as no key is asked for twice. *)
Theorem fifo_lru_evict_in_insertion_order `{RandomGen}
    (pol : policy) (C : Z) (c0 : cache) (ks : list pyval) (g : gen_state) :
  pol = FIFO ∨ pol = LRU →
  new_cache pol C = Ok c0 →
  NoDup ks →
  ∃ c,
    put_all ks c0 g =
      Ok (replicate (length ks `min` Z.to_nat C) PNone ++
          take (length ks - Z.to_nat C) ks, c, g) ∧
    dump c = Some (take (Z.to_nat C) (reverse ks)).
Proof.
  intros Hpol Hnew Hnd.
  pose proof (new_cache_inv _ _ _ Hnew) as Hinv.
  assert (policy_of c0 = pol ∧ dump c0 = Some [] ∧ maxlen c0 = C) as (Hp & Hd & Hm).
  { destruct Hpol as [-> | ->]; cbn in Hnew.
    - unfold FifoCache.init in Hnew. cbn in Hnew.
      destruct (_ <=? _); [done|]. by injection Hnew as <-.
    - unfold LruCache.init in Hnew. cbn in Hnew.
      destruct (_ <=? _); [done|]. by injection Hnew as <-. }
  destruct (queue_put_all ks c0 g [] Hinv ltac:(by rewrite Hp) Hd Hnd) as (c & Hrun & Hdump).
  { intros k _. apply not_elem_of_nil. }
  exists c. rewrite Hrun, Hdump, Hm. cbn [length reverse app].
  rewrite Nat.sub_0_r, app_nil_r. split; [|done].
  do 3 f_equal. change (reverse [] ++ ks) with ks.
  by replace (length ks - length ks `min` Z.to_nat C)%nat
    with (length ks - Z.to_nat C)%nat by lia.
Qed.

Lemma fifo_lru_evict_in_insertion_order_witness :
  ∃ c0, new_cache LRU 2 = Ok c0 ∧
  ∃ c,
    put_all (H := ToyRandom.gen) [PInt 1; PInt 2; PInt 3] c0 0 =
      Ok (replicate (3 `min` Z.to_nat 2) PNone ++
          take (3 - Z.to_nat 2) [PInt 1; PInt 2; PInt 3], c, 0) ∧
    dump c = Some (take (Z.to_nat 2) (reverse [PInt 1; PInt 2; PInt 3])).
Proof.
  eexists. split; [reflexivity|].
  apply (fifo_lru_evict_in_insertion_order (H := ToyRandom.gen) LRU 2 _
           [PInt 1; PInt 2; PInt 3] 0).
  - by right.
  - reflexivity.
  - apply (bool_decide_unpack (NoDup [PInt 1; PInt 2; PInt 3])). vm_compute. exact I.
Defined.

(** *** LfuCache: the order of [dump], and what counts as a use *)

Lemma pair_ge_trans x y z :
  pair_lt x y = false → pair_lt y z = false → pair_lt x z = false.
Proof. destruct x, y, z. intros. bool_lia. Qed.

Lemma insert_desc_sorted x l : desc_sorted l → desc_sorted (insert_desc x l).
Proof.
  induction l as [|y l IH]; cbn [insert_desc desc_sorted].
  { intros _. split; [constructor|done]. }
  intros [Hy Hl]. unfold pair_le. destruct (pair_lt x.2 y.2) eqn:E; cbn [negb].
  - cbn [desc_sorted]. split; [|by apply IH].
    rewrite insert_desc_perm. constructor; [|done].
    destruct (x.2), (y.2). bool_lia.
  - cbn [desc_sorted]. split_and!; [|done|done].
    constructor; [done|].
    eapply Forall_impl; [exact Hy|]. intros z Hz. cbn beta in Hz |- *.
    by apply (pair_ge_trans _ y.2).
Qed.

Lemma sorted_entries_desc d : desc_sorted (foldr insert_desc [] d).
Proof. induction d as [|x d IH]; cbn; [done|]. by apply insert_desc_sorted. Qed.

Lemma desc_sorted_lookup l i j a b :
  desc_sorted l → (i < j)%nat → l !! i = Some a → l !! j = Some b →
  pair_lt a.2 b.2 = false.
Proof.
  revert i j. induction l as [|x l IH]; intros i j Hs Hij Hi Hj; [done|].
  destruct Hs as [Hx Hl]. destruct j as [|j]; [lia|]. cbn in Hj.
  destruct i as [|i]; cbn in Hi.
  - injection Hi as ->. rewrite Forall_forall in Hx. apply Hx.
    by eapply list_elem_of_lookup_2.
  - apply (IH i j); [done|lia|done|done].
Qed.

(** X11. [LfuCache.dump], in every reachable state: a key that comes
    before another one in the list has the strictly larger pair
    [(frequency, sequence)]. The list goes from the key used most often to
    the key that the next eviction would choose among the resident ones.
    *)
Theorem lfu_dump_orders_by_pair `{RandomGen} (c : LfuCache.inst)
    (i j : nat) (k1 k2 : pyval) (e1 e2 : Z * Z) :
  reachable (Lfu c) →
  (i < j)%nat →
  LfuCache.dump c !! i = Some k1 →
  LfuCache.dump c !! j = Some k2 →
  dict_lookup k1 (LfuCache._cache c) = Some e1 →
  dict_lookup k2 (LfuCache._cache c) = Some e2 →
  pair_lt e2 e1 = true.
Proof.
  intros Hreach Hij Hi Hj H1 H2.
  apply reachable_inv in Hreach as (Hnd & Hseq & _).
  unfold LfuCache.dump, py_sorted_rev in Hi, Hj.
  set (L := foldr insert_desc [] (LfuCache._cache c)) in *.
  assert (L ≡ₚ LfuCache._cache c) as Hperm by apply sorted_entries_perm.
  rewrite list_lookup_fmap in Hi, Hj.
  destruct (L !! i) as [a|] eqn:Ha; [|done].
  destruct (L !! j) as [b|] eqn:Hb; [|done].
  cbn in Hi, Hj. injection Hi as Hi. injection Hj as Hj.
  assert (∀ n x, L !! n = Some x →
                 dict_lookup x.1 (LfuCache._cache c) = Some x.2) as Hlk.
  { intros n [kx ex] Hx. apply dict_lookup_elem; [done|].
    rewrite <-Hperm. by eapply list_elem_of_lookup_2. }
  pose proof (Hlk i a Ha) as Hae. pose proof (Hlk j b Hb) as Hbe.
  rewrite Hi, H1 in Hae. rewrite Hj, H2 in Hbe.
  injection Hae as Hae. injection Hbe as Hbe.
  pose proof (desc_sorted_lookup L i j a b (sorted_entries_desc _) Hij Ha Hb) as Hge.
  rewrite <-Hae, <-Hbe in Hge.
  destruct (pair_lt e2 e1) eqn:Hlt; [done|].
  pose proof (pair_lt_total _ _ Hge Hlt) as Heq.
  assert (NoDup (entry_seq <$> L)) as HndL by by rewrite Hperm.
  assert (i = j); [|lia].
  apply (NoDup_lookup _ i j (entry_seq a) HndL).
  - by rewrite list_lookup_fmap, Ha.
  - rewrite list_lookup_fmap, Hb. cbn. unfold entry_seq. congruence.
Qed.

Lemma lfu_dump_orders_by_pair_witness :
  let c := LfuCache.mk [(PInt 5, (2, 1)); (PInt 6, (1, 2))] 2 2 in
  LfuCache.dump c = [PInt 5; PInt 6] ∧ pair_lt (1, 2) (2, 1) = true.
Proof.
  intros c. split; [reflexivity|].
  apply (lfu_dump_orders_by_pair (H := ToyRandom.gen) c 0 1 (PInt 5) (PInt 6)).
  - eapply (reach_put (H := ToyRandom.gen) (PInt 6)
              (Lfu (LfuCache.mk [(PInt 5, (2, 1))] 1 2)) 0);
      [|reflexivity].
    eapply (reach_get (H := ToyRandom.gen) (PInt 5)
              (Lfu (LfuCache.mk [(PInt 5, (1, 1))] 1 2)));
      [|reflexivity].
    eapply (reach_put (H := ToyRandom.gen) (PInt 5) (Lfu (LfuCache.mk [] 0 2)) 0);
      [by apply (reach_new LFU 2)|reflexivity].
  - lia.
  - reflexivity.
  - reflexivity.
  - reflexivity.
  - reflexivity.
Defined.

Lemma dict_lookup_set {V} (k k' : pyval) (v : V) (d : list (pyval * V)) :
  dict_lookup k' (dict_set k v d) = if decide (k' = k) then Some v else dict_lookup k' d.
Proof.
  induction d as [|[k0 v0] d IH]; cbn.
  - by destruct (decide (k' = k)).
  - destruct (decide (k = k0)) as [->|Hne]; cbn.
    + by destruct (decide (k' = k0)).
    + rewrite IH. destruct (decide (k' = k0)) as [->|]; [|done].
      by destruct (decide (k0 = k)) as [->|].
Qed.

(** X12. What counts as a use in [LfuCache]: [get] of a resident key adds
    one to the frequency of that key and leaves its sequence number, the
    entries of the other keys and the counter [t] as they are, while [put]
    of a resident key changes nothing at all. *)
Theorem lfu_get_counts_put_does_not (c : LfuCache.inst) (k : pyval) (f s : Z) :
  dict_lookup k (LfuCache._cache c) = Some (f, s) →
  (∃ c', LfuCache.get k c = Ok (true, c') ∧
         dict_lookup k (LfuCache._cache c') = Some (f + 1, s) ∧
         (∀ k', k' ≠ k →
                dict_lookup k' (LfuCache._cache c') =
                dict_lookup k' (LfuCache._cache c)) ∧
         LfuCache.t c' = LfuCache.t c ∧
         LfuCache._maxlen c' = LfuCache._maxlen c) ∧
  LfuCache.put k c = Ok (PNone, c).
Proof.
  intros Hlk.
  assert (LfuCache.has k c = true) as Hh.
  { unfold LfuCache.has. apply bool_decide_eq_true. by rewrite Hlk. }
  split; [|by apply lfu_put_present].
  unfold LfuCache.get. rewrite Hh, Hlk. eexists. split; [done|]. cbn.
  split_and!; [| |done|done].
  - rewrite dict_lookup_set. by rewrite decide_True.
  - intros k' Hne. rewrite dict_lookup_set. by rewrite decide_False.
Qed.

Lemma lfu_get_counts_put_does_not_witness :
  let c := LfuCache.mk [(PInt 5, (2, 1)); (PInt 6, (1, 2))] 2 2 in
  (∃ c', LfuCache.get (PInt 6) c = Ok (true, c') ∧
         dict_lookup (PInt 6) (LfuCache._cache c') = Some (1 + 1, 2) ∧
         (∀ k', k' ≠ PInt 6 →
                dict_lookup k' (LfuCache._cache c') =
                dict_lookup k' (LfuCache._cache c)) ∧
         LfuCache.t c' = LfuCache.t c ∧
         LfuCache._maxlen c' = LfuCache._maxlen c) ∧
  LfuCache.put (PInt 6) c = Ok (PNone, c).
Proof.
  apply (lfu_get_counts_put_does_not
           (LfuCache.mk [(PInt 5, (2, 1)); (PInt 6, (1, 2))] 2 2) (PInt 6) 1 2).
  reflexivity.
Defined.

(** *** RandCache: the slot that is drawn *)

(** X13. [RandCache.put] of an absent key into a full cache, in every
    reachable state: the call draws one index with [random.randint(0,
    maxlen - 1)], returns the key held in that slot of the array, which
    was resident, and stores the new key in that slot. The slots hold the
    resident keys, each in one slot, so every resident key is the victim
    for exactly one value of the draw. *)
Theorem rand_put_evicts_drawn_slot `{RandomGen} `{!RandomGenLaws H}
    (c : RandCache.inst) (k : pyval) (g : gen_state) :
  reachable (Rand c) →
  RandCache.has k c = false →
  RandCache.len c = RandCache.maxlen c →
  let i := Z.to_nat (random_randint 0 (RandCache.maxlen c - 1) g).1 in
  let g' := (random_randint 0 (RandCache.maxlen c - 1) g).2 in
  (∃ e, RandCache.a c !! i = Some e ∧ RandCache.has e c = true ∧
        RandCache.put k c g =
          Ok (e, RandCache.mk ({[k]} ∪ RandCache._cache c ∖ {[e]})
                              (<[i := k]> (RandCache.a c)) (RandCache._maxlen c),
              g')) ∧
  Z.of_nat (length (RandCache.a c)) = RandCache.maxlen c ∧
  NoDup (RandCache.a c) ∧
  (∀ x, RandCache.has x c = true ↔ x ∈ RandCache.a c).
Proof.
  intros Hreach Hh Hfull i g'. apply reachable_inv in Hreach.
  destruct Hreach as (Hlen & Hpos & Hn & Hnd & Hmem).
  unfold RandCache.len, RandCache.maxlen, RandCache.has in *.
  assert (take (size (RandCache._cache c)) (RandCache.a c) = RandCache.a c) as Htake.
  { apply take_ge. lia. }
  rewrite Htake in Hnd, Hmem.
  pose proof (randint_range 0 (RandCache._maxlen c - 1) g ltac:(lia)) as Hr.
  fold g'. assert (i < length (RandCache.a c))%nat as Hi by (unfold i; lia).
  destruct (lookup_lt_is_Some_2 _ _ Hi) as [e He].
  assert (e ∈ RandCache._cache c) as Hin.
  { apply Hmem. by eapply list_elem_of_lookup_2. }
  split_and!; [|done|done|].
  - exists e. split_and!; [done|by apply bool_decide_eq_true|].
    unfold RandCache.put. unfold RandCache.has, RandCache.len, RandCache.maxlen.
    rewrite Hh. cbn [negb].
    assert ((Z.of_nat (size (RandCache._cache c)) =? RandCache._maxlen c) = true)
      as -> by bool_lia.
    unfold randint.
    assert ((RandCache._maxlen c - 1 <? 0) = false) as -> by bool_lia.
    destruct (random_randint 0 (RandCache._maxlen c - 1) g) as [z g1] eqn:Ez.
    cbn [fst snd] in *. subst g'. cbn [mbind result_bind].
    unfold np_getitem, np_setitem.
    rewrite (np_index_in_range (RandCache.a c) z) by lia.
    cbn [mbind result_bind]. fold i. rewrite He. cbn [mbind result_bind].
    unfold set_remove. rewrite bool_decide_true by done. done.
  - intros x. by rewrite bool_decide_eq_true, Hmem.
Qed.

Lemma rand_put_evicts_drawn_slot_witness :
  let c := RandCache.mk {[PInt 1; PInt 2]} [PInt 1; PInt 2] 2 in
  let k := PInt 3 in
  let g : gen_state (RandomGen := ToyRandom.gen) := 1 in
  let i := Z.to_nat (random_randint 0 (RandCache.maxlen c - 1) g).1 in
  let g' := (random_randint 0 (RandCache.maxlen c - 1) g).2 in
  (∃ e, RandCache.a c !! i = Some e ∧ RandCache.has e c = true ∧
        RandCache.put k c g =
          Ok (e, RandCache.mk ({[k]} ∪ RandCache._cache c ∖ {[e]})
                              (<[i := k]> (RandCache.a c)) (RandCache._maxlen c),
              g')) ∧
  Z.of_nat (length (RandCache.a c)) = RandCache.maxlen c ∧
  NoDup (RandCache.a c) ∧
  (∀ x, RandCache.has x c = true ↔ x ∈ RandCache.a c).
Proof.
  apply (rand_put_evicts_drawn_slot (H := ToyRandom.gen)
           (RandCache.mk {[PInt 1; PInt 2]} [PInt 1; PInt 2] 2) (PInt 3) 1).
  - eapply (reach_put (H := ToyRandom.gen) (PInt 2)
              (Rand (RandCache.mk {[PInt 1]} [PInt 1; PNone] 2)) 0);
      [|vm_compute; reflexivity].
    eapply (reach_put (H := ToyRandom.gen) (PInt 1)
              (Rand (RandCache.mk ∅ [PNone; PNone] 2)) 0);
      [by apply (reach_new RAND 2)|vm_compute; reflexivity].
  - vm_compute. reflexivity.
  - vm_compute. reflexivity.
Defined.

(** *** NullCache *)

(** X14. A [NullCache] can be constructed with any [maxlen], which is
    ignored, and whatever the calls made on it, each call answers as on a
    cache of capacity 0 that holds nothing: [len] and [maxlen] are 0,
    [has] and [get] are false, [put] returns [None] and [dump] is empty.
    *)
Theorem null_cache_never_stores `{RandomGen} (n : Z) (ms : list call) (g : gen_state) :
  ∃ c, new_cache NULL n = Ok c ∧
       trace ms c g = (λ m, Ok (null_answer m)) <$> ms.
Proof.
  exists (Null tt). split; [done|].
  induction ms as [|m ms IH]; [done|].
  cbn [trace fmap list_fmap].
  assert (call_method m (Null tt) g = Ok (null_answer m, Null tt, g)) as ->.
  { by destruct m. }
  by rewrite IH.
Qed.

(** *** rand_insert_cache, for any probability *)

(** X15. Whatever the probability of a wrapper made by [rand_insert_cache]
    over a reachable cache, every sequence of calls of its [put] returns,
    one result for each key, and leaves the wrapped cache in a reachable
    state, with the capacity it had and a size within it. *)
Theorem rand_put_all_returns `{RandomGen} `{!RandomGenLaws H}
    (ks : list pyval) (w : RandInsert.inst) (g : gen_state) :
  reachable (RandInsert.cache_ w) →
  ∃ es w' g',
    rand_put_all ks w g = Ok (es, w', g') ∧
    length es = length ks ∧
    reachable (RandInsert.cache_ w') ∧
    RandInsert.p w' = RandInsert.p w ∧
    maxlen (RandInsert.cache_ w') = maxlen (RandInsert.cache_ w) ∧
    len (RandInsert.cache_ w') ≤ maxlen (RandInsert.cache_ w).
Proof.
  revert w g. induction ks as [|k ks IH]; intros w g Hreach.
  { exists [], w, g. split_and!; try done.
    apply cache_inv_len. by apply reachable_inv. }
  cbn [rand_put_all].
  assert (∃ e w1 g1, rand_put k w g = Ok (e, w1, g1) ∧
                     reachable (RandInsert.cache_ w1) ∧
                     RandInsert.p w1 = RandInsert.p w ∧
                     maxlen (RandInsert.cache_ w1) = maxlen (RandInsert.cache_ w))
    as (e & w1 & g1 & Hput & Hreach1 & Hp1 & Hm1).
  { unfold rand_put. destruct (random_random g) as [x g0].
    destruct (Qltb x (RandInsert.p w)); [|by exists PNone, w, g0].
    pose proof (reachable_inv _ Hreach) as Hinv.
    destruct (put_ok k (RandInsert.cache_ w) g0 Hinv) as (e & c' & g1 & Hput & _).
    rewrite Hput. cbn. eexists _, _, _. split; [done|]. cbn.
    split_and!; [by eapply reach_put|done|by eapply put_maxlen]. }
  rewrite Hput. cbn [mbind result_bind].
  destruct (IH w1 g1 Hreach1) as (es & w' & g' & Hrun & Hlen & Hreach' & Hp' & Hm' & Hle).
  rewrite Hrun. cbn [mbind result_bind].
  exists (e :: es), w', g'. split_and!; [done|by cbn; rewrite Hlen|done|..].
  - by rewrite Hp'.
  - by rewrite Hm'.
  - by rewrite <-Hm1.
Qed.

Lemma rand_put_all_returns_witness :
  let w := RandInsert.mk (Lfu (LfuCache.mk [] 0 1)) (1 # 2) in
  ∃ es w' g',
    rand_put_all (H := ToyRandom.gen) [PInt 1; PInt 2] w 3 = Ok (es, w', g') ∧
    length es = length [PInt 1; PInt 2] ∧
    reachable (RandInsert.cache_ w') ∧
    RandInsert.p w' = RandInsert.p w ∧
    maxlen (RandInsert.cache_ w') = maxlen (RandInsert.cache_ w) ∧
    len (RandInsert.cache_ w') ≤ maxlen (RandInsert.cache_ w).
Proof.
  apply (rand_put_all_returns (H := ToyRandom.gen) [PInt 1; PInt 2]
           (RandInsert.mk (Lfu (LfuCache.mk [] 0 1)) (1 # 2)) 3).
  by apply (reach_new LFU 1).
Defined.

(** *** keyval_cache *)

(** Inside a key-value cache the [put] of the wrapped object is the [put]
    of its class, but for an [LruCache] that holds the key while the new
    value is falsy. *)
Lemma kv_k_put_eq `{RandomGen} (vals : gmap pyval pyval) (k v : pyval) (c : cache)
    (g : gen_state) :
  cache_inv c → vals !! k = Some v →
  (policy_of c = LRU → has k c = true → truthy v = true) →
  k_put vals k c g = put k c g.
Proof.
  intros Hinv Hv Hlru. destruct c as [c|c|c|c|c]; try done.
  cbn [k_put put]. f_equal. unfold LruCache.put, LruCache.put_with.
  assert (kv_self_get vals k c = LruCache.get k c) as ->; [|done].
  destruct Hinv as (l & Hrep & _).
  destruct (lru_get_spec c l k Hrep) as (c' & l' & Hget & _).
  unfold kv_self_get. rewrite Hget. cbn [mbind result_bind].
  destruct (LruCache.has k c) eqn:Hh; [|done].
  unfold vals_getitem. rewrite Hv. cbn [mbind result_bind].
  by rewrite (Hlru eq_refl Hh).
Qed.

(** [kv_put], when the value map and the cache are in step. *)
Lemma kv_put_spec `{RandomGen} (k v : pyval) (w : KeyVal.inst) (g : gen_state)
    e c' g' :
  cache_inv (KeyVal.cache_ w) → policy_of (KeyVal.cache_ w) ≠ NULL →
  kv_sync w → keys_truthy (KeyVal.cache_ w) → truthy k = true →
  (policy_of (KeyVal.cache_ w) = LRU → has k (KeyVal.cache_ w) = true →
   truthy v = true) →
  put k (KeyVal.cache_ w) g = Ok (e, c', g') →
  let vals := <[k := v]> (KeyVal._vals w) in
  ∃ r w',
    kv_put k v w g = Ok (r, w', g') ∧ KeyVal.cache_ w' = c' ∧
    kv_sync w' ∧ keys_truthy c' ∧
    match r with
    | None => e = PNone ∧ has k c' = true ∧ KeyVal._vals w' = vals
    | Some (e', val) =>
        e' = e ∧ e ≠ PNone ∧ vals !! e = Some val ∧
        KeyVal._vals w' = delete e vals ∧ (has k c' = false → e = k)
    end.
Proof.
  intros Hinv Hpol Hsync Htr Hk Hlru Hput vals.
  destruct (put_effect k _ g e c' g' Hinv Hpol Hput) as (Hinv' & _ & _ & Hcases).
  unfold kv_put. fold vals.
  rewrite (kv_k_put_eq vals k v _ g Hinv); [|by apply lookup_insert_eq|done].
  rewrite Hput. cbn [mbind result_bind].
  destruct Hcases as [(Hh & -> & Hhas & _)|[(Hh & _ & -> & Hhas & _)|(Hh & _ & He & Hhas & _)]].
  - (* the key is resident *)
    cbn [truthy]. eexists None, _. split_and!; [done|done| | |done| |done].
    + intros x. cbn [KeyVal._vals KeyVal.cache_]. rewrite Hhas. unfold vals.
      destruct (decide (x = k)) as [->|Hne].
      * rewrite lookup_insert_eq. by split; [|eauto].
      * rewrite lookup_insert_ne by done. apply Hsync.
    + intros x. rewrite Hhas. apply Htr.
    + by rewrite Hhas.
  - (* there is room *)
    cbn [truthy]. eexists None, _. split_and!; [done|done| | |done| |done].
    + intros x. cbn [KeyVal._vals KeyVal.cache_]. rewrite Hhas. unfold vals.
      destruct (decide (x = k)) as [->|Hne].
      * rewrite lookup_insert_eq. split; [by left|by eauto].
      * rewrite lookup_insert_ne by done. rewrite (Hsync x). naive_solver.
    + intros x [->|Hx]%Hhas; [done|by apply Htr].
    + apply Hhas. by left.
  - (* the cache is full *)
    assert (truthy e = true) as Hte.
    { destruct He as [->|He]; [done|by apply Htr]. }
    assert (e ≠ PNone) as Hne by (by intros ->).
    assert (is_Some (vals !! e)) as [val Hval].
    { unfold vals. destruct (decide (e = k)) as [->|Hek].
      - rewrite lookup_insert_eq. by eauto.
      - rewrite lookup_insert_ne by done. apply Hsync.
        by destruct He as [->|He]. }
    rewrite Hte. unfold vals_getitem. rewrite Hval. cbn [mbind result_bind].
    eexists (Some (e, val)), _. split_and!; try done.
    + intros x. cbn [KeyVal._vals KeyVal.cache_]. rewrite Hhas. unfold vals.
      destruct (decide (x = e)) as [->|Hxe].
      * rewrite lookup_delete_eq. split; [by intros [? ?]|by intros [_ ?]].
      * rewrite lookup_delete_ne by done.
        destruct (decide (x = k)) as [->|Hxk].
        -- rewrite lookup_insert_eq. split; [by split; [left|]|by eauto].
        -- rewrite lookup_insert_ne by done. rewrite (Hsync x). naive_solver.
    + intros x [[->|Hx] _]%Hhas; [done|by apply Htr].
    + intros Hk'. destruct (decide (e = k)) as [|Hek]; [done|].
      assert (has k c' = true); [|congruence].
      apply Hhas. split; [by left|done].
Qed.

(** The value map and the cache of the examples below hold the one key 5. *)
#[local] Ltac one_key_sync :=
  intros x; cbn [has KeyVal._vals KeyVal.cache_]; unfold LfuCache.has;
  cbn [LfuCache._cache dict_lookup];
  destruct (decide (x = PInt 5)) as [->|?];
  [rewrite lookup_singleton_eq;
   split; [intros _; by apply bool_decide_eq_true|by eauto]
  |rewrite lookup_singleton_ne by done;
   split; [by intros [? ?]|by intros ?%bool_decide_eq_true%is_Some_None]].

#[local] Ltac one_key_truthy :=
  intros x; cbn [has KeyVal._vals KeyVal.cache_]; unfold LfuCache.has;
  cbn [LfuCache._cache dict_lookup];
  destruct (decide (x = PInt 5)) as [->|?];
  [done|by intros ?%bool_decide_eq_true%is_Some_None].

(** X16. [kv_put] over one of the four replacement policies keeps the
    value map in step with the cache, as long as the keys are truthy and
    no falsy value is put for a key that an [LruCache] holds: from a state
    where the keys of the map are the resident keys, the call returns and
    leaves a state where they are so again. *)
Theorem kv_put_keeps_sync `{RandomGen} `{!RandomGenLaws H}
    (k v : pyval) (w : KeyVal.inst) (g : gen_state) :
  reachable (KeyVal.cache_ w) → policy_of (KeyVal.cache_ w) ≠ NULL →
  kv_sync w → keys_truthy (KeyVal.cache_ w) → truthy k = true →
  (policy_of (KeyVal.cache_ w) = LRU → has k (KeyVal.cache_ w) = true →
   truthy v = true) →
  ∃ r w' g',
    kv_put k v w g = Ok (r, w', g') ∧
    reachable (KeyVal.cache_ w') ∧ kv_sync w' ∧ keys_truthy (KeyVal.cache_ w').
Proof.
  intros Hreach Hpol Hsync Htr Hk Hlru.
  pose proof (reachable_inv _ Hreach) as Hinv.
  destruct (put_ok k _ g Hinv) as (e & c' & g' & Hput & _).
  destruct (kv_put_spec k v w g e c' g' Hinv Hpol Hsync Htr Hk Hlru Hput)
    as (r & w' & Hkv & Hc & Hsync' & Htr' & _).
  exists r, w', g'. rewrite Hc. split_and!; [done| |done|done].
  by eapply reach_put.
Qed.

Lemma kv_put_keeps_sync_witness :
  let w := KeyVal.mk (Lfu (LfuCache.mk [(PInt 5, (1, 1))] 1 1))
                     {[PInt 5 := PStr "a"]} in
  ∃ r w' g',
    kv_put (H := ToyRandom.gen) (PInt 6) (PStr "b") w 0 = Ok (r, w', g') ∧
    reachable (KeyVal.cache_ w') ∧ kv_sync w' ∧ keys_truthy (KeyVal.cache_ w').
Proof.
  apply (kv_put_keeps_sync (H := ToyRandom.gen) (PInt 6) (PStr "b")
           (KeyVal.mk (Lfu (LfuCache.mk [(PInt 5, (1, 1))] 1 1))
                      {[PInt 5 := PStr "a"]}) 0).
  - eapply (reach_put (H := ToyRandom.gen) (PInt 5) (Lfu (LfuCache.mk [] 0 1)) 0).
    + by apply (reach_new LFU 1).
    + reflexivity.
  - discriminate.
  - one_key_sync.
  - one_key_truthy.
  - reflexivity.
  - discriminate.
Defined.

(** X17. What [kv_put] returns over one of the four replacement policies,
    when the value map and the cache are in step, the keys are truthy and
    no falsy value is put for a key that an [LruCache] holds: the pair of
    the key that the [put] of the wrapped cache returns and of the value
    most recently put for that key, or [None] when that [put] returns
    [None]; the value of an evicted key leaves the value map. *)
Theorem kv_put_returns_evicted_pair `{RandomGen} `{!RandomGenLaws H}
    (k v : pyval) (w : KeyVal.inst) (g : gen_state) :
  reachable (KeyVal.cache_ w) → policy_of (KeyVal.cache_ w) ≠ NULL →
  kv_sync w → keys_truthy (KeyVal.cache_ w) → truthy k = true →
  (policy_of (KeyVal.cache_ w) = LRU → has k (KeyVal.cache_ w) = true →
   truthy v = true) →
  let vals := <[k := v]> (KeyVal._vals w) in
  ∃ e c' g' r,
    put k (KeyVal.cache_ w) g = Ok (e, c', g') ∧
    match r with
    | None =>
        e = PNone ∧ kv_put k v w g = Ok (None, KeyVal.mk c' vals, g')
    | Some (e', val) =>
        e' = e ∧ e ≠ PNone ∧ vals !! e = Some val ∧
        kv_put k v w g = Ok (Some (e, val), KeyVal.mk c' (delete e vals), g')
    end.
Proof.
  intros Hreach Hpol Hsync Htr Hk Hlru vals.
  pose proof (reachable_inv _ Hreach) as Hinv.
  destruct (put_ok k _ g Hinv) as (e & c' & g' & Hput & _).
  destruct (kv_put_spec k v w g e c' g' Hinv Hpol Hsync Htr Hk Hlru Hput)
    as (r & [c1 vals1] & Hkv & Hc & _ & _ & Hr).
  cbn in Hc. subst c1. exists e, c', g', r. split; [done|].
  destruct r as [[e' val]|]; cbn [KeyVal._vals] in Hr.
  - destruct Hr as (-> & Hne & Hval & -> & _). by rewrite Hkv.
  - destruct Hr as (-> & _ & ->). by rewrite Hkv.
Qed.

Lemma kv_put_returns_evicted_pair_witness :
  let w := KeyVal.mk (Lfu (LfuCache.mk [(PInt 5, (1, 1))] 1 1))
                     {[PInt 5 := PStr "a"]} in
  let k := PInt 6 in
  let v := PStr "b" in
  let vals := <[k := v]> (KeyVal._vals w) in
  ∃ e c' g' r,
    put (H := ToyRandom.gen) k (KeyVal.cache_ w) 0 = Ok (e, c', g') ∧
    match r with
    | None =>
        e = PNone ∧ kv_put k v w 0 = Ok (None, KeyVal.mk c' vals, g')
    | Some (e', val) =>
        e' = e ∧ e ≠ PNone ∧ vals !! e = Some val ∧
        kv_put k v w 0 = Ok (Some (e, val), KeyVal.mk c' (delete e vals), g')
    end.
Proof.
  apply (kv_put_returns_evicted_pair (H := ToyRandom.gen) (PInt 6) (PStr "b")
           (KeyVal.mk (Lfu (LfuCache.mk [(PInt 5, (1, 1))] 1 1))
                      {[PInt 5 := PStr "a"]}) 0).
  - eapply (reach_put (H := ToyRandom.gen) (PInt 5) (Lfu (LfuCache.mk [] 0 1)) 0).
    + by apply (reach_new LFU 1).
    + reflexivity.
  - discriminate.
  - one_key_sync.
  - one_key_truthy.
  - reflexivity.
  - discriminate.
Defined.

(** X18. [kv_get], from a state where the value map and the cache are in
    step: the call returns the value stored for a resident key and [None]
    for an absent one, and leaves the value map and the resident keys as
    they are. *)
Theorem kv_get_returns_stored_value `{RandomGen} (k : pyval) (w : KeyVal.inst) :
  reachable (KeyVal.cache_ w) → kv_sync w →
  ∃ w',
    kv_get k w = Ok (default PNone (KeyVal._vals w !! k), w') ∧
    (has k (KeyVal.cache_ w) = false → KeyVal._vals w !! k = None) ∧
    KeyVal._vals w' = KeyVal._vals w ∧
    (∀ x, has x (KeyVal.cache_ w') = has x (KeyVal.cache_ w)) ∧
    reachable (KeyVal.cache_ w') ∧ kv_sync w'.
Proof.
  intros Hreach Hsync. pose proof (reachable_inv _ Hreach) as Hinv.
  destruct (get_effect k _ Hinv) as (c' & Hget & _ & Hhas & _).
  unfold kv_get, k_get. rewrite Hget. cbn [mbind result_bind KeyVal._vals].
  assert (has k (KeyVal.cache_ w) = false → KeyVal._vals w !! k = None) as Hmiss.
  { intros Hh. destruct (KeyVal._vals w !! k) eqn:E; [|done].
    assert (has k (KeyVal.cache_ w) = true) by (apply Hsync; by rewrite E).
    congruence. }
  assert (reachable c') as Hreach' by by eapply reach_get.
  assert (kv_sync (KeyVal.mk c' (KeyVal._vals w))) as Hsync'.
  { intros x. cbn. rewrite Hhas. apply Hsync. }
  destruct (has k (KeyVal.cache_ w)) eqn:Hh.
  - apply Hsync in Hh as [v Hv]. unfold vals_getitem. rewrite Hv.
    eexists. by split_and!.
  - rewrite (Hmiss eq_refl). eexists. by split_and!.
Qed.

Lemma kv_get_returns_stored_value_witness :
  let w := KeyVal.mk (Lfu (LfuCache.mk [(PInt 5, (1, 1))] 1 1))
                     {[PInt 5 := PStr "a"]} in
  ∃ w',
    kv_get (PInt 5) w = Ok (default PNone (KeyVal._vals w !! PInt 5), w') ∧
    (has (PInt 5) (KeyVal.cache_ w) = false → KeyVal._vals w !! PInt 5 = None) ∧
    KeyVal._vals w' = KeyVal._vals w ∧
    (∀ x, has x (KeyVal.cache_ w') = has x (KeyVal.cache_ w)) ∧
    reachable (H := ToyRandom.gen) (KeyVal.cache_ w') ∧ kv_sync w'.
Proof.
  apply (kv_get_returns_stored_value (H := ToyRandom.gen) (PInt 5)
           (KeyVal.mk (Lfu (LfuCache.mk [(PInt 5, (1, 1))] 1 1))
                      {[PInt 5 := PStr "a"]})).
  - eapply (reach_put (H := ToyRandom.gen) (PInt 5) (Lfu (LfuCache.mk [] 0 1)) 0).
    + by apply (reach_new LFU 1).
    + reflexivity.
  - one_key_sync.
Defined.

(** X19. [kv_put] followed by [kv_get] of the same key, over one of the
    four replacement policies, when the value map and the cache are in
    step, the keys are truthy and no falsy value is put for a key that an
    [LruCache] holds: [kv_get] returns the value that was put, unless the
    [put] evicted the key itself (an [LfuCache] can); then [kv_put] has
    returned the pair of the key and the value, and [kv_get] returns
    [None]. *)
Theorem kv_put_then_get `{RandomGen} `{!RandomGenLaws H}
    (k v : pyval) (w : KeyVal.inst) (g : gen_state) :
  reachable (KeyVal.cache_ w) → policy_of (KeyVal.cache_ w) ≠ NULL →
  kv_sync w → keys_truthy (KeyVal.cache_ w) → truthy k = true →
  (policy_of (KeyVal.cache_ w) = LRU → has k (KeyVal.cache_ w) = true →
   truthy v = true) →
  ∃ r w' g',
    kv_put k v w g = Ok (r, w', g') ∧
    ((has k (KeyVal.cache_ w') = true ∧ ∃ w'', kv_get k w' = Ok (v, w'')) ∨
     (has k (KeyVal.cache_ w') = false ∧ r = Some (k, v) ∧
      kv_get k w' = Ok (PNone, w'))).
Proof.
  intros Hreach Hpol Hsync Htr Hk Hlru.
  pose proof (reachable_inv _ Hreach) as Hinv.
  destruct (put_ok k _ g Hinv) as (e & c' & g' & Hput & Hinv').
  destruct (kv_put_spec k v w g e c' g' Hinv Hpol Hsync Htr Hk Hlru Hput)
    as (r & [c1 vals1] & Hkv & Hc & Hsync' & _ & Hr).
  cbn in Hc. subst c1. exists r, (KeyVal.mk c' vals1), g'. split; [done|].
  cbn [KeyVal._vals KeyVal.cache_] in *.
  destruct (get_effect k c' Hinv') as (c'' & Hget & _ & _ & _ & _ & _ & Hmiss).
  unfold kv_get, k_get. cbn [KeyVal._vals KeyVal.cache_]. rewrite Hget.
  cbn [mbind result_bind KeyVal._vals].
  destruct (has k c') eqn:Hh.
  - left. split; [done|].
    assert (vals1 !! k = Some v) as Hv.
    { destruct r as [[e' val]|].
      - destruct Hr as (_ & _ & _ & Hvals & _).
        assert (k ≠ e) as Hke.
        { intros <-. assert (is_Some (vals1 !! k)) as Hs by by apply Hsync'.
          rewrite Hvals, lookup_delete_eq in Hs. by destruct Hs. }
        by rewrite Hvals, lookup_delete_ne, lookup_insert_eq.
      - destruct Hr as (_ & _ & Hvals). by rewrite Hvals, lookup_insert_eq. }
    unfold vals_getitem. rewrite Hv. by eexists.
  - right. rewrite (Hmiss eq_refl). split; [done|].
    destruct r as [[e' val]|]; [|by destruct Hr as (_ & ? & _)].
    destruct Hr as (-> & _ & Hval & _ & Hek). rewrite (Hek eq_refl) in Hval |- *.
    rewrite lookup_insert_eq in Hval. by injection Hval as <-.
Qed.

Lemma kv_put_then_get_witness :
  let w := KeyVal.mk (Lfu (LfuCache.mk [(PInt 5, (1, 1))] 1 1))
                     {[PInt 5 := PStr "a"]} in
  let k := PInt 6 in
  let v := PStr "b" in
  ∃ r w' g',
    kv_put (H := ToyRandom.gen) k v w 0 = Ok (r, w', g') ∧
    ((has k (KeyVal.cache_ w') = true ∧ ∃ w'', kv_get k w' = Ok (v, w'')) ∨
     (has k (KeyVal.cache_ w') = false ∧ r = Some (k, v) ∧
      kv_get k w' = Ok (PNone, w'))).
Proof.
  apply (kv_put_then_get (H := ToyRandom.gen) (PInt 6) (PStr "b")
           (KeyVal.mk (Lfu (LfuCache.mk [(PInt 5, (1, 1))] 1 1))
                      {[PInt 5 := PStr "a"]}) 0).
  - eapply (reach_put (H := ToyRandom.gen) (PInt 5) (Lfu (LfuCache.mk [] 0 1)) 0).
    + by apply (reach_new LFU 1).
    + reflexivity.
  - discriminate.
  - one_key_sync.
  - one_key_truthy.
  - reflexivity.
  - discriminate.
Defined.

Lemma kv_dump_fold (vals : gmap pyval pyval) (ks : list pyval) :
  (∀ k, k ∈ ks → is_Some (vals !! k)) →
  foldr (λ k acc, v ← vals_getitem k vals; l ← acc; Ok ((k, v) :: l)) (Ok []) ks =
  Ok ((λ k, (k, default PNone (vals !! k))) <$> ks).
Proof.
  induction ks as [|k ks IH]; intros Hks; [done|].
  cbn [foldr]. rewrite IH by (intros x Hx; apply Hks; by right).
  destruct (Hks k) as [v Hv]; [by left|].
  unfold vals_getitem. rewrite Hv. cbn [mbind result_bind fmap list_fmap].
  by rewrite Hv.
Qed.

(** X20. [kv_dump], from a state where the value map and the cache are in
    step: the call returns the keys of [dump], in that order, each with
    the value stored for it; the pairs are those of the value map. *)
Theorem kv_dump_lists_pairs `{RandomGen} (w : KeyVal.inst) :
  reachable (KeyVal.cache_ w) → kv_sync w →
  ∃ ks l,
    dump (KeyVal.cache_ w) = Some ks ∧ kv_dump w = Some (Ok l) ∧
    l.*1 = ks ∧ (∀ k v, (k, v) ∈ l ↔ KeyVal._vals w !! k = Some v).
Proof.
  intros Hreach Hsync. apply reachable_inv in Hreach.
  destruct (dump_spec _ Hreach) as (ks & Hd & _ & Hmem & _).
  exists ks, ((λ k, (k, default PNone (KeyVal._vals w !! k))) <$> ks).
  split_and!; [done| | |].
  - unfold kv_dump. rewrite Hd. f_equal. apply kv_dump_fold.
    intros k Hk. apply Hsync. by apply Hmem.
  - rewrite <-list_fmap_compose. by apply list_fmap_id.
  - intros k v. rewrite list_elem_of_fmap. split.
    + intros (k0 & [= -> ->] & Hk).
      apply Hmem, Hsync in Hk as [v Hv]. by rewrite Hv.
    + intros Hv. exists k. rewrite Hv. split; [done|].
      apply Hmem, Hsync. by rewrite Hv.
Qed.

Lemma kv_dump_lists_pairs_witness :
  let w := KeyVal.mk (Lfu (LfuCache.mk [(PInt 5, (1, 1))] 1 1))
                     {[PInt 5 := PStr "a"]} in
  ∃ ks l,
    dump (KeyVal.cache_ w) = Some ks ∧ kv_dump w = Some (Ok l) ∧
    l.*1 = ks ∧ (∀ k v, (k, v) ∈ l ↔ KeyVal._vals w !! k = Some v).
Proof.
  apply (kv_dump_lists_pairs (H := ToyRandom.gen)
           (KeyVal.mk (Lfu (LfuCache.mk [(PInt 5, (1, 1))] 1 1))
                      {[PInt 5 := PStr "a"]})).
  - eapply (reach_put (H := ToyRandom.gen) (PInt 5) (Lfu (LfuCache.mk [] 0 1)) 0).
    + by apply (reach_new LFU 1).
    + reflexivity.
  - one_key_sync.
Defined.

(** X21. [keyval_cache] copies the cache as it is and starts with an empty
    value map: the two are in step only when the cache is empty. For a key
    that is resident at that time [kv_get] raises KeyError, and so does
    [kv_dump]. *)
Theorem keyval_cache_of_nonempty_cache `{RandomGen} (c : cache) :
  reachable c →
  ∃ w, keyval_cache (ObjCache c) = Ok w ∧
       (kv_sync w ↔ len c = 0) ∧
       (∀ k, has k c = true →
             kv_get k w = Raise KeyError ∧ kv_dump w = Some (Raise KeyError)).
Proof.
  intros Hreach. apply reachable_inv in Hreach as Hinv.
  exists (KeyVal.mk c ∅). split; [done|].
  destruct (dump_spec c Hinv) as (ks & Hd & _ & Hmem & Hlen).
  split.
  - split.
    + intros Hsync. destruct ks as [|k ks]; [by rewrite <-Hlen|].
      assert (has k c = true) as Hk by (apply Hmem; by left).
      apply Hsync in Hk as [v Hv]. cbn in Hv. by rewrite lookup_empty in Hv.
    + intros Hz x. cbn. rewrite lookup_empty.
      split; [by intros [? ?]|]. intros Hx%Hmem.
      destruct ks; [by apply elem_of_nil in Hx|]. cbn in Hlen. lia.
  - intros k Hk. split.
    + destruct (get_effect k c Hinv) as (c' & Hget & _).
      unfold kv_get, k_get. cbn [KeyVal.cache_ KeyVal._vals]. rewrite Hget, Hk.
      by cbn.
    + unfold kv_dump. cbn [KeyVal.cache_ KeyVal._vals]. rewrite Hd. f_equal.
      destruct ks as [|k0 ks]; [by apply Hmem, elem_of_nil in Hk|]. by cbn.
Qed.

Lemma keyval_cache_of_nonempty_cache_witness :
  let c := Lfu (LfuCache.mk [(PInt 5, (1, 1))] 1 1) in
  ∃ w, keyval_cache (ObjCache c) = Ok w ∧
       (kv_sync w ↔ len c = 0) ∧
       (∀ k, has k c = true →
             kv_get k w = Raise KeyError ∧ kv_dump w = Some (Raise KeyError)).
Proof.
  apply (keyval_cache_of_nonempty_cache (H := ToyRandom.gen)
           (Lfu (LfuCache.mk [(PInt 5, (1, 1))] 1 1))).
  eapply (reach_put (H := ToyRandom.gen) (PInt 5) (Lfu (LfuCache.mk [] 0 1)) 0).
  - by apply (reach_new LFU 1).
  - reflexivity.
Defined.

(** X22. A key-value cache over a [NullCache] keeps every value that is
    put: [kv_put] stores the value in the value map and returns [None],
    the cache holds nothing, so [kv_get] returns [None] for the key, and
    the value map and the cache are out of step from then on. *)
Theorem kv_put_over_null_cache_keeps_value `{RandomGen}
    (k v : pyval) (c : NullCache.inst) (vals : gmap pyval pyval) (g : gen_state) :
  let w' := KeyVal.mk (Null c) (<[k := v]> vals) in
  kv_put k v (KeyVal.mk (Null c) vals) g = Ok (None, w', g) ∧
  kv_get k w' = Ok (PNone, w') ∧
  kv_dump w' = Some (Ok []) ∧
  ¬ kv_sync w'.
Proof.
  intros w'. split_and!; [done|done|done|].
  intros Hsync. specialize (Hsync k). cbn in Hsync.
  rewrite lookup_insert_eq in Hsync.
  assert (NullCache.has k c = true) by (apply Hsync; by eauto). done.
Qed.

(** X23. [kv_clear] empties the cache and the value map, whatever state
    they were in: afterwards the two are in step, also when they were not
    before. *)
Theorem kv_clear_restores_sync (w : KeyVal.inst) :
  kv_sync (kv_clear w) ∧
  KeyVal._vals (kv_clear w) = ∅ ∧
  len (KeyVal.cache_ (kv_clear w)) = 0 ∧
  dump (KeyVal.cache_ (kv_clear w)) = Some [] ∧
  kv_dump (kv_clear w) = Some (Ok []) ∧
  keys_truthy (KeyVal.cache_ (kv_clear w)).
Proof.
  destruct (clear_state (KeyVal.cache_ w)) as (Hlen & Hdump & Hhas & _).
  unfold kv_clear, kv_sync, keys_truthy, kv_dump. cbn [KeyVal._vals KeyVal.cache_].
  rewrite Hdump. split_and!; try done.
  - intros k. rewrite lookup_empty, Hhas. split; [by intros [? ?]|done].
  - intros k. by rewrite Hhas.
Qed.

(** *** LruCache: the links between the nodes *)

Lemma seg_middle s p l1 a k l2 :
  seg s p (l1 ++ (a, k) :: l2) None →
  ∃ n, s !! a = Some n ∧ Node.val n = k ∧
       Node.up n = last_ref l1 p ∧ Node.down n = head_ref l2 None.
Proof.
  intros Hseg. apply seg_app in Hseg as [_ Hseg].
  destruct Hseg as [(n & Hn & Hval & Hup & Hdown) _]. by exists n.
Qed.

(** X24. The doubly linked list of an [LruCache] is well formed in every
    reachable state. The index [_cache] maps each resident key to a node
    that holds this key; the node above it, when there is one, has it as
    its [down], and when there is none the node is [top]; the node below
    it, when there is one, has it as its [up], and when there is none the
    node is [bottom]. *)
Theorem lru_links_are_consistent `{RandomGen} (c : LruCache.inst) (k : pyval) (a : ref) :
  reachable (Lru c) →
  LruCache._cache c !! k = Some a →
  ∃ n, LruCache.store c !! a = Some n ∧ Node.val n = k ∧
       match Node.up n with
       | None => LruCache.top c = Some a
       | Some u => ∃ nu, LruCache.store c !! u = Some nu ∧ Node.down nu = Some a
       end ∧
       match Node.down n with
       | None => LruCache.bottom c = Some a
       | Some d => ∃ nd, LruCache.store c !! d = Some nd ∧ Node.up nd = Some a
       end.
Proof.
  intros Hreach Hk. apply reachable_inv in Hreach as (l & Hrep & _).
  destruct Hrep as (Hseg & Htop & Hbot & _ & _ & Hmap & _).
  apply Hmap in Hk. apply list_elem_of_split in Hk as (l1 & l2 & ->).
  destruct (seg_middle _ _ _ _ _ _ Hseg) as (n & Hn & Hval & Hup & Hdown).
  exists n. split_and!; [done|done| |].
  - rewrite Hup. destruct l1 as [|[u ku] l1 _] using rev_ind.
    + by rewrite Htop.
    + rewrite last_ref_snoc. rewrite <-app_assoc in Hseg. cbn [app] in Hseg.
      destruct (seg_middle _ _ _ _ _ _ Hseg) as (nu & Hnu & _ & _ & Hd).
      by exists nu.
  - rewrite Hdown. destruct l2 as [|[d kd] l2].
    + cbn [head_ref]. by rewrite Hbot, last_ref_snoc.
    + cbn [head_ref].
      change (l1 ++ (a, k) :: (d, kd) :: l2)
        with (l1 ++ [(a, k)] ++ (d, kd) :: l2) in Hseg.
      rewrite app_assoc in Hseg.
      destruct (seg_middle _ _ _ _ _ _ Hseg) as (nd & Hnd & _ & Hu & _).
      exists nd. by rewrite Hu, last_ref_snoc.
Qed.

Lemma lru_links_are_consistent_witness :
  ∃ c, (c0 ← LruCache.init 2;
        '(_, c1) ← LruCache.put (PInt 1) c0;
        '(_, c2) ← LruCache.put (PInt 2) c1;
        Ok c2) = Ok c ∧
  ∃ n, LruCache.store c !! 0%nat = Some n ∧ Node.val n = PInt 1 ∧
       match Node.up n with
       | None => LruCache.top c = Some 0%nat
       | Some u => ∃ nu, LruCache.store c !! u = Some nu ∧ Node.down nu = Some 0%nat
       end ∧
       match Node.down n with
       | None => LruCache.bottom c = Some 0%nat
       | Some d => ∃ nd, LruCache.store c !! d = Some nd ∧ Node.up nd = Some 0%nat
       end.
Proof.
  eexists. split; [reflexivity|].
  apply (lru_links_are_consistent (H := ToyRandom.gen)).
  - eapply (reach_put (H := ToyRandom.gen) (PInt 2) _ 0);
      [eapply (reach_put (H := ToyRandom.gen) (PInt 1) _ 0);
         [by apply (reach_new LRU 2)|reflexivity]
      |reflexivity].
  - vm_compute. reflexivity.
Defined.

(** *** LruCache: recency order *)

(** C5. In a reachable [LruCache], [get] of a resident key returns [True]
    and leaves that key first in [dump], before the other keys in the
    order they had; and [put] of an absent key that brings the size above
    the capacity evicts the key that was last in the [dump] taken just
    before the call: it returns that key, the key is no longer resident,
    the new key is, [dump] is the new key followed by the earlier [dump]
    without its last key, and the size stays. *)
Theorem lru_get_first_put_evicts_last `{RandomGen} (c : LruCache.inst) (k : pyval) :
  reachable (Lru c) →
  (LruCache.has k c = true →
   ∃ d0 c', LruCache.dump c = Some d0 ∧
            LruCache.get k c = Ok (true, c') ∧
            LruCache.dump c' = Some (k :: filter (λ x, x ≠ k) d0) ∧
            (∀ x, LruCache.has x c' = LruCache.has x c)) ∧
  (LruCache.has k c = false →
   LruCache._maxlen c < LruCache.len c + 1 →
   ∃ d0 e c', LruCache.dump c = Some d0 ∧ last d0 = Some e ∧
              LruCache.put k c = Ok (e, c') ∧
              LruCache.has e c' = false ∧
              LruCache.has k c' = true ∧
              (∀ x, LruCache.has x c' = true ↔
                    (x = k ∨ LruCache.has x c = true) ∧ x ≠ e) ∧
              LruCache.dump c' = Some (k :: removelast d0) ∧
              LruCache.len c' = LruCache.len c).
Proof.
  intros Hreach. apply reachable_inv in Hreach as Hinv. split.
  - intros Hhas. destruct Hinv as (l & Hrep & _).
    destruct (lru_get_keys c l k Hrep) as (c' & l' & Hget & Hrep' & _ & Hks).
    rewrite Hhas in Hget. exists l.*2, c'.
    unfold lru_keys_get in Hks.
    rewrite bool_decide_true in Hks by by apply (lru_has_true c l).
    split_and!; [by apply lru_dump_rep|done| |].
    + by rewrite (lru_dump_rep c' l' Hrep'), Hks.
    + intros x. apply bool_eq_iff.
      rewrite (lru_has_true c' l' x Hrep'), (lru_has_true c l x Hrep), Hks.
      rewrite elem_of_cons, list_elem_of_filter.
      apply (lru_has_true c l k Hrep) in Hhas.
      destruct (decide (x = k)) as [->|]; naive_solver.
  - intros Hhas Hfull.
    destruct (lru_put_order c k Hinv)
      as (ks & e & c' & Hd & Hlen & Hnd & Hmem & Hput & Hinv' & _ & Hcases).
    rewrite Hhas in Hcases.
    assert ((LruCache.len c <? LruCache.maxlen c) = false) as E.
    { destruct Hinv as (_ & _ & _ & Hle). unfold LruCache.maxlen. bool_lia. }
    rewrite E in Hcases. destruct Hcases as [He Hd'].
    assert (ks ≠ []) as Hne by (intros ->; done).
    destruct (exists_last Hne) as (ks0 & x0 & ->).
    rewrite last_snoc in He. injection He as ->.
    rewrite removelast_snoc in Hd'.
    apply NoDup_app in Hnd as (Hnd0 & Hdisj & _).
    assert (e ∉ ks0) as He0.
    { intros Hin. apply (Hdisj _ Hin). by apply list_elem_of_singleton. }
    assert (k ≠ e) as Hke.
    { intros ->. assert (LruCache.has e c = true); [|congruence].
      apply Hmem, elem_of_app. right. by apply list_elem_of_singleton. }
    destruct (dump_spec (Lru c') Hinv') as (l' & Hl' & _ & Hmem' & Hlen').
    cbn [dump has len] in Hl', Hmem', Hlen'. rewrite Hd' in Hl'.
    injection Hl' as <-.
    assert (∀ x, LruCache.has x c' = true ↔
                 (x = k ∨ LruCache.has x c = true) ∧ x ≠ e) as Hhas'.
    { intros x. rewrite <-Hmem', <-Hmem, elem_of_cons, elem_of_app,
        list_elem_of_singleton.
      destruct (decide (x = e)) as [->|]; naive_solver. }
    exists (ks0 ++ [e]), e, c'.
    split_and!; [done|by rewrite last_snoc|done| |by apply Hhas'; auto|done
                |by rewrite removelast_snoc|].
    + destruct (LruCache.has e c') eqn:Ee; [|done]. by apply Hhas' in Ee as [_ ?].
    + rewrite <-Hlen', <-Hlen. cbn [length]. rewrite length_app. cbn. lia.
Qed.

Lemma lru_get_first_put_evicts_last_witness :
  ∃ c, (c0 ← LruCache.init 2;
        '(_, c1) ← LruCache.put (PInt 1) c0;
        '(_, c2) ← LruCache.put (PInt 2) c1;
        Ok c2) = Ok c ∧
  (∃ d0 c', LruCache.dump c = Some d0 ∧
            LruCache.get (PInt 1) c = Ok (true, c') ∧
            LruCache.dump c' = Some (PInt 1 :: filter (λ x, x ≠ PInt 1) d0) ∧
            (∀ x, LruCache.has x c' = LruCache.has x c)) ∧
  (∃ d0 e c', LruCache.dump c = Some d0 ∧ last d0 = Some e ∧
              LruCache.put (PInt 3) c = Ok (e, c') ∧
              LruCache.has e c' = false ∧
              LruCache.has (PInt 3) c' = true ∧
              (∀ x, LruCache.has x c' = true ↔
                    (x = PInt 3 ∨ LruCache.has x c = true) ∧ x ≠ e) ∧
              LruCache.dump c' = Some (PInt 3 :: removelast d0) ∧
              LruCache.len c' = LruCache.len c).
Proof.
  eexists. split; [reflexivity|]. split.
  - apply (lru_get_first_put_evicts_last (H := ToyRandom.gen) _ (PInt 1)).
    + eapply (reach_put (H := ToyRandom.gen) (PInt 2) _ 0);
        [eapply (reach_put (H := ToyRandom.gen) (PInt 1) _ 0);
           [by apply (reach_new LRU 2)|reflexivity]
        |reflexivity].
    + vm_compute. reflexivity.
  - apply (lru_get_first_put_evicts_last (H := ToyRandom.gen) _ (PInt 3)).
    + eapply (reach_put (H := ToyRandom.gen) (PInt 2) _ 0);
        [eapply (reach_put (H := ToyRandom.gen) (PInt 1) _ 0);
           [by apply (reach_new LRU 2)|reflexivity]
        |reflexivity].
    + vm_compute. reflexivity.
    + vm_compute. reflexivity.
Defined.

(** *** Construction *)







